(** * Precog checkers: rules engine and alpha-beta search

    A shallow embedding of [src/game/Board.ts], [src/game/Move.ts],
    [src/ai/Evaluator.ts] and [src/ai/Minimax.ts], with the properties
    of the engine stated and proved over it.

    Conventions of the embedding.
    - JavaScript numbers that the engine uses (coordinates, scores, the
      search depth) are integers; they are modelled by [Z].  The two
      infinities that the search uses as initial bounds are added by
      the type [num].
    - [this.grid] is an array of eight row arrays.  A row array can be
      read and written at any index (a write outside 0..7 adds a
      property to the row), whereas [this.grid[row]] outside 0..7 is
      [undefined] and indexing it throws a [TypeError].  The grid is
      therefore a finite map keyed by [(row, col)]; an absent key is a
      cell that holds [null] (or nothing), and the accesses to a row
      outside 0..7 are written out as throws.
    - The constructor and [clone] give every cell a [Piece] object of
      its own, and on such boards the in-place promotion of a piece is
      an update of its cell: this is the board of the sections
      [Board.ts] to [GameState.ts].  [setPiece] can put one object on
      two cells; the section [Piece objects] keeps the references and
      the objects apart, and the two are related where a property
      depends on it. *)

From stdpp Require Import gmap list sorting strings.
From Stdlib Require Import ZArith Lia.

Local Open Scope Z_scope.

(** ** Board.ts *)

Inductive Player := Red | Black.

Inductive PieceType := Regular | King.

Record Piece := mkPiece { player : Player; type : PieceType }.

Global Instance Player_eq_dec : EqDecision Player.
Proof. solve_decision. Defined.

Global Instance PieceType_eq_dec : EqDecision PieceType.
Proof. solve_decision. Defined.

Global Instance Piece_eq_dec : EqDecision Piece.
Proof. solve_decision. Defined.

Record Board := mkBoard { grid : gmap (Z * Z) Piece }.

(** How a call ends: normally, or by the [TypeError] of indexing
    [undefined]. *)
Inductive signal := Completed | TypeError.

(** [row >= 0 && row < 8 && col >= 0 && col < 8] *)
Definition inRange (row col : Z) : bool :=
  (0 <=? row) && (row <? 8) && (0 <=? col) && (col <? 8).

(** Whether [this.grid[row]] is a row array. *)
Definition isRow (row : Z) : bool := (0 <=? row) && (row <? 8).

(** The index sequence of [for (let i = lo; i < hi; i++)]. *)
Definition upto (lo hi : Z) : list Z := seqZ lo (hi - lo).

Definition empty : Board := mkBoard ∅.

Definition placeRows (who : Player) (lo hi : Z)
    (g : gmap (Z * Z) Piece) : gmap (Z * Z) Piece :=
  foldl (fun g row =>
    foldl (fun g col =>
      if (row + col) mod 2 =? 1
      then <[(row, col) := mkPiece who Regular]> g
      else g) g (upto 0 8)) g (upto lo hi).

Definition createInitialBoard : gmap (Z * Z) Piece :=
  placeRows Black 5 8 (placeRows Red 0 3 ∅).

(** [new Board()] *)
Definition newBoard : Board := mkBoard createInitialBoard.

Definition getPieceAt (b : Board) (row col : Z) : option Piece :=
  if negb (inRange row col) then None else grid b !! (row, col).

Definition store (g : gmap (Z * Z) Piece) (row col : Z)
    (piece : option Piece) : gmap (Z * Z) Piece :=
  match piece with
  | Some p => <[(row, col) := p]> g
  | None => delete (row, col) g
  end.

Definition setPiece (b : Board) (row col : Z) (piece : option Piece) : Board :=
  if inRange row col then mkBoard (store (grid b) row col piece) else b.

(** Row-major scan; the entries are [(piece, row, col)]. *)
Definition getPieces (b : Board) (who : Player) : list (Piece * Z * Z) :=
  row ← upto 0 8;
  col ← upto 0 8;
  match grid b !! (row, col) with
  | Some piece =>
      if decide (player piece = who) then [(piece, row, col)] else []
  | None => []
  end.

(** The promotion check at the end of [movePiece]. *)
Definition promoted (piece : Piece) (toRow : Z) : Piece :=
  match type piece with
  | Regular =>
      match player piece with
      | Red => if toRow =? 7 then mkPiece Red King else piece
      | Black => if toRow =? 0 then mkPiece Black King else piece
      end
  | King => piece
  end.

(** [movePiece] indexes the grid without a range check.  The board that
    is returned with [TypeError] is the board at the moment of the
    throw. *)
Definition movePiece (b : Board) (fromRow fromCol toRow toCol : Z)
    : Board * signal :=
  if negb (isRow fromRow) then (b, TypeError)
  else
    match grid b !! (fromRow, fromCol) with
    | None => (b, Completed)
    | Some piece =>
        let g := delete (fromRow, fromCol) (grid b) in
        if negb (isRow toRow) then (mkBoard g, TypeError)
        else (mkBoard (<[(toRow, toCol) := promoted piece toRow]> g), Completed)
    end.

Definition removePiece (b : Board) (row col : Z) : Board :=
  if inRange row col then mkBoard (delete (row, col) (grid b)) else b.

(** The body of the loops of [clone]: the cell [(row, col)] of the
    copy receives a copy of the piece of [src], if there is one. *)
Definition copyCell (src : gmap (Z * Z) Piece) (row : Z)
    (g : gmap (Z * Z) Piece) (col : Z) : gmap (Z * Z) Piece :=
  match src !! (row, col) with
  | Some piece => <[(row, col) := piece]> g
  | None => g
  end.

Definition clone (b : Board) : Board :=
  mkBoard
    (foldl (fun g row => foldl (copyCell (grid b) row) g (upto 0 8)) ∅ (upto 0 8)).

(** ** Move.ts *)

Inductive MoveType := Step | Capture.

Global Instance MoveType_eq_dec : EqDecision MoveType.
Proof. solve_decision. Defined.

(** The interface [Move]; [moveType] is its field [type], and
    [MoveType.Regular] is [Step] here ([Regular] names the piece rank). *)
Record Move := mkMove {
  toRow : Z;
  toCol : Z;
  moveType : MoveType;
  capturedRow : option Z;
  capturedCol : option Z
}.

Record PieceMove := mkPieceMove { fromRow : Z; fromCol : Z; move : Move }.

Definition DIRECTIONS : list (Z * Z) := [(-1, -1); (-1, 1); (1, -1); (1, 1)].

Definition getDirections (who : Player) (t : PieceType) : list (Z * Z) :=
  match t with
  | King => DIRECTIONS
  | Regular =>
      match who with
      | Red => [(1, -1); (1, 1)]
      | Black => [(-1, -1); (-1, 1)]
      end
  end.

Definition isValidPosition (row col : Z) : bool :=
  (0 <=? row) && (row <? 8) && (0 <=? col) && (col <? 8).

Definition getRegularMoves (b : Board) (row col : Z) (who : Player)
    (t : PieceType) : list Move :=
  d ← getDirections who t;
  let newRow := row + d.1 in
  let newCol := col + d.2 in
  if isValidPosition newRow newCol && negb (bool_decide (is_Some (getPieceAt b newRow newCol)))
  then [mkMove newRow newCol Step None None]
  else [].

Definition getCaptureMoves (b : Board) (row col : Z) (who : Player)
    (t : PieceType) : list Move :=
  d ← getDirections who t;
  let jumpedRow := row + d.1 in
  let jumpedCol := col + d.2 in
  let landRow := row + 2 * d.1 in
  let landCol := col + 2 * d.2 in
  if negb (isValidPosition landRow landCol) then []
  else
    match getPieceAt b jumpedRow jumpedCol, getPieceAt b landRow landCol with
    | Some jumpedPiece, None =>
        if decide (player jumpedPiece ≠ who)
        then [mkMove landRow landCol Capture (Some jumpedRow) (Some jumpedCol)]
        else []
    | _, _ => []
    end.

Definition getValidMoves (b : Board) (row col : Z) : list Move :=
  match getPieceAt b row col with
  | None => []
  | Some piece =>
      let captures := getCaptureMoves b row col (player piece) (type piece) in
      match captures with
      | _ :: _ => captures
      | [] => getRegularMoves b row col (player piece) (type piece)
      end
  end.

(** The first loop of [getAllValidMoves]: the state is
    [(allMoves, hasCapture)]. *)
Definition capturePass (b : Board) (pieces : list (Piece * Z * Z))
    : list PieceMove * bool :=
  foldl (fun (st : list PieceMove * bool) '(piece, row, col) =>
    let captures := getCaptureMoves b row col (player piece) (type piece) in
    match captures with
    | _ :: _ => (st.1 ++ (mkPieceMove row col <$> captures), true)
    | [] => st
    end) ([], false) pieces.

(** The second loop of [getAllValidMoves]. *)
Definition stepPass (b : Board) (pieces : list (Piece * Z * Z))
    (allMoves : list PieceMove) : list PieceMove :=
  foldl (fun (allMoves : list PieceMove) '(piece, row, col) =>
    allMoves ++
      (mkPieceMove row col <$> getRegularMoves b row col (player piece) (type piece)))
    allMoves pieces.

Definition getAllValidMoves (b : Board) (who : Player) : list PieceMove :=
  let pieces := getPieces b who in
  let '(allMoves, hasCapture) := capturePass b pieces in
  if hasCapture then allMoves else stepPass b pieces allMoves.

(** [Move.execute] *)
Definition execute (b : Board) (fromRow fromCol : Z) (m : Move) : Board * signal :=
  let b :=
    match moveType m, capturedRow m, capturedCol m with
    | Capture, Some cr, Some cc => removePiece b cr cc
    | _, _, _ => b
    end in
  movePiece b fromRow fromCol (toRow m) (toCol m).

(** ** Evaluator.ts *)

Definition WIN_SCORE : Z := 10000.
Definition PIECE_VALUE : Z := 100.
Definition KING_VALUE : Z := 180.
Definition CENTER_BONUS : Z := 5.
Definition ADVANCE_BONUS : Z := 2.

Definition opponentOf (who : Player) : Player :=
  match who with Red => Black | Black => Red end.

(** [Math.abs(3.5 - col) + Math.abs(3.5 - row)], doubled so that it
    stays in [Z]: for integer coordinates both terms are odd multiples
    of one half, their sum is an integer and the doubled sum is even. *)
Definition centerDistance2 (row col : Z) : Z :=
  Z.abs (7 - 2 * col) + Z.abs (7 - 2 * row).

Definition evaluatePiece (piece : Piece) (row col : Z) (who : Player) : Z :=
  let value := match type piece with King => KING_VALUE | Regular => PIECE_VALUE end in
  let value := value + (7 - centerDistance2 row col / 2) * CENTER_BONUS in
  match type piece with
  | Regular =>
      match who with
      | Red => value + row * ADVANCE_BONUS
      | Black => value + (7 - row) * ADVANCE_BONUS
      end
  | King => value
  end.

Section Evaluate.
(** [evaluate] over the per-piece valuation it sums, so that which
    results depend on the valuation can be stated. *)
Variable valuation : Piece -> Z -> Z -> Player -> Z.

Definition evaluateWith (b : Board) (who : Player) : Z :=
  let opponent := opponentOf who in
  let playerPieces := getPieces b who in
  let opponentPieces := getPieces b opponent in
  match opponentPieces with
  | [] => WIN_SCORE
  | _ :: _ =>
      match playerPieces with
      | [] => - WIN_SCORE
      | _ :: _ =>
          let score :=
            foldl (fun score '(piece, row, col) =>
              score + valuation piece row col who) 0 playerPieces in
          foldl (fun score '(piece, row, col) =>
            score - valuation piece row col opponent) score opponentPieces
      end
  end.
End Evaluate.

Definition evaluate : Board -> Player -> Z := evaluateWith evaluatePiece.

(** ** Minimax.ts *)

(** A JavaScript number of the search: an integer or one of the two
    infinities. *)
Inductive num := NegInf | Fin (z : Z) | PosInf.

Definition num_leb (a b : num) : bool :=
  match a, b with
  | NegInf, _ => true
  | _, PosInf => true
  | Fin x, Fin y => x <=? y
  | _, _ => false
  end.

Definition num_ltb (a b : num) : bool := negb (num_leb b a).

(** [Math.max] and [Math.min] *)
Definition num_max (a b : num) : num := if num_leb a b then b else a.
Definition num_min (a b : num) : num := if num_leb a b then a else b.

(** The interface [SearchResult]: its fields [fromRow], [fromCol] and
    [move] are [source], its field [score] is [score]. *)
Record SearchResult := mkSearchResult { source : PieceMove; score : num }.

(** What a call of a recursive function does: it returns, it throws, or
    the nesting of its calls is deeper than the fuel allows. *)
Inductive outcome (A : Type) :=
  | Returns (a : A)
  | Throws
  | NoFuel.
Arguments Returns {A} a.
Arguments Throws {A}.
Arguments NoFuel {A}.

Section SearchLoops.
(** The recursive call of the loop bodies, with the board, [alpha]
    and [beta] it is given. *)
Variable search : Board -> num -> num -> outcome num.
Variable b : Board.

(** The loop of the maximizing branch of [minimax]. *)
Fixpoint maxLoop (moves : list PieceMove) (maxEval alpha beta : num)
    : outcome num :=
  match moves with
  | [] => Returns maxEval
  | pieceMove :: moves =>
      match execute (clone b) (fromRow pieceMove) (fromCol pieceMove) (move pieceMove) with
      | (_, TypeError) => Throws
      | (nb, Completed) =>
          match search nb alpha beta with
          | Returns evalScore =>
              let maxEval := num_max maxEval evalScore in
              let alpha := num_max alpha evalScore in
              if num_leb beta alpha then Returns maxEval
              else maxLoop moves maxEval alpha beta
          | Throws => Throws
          | NoFuel => NoFuel
          end
      end
  end.

(** The loop of the minimizing branch of [minimax]. *)
Fixpoint minLoop (moves : list PieceMove) (minEval alpha beta : num)
    : outcome num :=
  match moves with
  | [] => Returns minEval
  | pieceMove :: moves =>
      match execute (clone b) (fromRow pieceMove) (fromCol pieceMove) (move pieceMove) with
      | (_, TypeError) => Throws
      | (nb, Completed) =>
          match search nb alpha beta with
          | Returns evalScore =>
              let minEval := num_min minEval evalScore in
              let beta := num_min beta evalScore in
              if num_leb beta alpha then Returns minEval
              else minLoop moves minEval alpha beta
          | Throws => Throws
          | NoFuel => NoFuel
          end
      end
  end.

(** The loop of [findBestMove]; [beta] is the constant [Infinity]. *)
Fixpoint bestLoop (moves : list PieceMove) (bestResult : option SearchResult)
    (alpha : num) : outcome (option SearchResult) :=
  match moves with
  | [] => Returns bestResult
  | pieceMove :: moves =>
      match execute (clone b) (fromRow pieceMove) (fromCol pieceMove) (move pieceMove) with
      | (_, TypeError) => Throws
      | (nb, Completed) =>
          match search nb alpha PosInf with
          | Returns sc =>
              let bestResult :=
                match bestResult with
                | None => Some (mkSearchResult pieceMove sc)
                | Some best =>
                    if num_ltb (score best) sc
                    then Some (mkSearchResult pieceMove sc)
                    else Some best
                end in
              bestLoop moves bestResult (num_max alpha sc)
          | Throws => Throws
          | NoFuel => NoFuel
          end
      end
  end.
End SearchLoops.

(** [fuel] bounds the nesting of the recursive calls; [depth] is the
    argument of the source, compared with [0] by [===]. *)
Fixpoint minimax (fuel : nat) (b : Board) (depth : Z) (alpha beta : num)
    (isMaximizing : bool) (who : Player) : outcome num :=
  match fuel with
  | O => NoFuel
  | S fuel =>
      let opponent := opponentOf who in
      let currentPlayer := if isMaximizing then who else opponent in
      if depth =? 0 then Returns (Fin (evaluate b who))
      else
        let moves := getAllValidMoves b currentPlayer in
        match moves with
        | [] => Returns (Fin (if isMaximizing then - WIN_SCORE else WIN_SCORE))
        | _ :: _ =>
            if isMaximizing
            then maxLoop
                   (fun nb alpha beta => minimax fuel nb (depth - 1) alpha beta false who)
                   b moves NegInf alpha beta
            else minLoop
                   (fun nb alpha beta => minimax fuel nb (depth - 1) alpha beta true who)
                   b moves PosInf alpha beta
        end
  end.

Definition findBestMove (fuel : nat) (b : Board) (who : Player) (depth : Z)
    : outcome (option SearchResult) :=
  let moves := getAllValidMoves b who in
  match moves with
  | [] => Returns None
  | _ :: _ =>
      bestLoop
        (fun nb alpha beta => minimax fuel nb (depth - 1) alpha beta false who)
        b moves None NegInf
  end.

(** *** The unpruned traversal

    The reference of the equivalence of the pruned search: the full
    minimax value of the tree that [getAllValidMoves] and [execute]
    span, [depth] plies deep, written after the description of the
    search and not after its code.  The leaves at depth 0 are evaluated
    for the fixed player; a side without a move has lost. *)

(** The position after a move, played on a copy. *)
Definition play (b : Board) (pm : PieceMove) : Board :=
  (execute (clone b) (fromRow pm) (fromCol pm) (move pm)).1.

Fixpoint fullMinimax (depth : nat) (b : Board) (isMaximizing : bool)
    (who : Player) : Z :=
  match depth with
  | O => evaluate b who
  | S depth =>
      let side := if isMaximizing then who else opponentOf who in
      match getAllValidMoves b side with
      | [] => if isMaximizing then - WIN_SCORE else WIN_SCORE
      | pm :: rest =>
          let value pm := fullMinimax depth (play b pm) (negb isMaximizing) who in
          if isMaximizing
          then foldl Z.max (value pm) (value <$> rest)
          else foldl Z.min (value pm) (value <$> rest)
      end
  end.

(** ** Capture chains (Move.ts) *)

Section ChainLoop.
(** The body of the loop of [findCaptureChains] over the captures:
    it is given the capture and [allChains] and returns [allChains]
    after the recursive call. *)
Variable descend : Move -> list (list Move) -> outcome (list (list Move)).

Fixpoint chainLoop (captures : list Move) (allChains : list (list Move))
    : outcome (list (list Move)) :=
  match captures with
  | [] => Returns allChains
  | capture :: captures =>
      match descend capture allChains with
      | Returns allChains => chainLoop captures allChains
      | Throws => Throws
      | NoFuel => NoFuel
      end
  end.
End ChainLoop.

(** [allChains] is the array that the calls push to: it is passed in
    and returned. *)
Fixpoint findCaptureChains (fuel : nat) (b : Board) (row col : Z)
    (who : Player) (t : PieceType) (currentChain : list Move)
    (allChains : list (list Move)) : outcome (list (list Move)) :=
  match fuel with
  | O => NoFuel
  | S fuel =>
      let captures := getCaptureMoves b row col who t in
      match captures with
      | [] =>
          Returns
            match currentChain with
            | [] => allChains
            | _ :: _ => allChains ++ [currentChain]
            end
      | _ :: _ =>
          chainLoop
            (fun capture allChains =>
               match execute (clone b) row col capture with
               | (_, TypeError) => Throws
               | (nb, Completed) =>
                   let newType :=
                     match getPieceAt nb (toRow capture) (toCol capture) with
                     | Some newPiece => type newPiece
                     | None => t
                     end in
                   findCaptureChains fuel nb (toRow capture) (toCol capture)
                     who newType (currentChain ++ [capture]) allChains
               end)
            captures allChains
      end
  end.

Definition getCaptureChains (fuel : nat) (b : Board) (row col : Z)
    : outcome (list (list Move)) :=
  match getPieceAt b row col with
  | None => Returns []
  | Some piece =>
      findCaptureChains fuel (clone b) row col (player piece) (type piece) [] []
  end.

(** Playing the moves of a chain one after the other, each from the
    square the move before it landed on. *)
Fixpoint replay (b : Board) (row col : Z) (chain : list Move) : Board * Z * Z :=
  match chain with
  | [] => (b, row, col)
  | m :: chain => replay (execute b row col m).1 (toRow m) (toCol m) chain
  end.

(** A chain of captures of the piece on [(row, col)]: each move is one
    of the captures the validator generates for the piece where it
    stands, on the board the moves before it have left. *)
Fixpoint captureChain (b : Board) (row col : Z) (chain : list Move) : Prop :=
  match chain with
  | [] => True
  | m :: chain =>
      (exists piece, getPieceAt b row col = Some piece /\
         m ∈ getCaptureMoves b row col (player piece) (type piece)) /\
      captureChain (execute b row col m).1 (toRow m) (toCol m) chain
  end.

(** ** Precog.ts *)

(** The interface [FutureVision]. *)
Record FutureVision := mkFutureVision {
  moves : list PieceMove;
  finalBoard : Board;
  evaluation : num;
  description : string
}.

Definition describeVision (sc : num) (who : Player) : string :=
  if num_leb (Fin WIN_SCORE) sc then "Victory is certain"
  else if num_leb sc (Fin (- WIN_SCORE)) then "Defeat looms"
  else if num_ltb (Fin 200) sc then "A promising future"
  else if num_ltb (Fin 50) sc then "Slight advantage ahead"
  else if num_ltb sc (Fin (-200)) then "Danger approaches"
  else if num_ltb sc (Fin (-50)) then "Caution advised"
  else "The future is unclear".

(** The loop of [simulateFuture]: [steps] holds the values of [i] that
    are left, the state is the board (moved on in place), the player to
    move and the moves so far. *)
Fixpoint simulateLoop (fuel : nat) (steps : list Z) (currentBoard : Board)
    (currentPlayer : Player) (line : list PieceMove)
    : outcome (Board * list PieceMove) :=
  match steps with
  | [] => Returns (currentBoard, line)
  | _ :: steps =>
      if negb (Z.of_nat (length line) <? 6) then Returns (currentBoard, line)
      else
        match findBestMove fuel currentBoard currentPlayer 2 with
        | Returns None => Returns (currentBoard, line)
        | Returns (Some bestMove) =>
            match execute currentBoard (fromRow (source bestMove))
                    (fromCol (source bestMove)) (move (source bestMove)) with
            | (_, TypeError) => Throws
            | (nb, Completed) =>
                simulateLoop fuel steps nb (opponentOf currentPlayer)
                  (line ++ [source bestMove])
            end
        | Throws => Throws
        | NoFuel => NoFuel
        end
  end.

Definition simulateFuture (fuel : nat) (b : Board) (who : Player)
    (initialMove : PieceMove) (depth : Z) : outcome FutureVision :=
  match execute (clone b) (fromRow initialMove) (fromCol initialMove)
          (move initialMove) with
  | (_, TypeError) => Throws
  | (currentBoard, Completed) =>
      match simulateLoop fuel (upto 0 depth) currentBoard (opponentOf who)
              [initialMove] with
      | Returns (currentBoard, line) =>
          let evaluation := Fin (evaluate currentBoard who) in
          Returns (mkFutureVision line currentBoard evaluation
                     (describeVision evaluation who))
      | Throws => Throws
      | NoFuel => NoFuel
      end
  end.

(** The first loop of [getFutures]: one vision for each move. *)
Fixpoint simulateEach (fuel : nat) (b : Board) (who : Player) (depth : Z)
    (candidates : list PieceMove) (visions : list FutureVision)
    : outcome (list FutureVision) :=
  match candidates with
  | [] => Returns visions
  | pieceMove :: candidates =>
      match simulateFuture fuel b who pieceMove depth with
      | Returns vision =>
          simulateEach fuel b who depth candidates (visions ++ [vision])
      | Throws => Throws
      | NoFuel => NoFuel
      end
  end.

(** [visions.sort((a, b) => b.evaluation - a.evaluation)]: the sort of
    an array is stable, and this comparator puts [a] after [b] exactly
    when the evaluation of [a] is the smaller one; the result is the
    stable arrangement by decreasing evaluation, computed here by
    insertion from the right. *)
Fixpoint insertVision (v : FutureVision) (sorted : list FutureVision)
    : list FutureVision :=
  match sorted with
  | [] => [v]
  | w :: rest =>
      if num_ltb (evaluation v) (evaluation w)
      then w :: insertVision v rest
      else v :: sorted
  end.

Definition sortVisions (visions : list FutureVision) : list FutureVision :=
  foldr insertVision [] visions.

(** [array.slice(0, n)]: a negative [n] counts from the end. *)
Definition slice0 {A} (n : Z) (l : list A) : list A :=
  let len := Z.of_nat (length l) in
  let final := if n <? 0 then Z.max (len + n) 0 else Z.min n len in
  take (Z.to_nat final) l.

Definition getFutures (fuel : nat) (b : Board) (who : Player)
    (numVisions depth : Z) : outcome (list FutureVision) :=
  match getAllValidMoves b who with
  | [] => Returns []
  | candidates =>
      match simulateEach fuel b who depth candidates [] with
      | Returns visions => Returns (slice0 numVisions (sortVisions visions))
      | Throws => Throws
      | NoFuel => NoFuel
      end
  end.

Definition getPredictedResponse (fuel : nat) (b : Board) (playerMove : PieceMove)
    (aiPlayer : Player) (depth : Z) : outcome (option FutureVision) :=
  match execute (clone b) (fromRow playerMove) (fromCol playerMove)
          (move playerMove) with
  | (_, TypeError) => Throws
  | (nb, Completed) =>
      match findBestMove fuel nb aiPlayer depth with
      | Returns None => Returns None
      | Returns (Some aiResponse) =>
          match execute (clone nb) (fromRow (source aiResponse))
                  (fromCol (source aiResponse)) (move (source aiResponse)) with
          | (_, TypeError) => Throws
          | (afterAiMove, Completed) =>
              Returns (Some (mkFutureVision [playerMove; source aiResponse]
                               afterAiMove (score aiResponse)
                               (describeVision (score aiResponse) aiPlayer)))
          end
      | Throws => Throws
      | NoFuel => NoFuel
      end
  end.

(** ** GameState.ts *)

Inductive GameStatus := Active | RedWins | BlackWins | Draw.

(** [checkGameOver] reads the board and the player to move and writes
    the status: the result is the status after the call. *)
Definition checkGameOver (status : GameStatus) (b : Board)
    (currentPlayer : Player) : GameStatus :=
  match getPieces b Red with
  | [] => BlackWins
  | _ :: _ =>
      match getPieces b Black with
      | [] => RedWins
      | _ :: _ =>
          match getAllValidMoves b currentPlayer with
          | [] => match currentPlayer with Red => BlackWins | Black => RedWins end
          | _ :: _ => status
          end
      end
  end.

(** [getValidMoves(board, row, col).filter(m => m.type === MoveType.Capture)],
    the moves offered to a piece that has just captured ([executeMove]
    and [makeAIMove]). *)
Definition captureOptions (b : Board) (row col : Z) : list Move :=
  filter (fun m => moveType m = Capture) (getValidMoves b row col).

(** The multi-jump test of [executeMove]:
    [getCaptureChains(board, row, col).some(c => c.length > 0)]. *)
Definition moreCaptures (fuel : nat) (b : Board) (row col : Z) : outcome bool :=
  match getCaptureChains fuel b row col with
  | Returns chains => Returns (existsb (fun c => 0 <? Z.of_nat (length c)) chains)
  | Throws => Throws
  | NoFuel => NoFuel
  end.

(** The interface [MoveRecord]; its field [player] is [mover], the
    fields [from] and [to] are pairs [(row, col)], and [captured], when
    present, holds the two recorded coordinates. *)
Record MoveRecord := mkMoveRecord {
  mover : Player;
  from : Z * Z;
  to : Z * Z;
  captured : option (option Z * option Z);
  wasPromotion : bool
}.

(** The multi-jump loop of [makeAIMove]: while the piece on
    [currentPos] has a capture, the first one is played on the board
    of the game and recorded.  The state is the board, the history and
    the two positions; [fuel] bounds the iterations. *)
Fixpoint aiJumps (fuel : nat) (aiPlayer : Player) (b : Board)
    (moveHistory : list MoveRecord) (currentPos finalPos : Z * Z)
    : outcome (Board * list MoveRecord * (Z * Z)) :=
  match fuel with
  | O => NoFuel
  | S fuel =>
      match captureOptions b currentPos.1 currentPos.2 with
      | nextCapture :: _ =>
          match execute b currentPos.1 currentPos.2 nextCapture with
          | (_, TypeError) => Throws
          | (nb, Completed) =>
              let moveHistory :=
                moveHistory ++
                  [mkMoveRecord aiPlayer currentPos
                     (toRow nextCapture, toCol nextCapture)
                     (Some (capturedRow nextCapture, capturedCol nextCapture))
                     false] in
              let currentPos := (toRow nextCapture, toCol nextCapture) in
              aiJumps fuel aiPlayer nb moveHistory currentPos currentPos
          end
      | [] => Returns (b, moveHistory, finalPos)
      end
  end.

(** ** Piece objects (Board.ts, Move.ts)

    [setPiece] stores the reference that it is given, and [movePiece]
    promotes the moved piece by assigning to its field [type]: a
    [Piece] object that stands on two squares is promoted on both.
    Here the grid holds references to the [Piece] objects and the
    fields of the objects are kept beside it.  The functions that do
    not create objects are written again over this state; they are the
    definitions above when every cell holds an object of its own. *)

Module Objects.

(** A reference to a [Piece] object. *)
Definition ref := positive.

Record Store := mkStore {
  cells : gmap (Z * Z) ref;
  pieces : ref -> Piece
}.

(** The reference that [getPieceAt] returns. *)
Definition getPieceAt (st : Store) (row col : Z) : option ref :=
  if negb (inRange row col) then None else cells st !! (row, col).

Definition setPiece (st : Store) (row col : Z) (piece : option ref) : Store :=
  if inRange row col
  then mkStore
         match piece with
         | Some p => <[(row, col) := p]> (cells st)
         | None => delete (row, col) (cells st)
         end
         (pieces st)
  else st.

(** [piece.type = PieceType.King] under the promotion check is the
    update of the object [p] to [promoted (pieces st p) toRow]. *)
Definition movePiece (st : Store) (fromRow fromCol toRow toCol : Z)
    : Store * signal :=
  if negb (isRow fromRow) then (st, TypeError)
  else
    match cells st !! (fromRow, fromCol) with
    | None => (st, Completed)
    | Some p =>
        let g := delete (fromRow, fromCol) (cells st) in
        if negb (isRow toRow) then (mkStore g (pieces st), TypeError)
        else (mkStore (<[(toRow, toCol) := p]> g)
                (fun q => if decide (q = p) then promoted (pieces st p) toRow
                          else pieces st q),
              Completed)
    end.

Definition removePiece (st : Store) (row col : Z) : Store :=
  if inRange row col then mkStore (delete (row, col) (cells st)) (pieces st) else st.

(** [Move.execute] *)
Definition execute (st : Store) (fromRow fromCol : Z) (m : Move) : Store * signal :=
  let st :=
    match moveType m, capturedRow m, capturedCol m with
    | Capture, Some cr, Some cc => removePiece st cr cc
    | _, _, _ => st
    end in
  movePiece st fromRow fromCol (toRow m) (toCol m).

(** The fields of the piece that [getPieceAt(row, col)] returns. *)
Definition read (st : Store) (row col : Z) : option Piece :=
  pieces st <$> getPieceAt st row col.

(** The board of the fields: what the move generation and the
    evaluation, which only read the pieces, see of the state. *)
Definition view (st : Store) : Board := mkBoard (pieces st <$> cells st).

(** No [Piece] object stands on two cells, as after [new Board()] and
    after [clone()]. *)
Definition unshared (st : Store) : Prop :=
  forall k1 k2 p, cells st !! k1 = Some p -> cells st !! k2 = Some p -> k1 = k2.

End Objects.

(** * Vocabulary of the properties *)

(** All the pieces of a board are on its 64 squares. *)
Definition onBoard (b : Board) : Prop :=
  forall row col, is_Some (grid b !! (row, col)) -> inRange row col = true.

(** The back rank of the opponent of [who]: the last row in the
    direction [who] advances. *)
Definition farRank (who : Player) : Z :=
  match who with Red => 7 | Black => 0 end.

(** The capture moves and the step moves of a piece, with its square. *)
Definition pieceCaptures (b : Board) : Piece * Z * Z -> list PieceMove :=
  fun '(piece, row, col) =>
    mkPieceMove row col <$> getCaptureMoves b row col (player piece) (type piece).

Definition pieceSteps (b : Board) : Piece * Z * Z -> list PieceMove :=
  fun '(piece, row, col) =>
    mkPieceMove row col <$> getRegularMoves b row col (player piece) (type piece).

(** The capture moves and the step moves of all the pieces of a player,
    in the order of the pieces. *)
Definition capturesOf (b : Board) (who : Player) : list PieceMove :=
  getPieces b who ≫= pieceCaptures b.

Definition stepsOf (b : Board) (who : Player) : list PieceMove :=
  getPieces b who ≫= pieceSteps b.

(** The move is played on a copy of [b] without a throw. *)
Definition completes (b : Board) (pm : PieceMove) : Prop :=
  (execute (clone b) (fromRow pm) (fromCol pm) (move pm)).2 = Completed.

(** The piece on [(row, col)] has no capture. *)
Definition noFurtherCapture (b : Board) (row col : Z) : Prop :=
  exists piece,
    getPieceAt b row col = Some piece /\
    getCaptureMoves b row col (player piece) (type piece) = [].

(** After the chain is played from [(row, col)], the piece has no
    capture from the square it has reached. *)
Definition chainEnds (b : Board) (row col : Z) (chain : list Move) : Prop :=
  let '(b', row', col') := replay b row col chain in
  noFurtherCapture b' row' col'.

(** One call of [findCaptureChains], with the loop body named. *)
Definition descendInto (fuel : nat) (b : Board) (row col : Z) (who : Player)
    (t : PieceType) (currentChain : list Move)
    : Move -> list (list Move) -> outcome (list (list Move)) :=
  fun capture allChains =>
    match execute (clone b) row col capture with
    | (_, TypeError) => Throws
    | (nb, Completed) =>
        let newType :=
          match getPieceAt nb (toRow capture) (toCol capture) with
          | Some newPiece => type newPiece
          | None => t
          end in
        findCaptureChains fuel nb (toRow capture) (toCol capture)
          who newType (currentChain ++ [capture]) allChains
    end.

(** What a capture move from [(fromRow, fromCol)] records: the square
    half way to the destination, which holds a piece of the other side;
    the destination is on the board and empty. *)
Definition jumpRecorded (b : Board) (who : Player) (fromRow fromCol : Z)
    (m : Move) : Prop :=
  moveType m = Capture /\
  capturedRow m = Some ((fromRow + toRow m) / 2) /\
  capturedCol m = Some ((fromCol + toCol m) / 2) /\
  (exists jumped,
     getPieceAt b ((fromRow + toRow m) / 2) ((fromCol + toCol m) / 2) = Some jumped /\
     player jumped <> who) /\
  inRange (toRow m) (toCol m) = true /\
  getPieceAt b (toRow m) (toCol m) = None.

Definition noJump (m : Move) : Prop :=
  moveType m = Step /\ capturedRow m = None /\ capturedCol m = None.

(** Every move of a chain records its jump, on the board the moves
    before it have left. *)
Fixpoint chainRecorded (b : Board) (row col : Z) (chain : list Move) : Prop :=
  match chain with
  | [] => True
  | m :: chain =>
      (exists piece, getPieceAt b row col = Some piece /\
         jumpRecorded b (player piece) row col m) /\
      chainRecorded (execute b row col m).1 (toRow m) (toCol m) chain
  end.

(** The order of the search numbers. *)
Definition num_le (a b : num) : Prop :=
  match a, b with
  | NegInf, _ => True
  | _, PosInf => True
  | Fin x, Fin y => x <= y
  | _, _ => False
  end.

Definition num_lt (a b : num) : Prop :=
  match a, b with
  | _, NegInf => False
  | PosInf, _ => False
  | Fin x, Fin y => x < y
  | _, _ => True
  end.

Definition num_same (a b : num) : Prop :=
  match a, b with
  | NegInf, NegInf => True
  | PosInf, PosInf => True
  | Fin x, Fin y => x = y
  | _, _ => False
  end.

(** The contract of a search with the window [(alpha, beta)] whose
    exact value is [v]: a result inside the window is exact, a result
    at or below [alpha] is an upper bound of [v], a result at or above
    [beta] is a lower bound. *)
Definition post (alpha beta v r : num) : Prop :=
  (num_le r alpha -> num_le v r) /\
  (num_le beta r -> num_le r v) /\
  (num_lt alpha r -> num_lt r beta -> r = v).

(** The forced capture of the test suite: the man on (2, 5) has a
    capture, the man on (2, 1) has none. *)
Definition forcedBoard : Board :=
  setPiece (setPiece (setPiece empty
    2 1 (Some (mkPiece Red Regular)))
    2 5 (Some (mkPiece Red Regular)))
    3 4 (Some (mkPiece Black Regular)).

(** The three men of the double jump of the test suite. *)
Definition doubleJump : Board :=
  setPiece (setPiece (setPiece empty
    2 1 (Some (mkPiece Red Regular)))
    3 2 (Some (mkPiece Black Regular)))
    5 4 (Some (mkPiece Black Regular)).

(** A king of each side in the corner: each side has a move for ever. *)
Definition corner (redRow redCol blackRow blackCol : Z) : Board :=
  setPiece (setPiece empty redRow redCol (Some (mkPiece Red King)))
    blackRow blackCol (Some (mkPiece Black King)).

(** A red man on the last row: it has no move. *)
Definition blocked : Board := setPiece empty 7 0 (Some (mkPiece Red Regular)).

(** Row-major order of the entries of [getPieces]. *)
Definition rowMajor (s1 s2 : Piece * Z * Z) : Prop :=
  s1.1.2 < s2.1.2 \/ (s1.1.2 = s2.1.2 /\ s1.2 < s2.2).

(** Every piece on the 64 squares stands on a dark square. *)
Definition darkOnly (b : Board) : Prop :=
  forall row col, is_Some (getPieceAt b row col) -> (row + col) mod 2 = 1.

(** The move [pm] is the first of [moves] whose value under [value] is
    the largest: the moves before it are worth strictly less, the moves
    after it at most as much. *)
Definition firstBest (value : PieceMove -> Z) (moves : list PieceMove)
    (pm : PieceMove) : Prop :=
  exists before after,
    moves = before ++ pm :: after /\
    (forall pm', pm' ∈ before -> value pm' < value pm) /\
    (forall pm', pm' ∈ after -> value pm' <= value pm).

(** The state of the loop of [findBestMove] after the moves [seen]:
    [alpha] is the score of the best result, which is the exact value
    of the first best of the moves seen. *)
Definition bestSoFar (value : Board -> Z) (b : Board) (seen : list PieceMove)
    (best : option SearchResult) (alpha : num) : Prop :=
  match best with
  | None => alpha = NegInf /\ seen = []
  | Some res =>
      alpha = score res /\
      score res = Fin (value (play b (source res))) /\
      firstBest (fun pm => value (play b pm)) seen (source res)
  end.

(** A line of play from [b] with [who] to move: every move is a legal
    move of the side to move on the board the moves before it have
    left, and [final] is the board after the last one. *)
Fixpoint legalLine (b : Board) (who : Player) (line : list PieceMove)
    (final : Board) : Prop :=
  match line with
  | [] => final = b
  | pm :: line =>
      pm ∈ getAllValidMoves b who /\
      legalLine (execute b (fromRow pm) (fromCol pm) (move pm)).1
        (opponentOf who) line final
  end.

(** The side to move after [n] moves of a line that [who] started. *)
Definition sideAfter (who : Player) (n : nat) : Player :=
  if Nat.even n then who else opponentOf who.

(** The order of the visions after the sort: decreasing evaluation. *)
Definition betterFirst (v w : FutureVision) : Prop :=
  num_le (evaluation w) (evaluation v).

(** The chain that takes, at every jump, the first capture offered to
    the piece, and ends where none is offered. *)
Fixpoint greedyChain (b : Board) (row col : Z) (chain : list Move) : Prop :=
  match chain with
  | [] => captureOptions b row col = []
  | m :: chain =>
      (exists others, captureOptions b row col = m :: others) /\
      greedyChain (execute b row col m).1 (toRow m) (toCol m) chain
  end.

(** The records that the multi-jump loop of [makeAIMove] pushes for the
    jumps of a chain from [pos]. *)
Fixpoint jumpRecords (who : Player) (pos : Z * Z) (chain : list Move)
    : list MoveRecord :=
  match chain with
  | [] => []
  | m :: chain =>
      mkMoveRecord who pos (toRow m, toCol m)
        (Some (capturedRow m, capturedCol m)) false
      :: jumpRecords who (toRow m, toCol m) chain
  end.

(** One [Piece] object on two squares: [Board.empty()] after
    [const p = { player: Player.Red, type: PieceType.Regular }],
    [setPiece(6, 1, p)] and [setPiece(2, 1, p)]. *)
Definition sharedPiece : Objects.Store :=
  Objects.setPiece
    (Objects.setPiece
       (Objects.mkStore ∅ (fun _ => mkPiece Red Regular)) 6 1 (Some 1%positive))
    2 1 (Some 1%positive).

(** The same object on one square only. *)
Definition onePiece : Objects.Store :=
  Objects.setPiece
    (Objects.mkStore ∅ (fun _ => mkPiece Red Regular)) 6 1 (Some 1%positive).

(** * Properties *)

(** ** Ranges and coordinates *)

Lemma elem_of_upto (lo hi x : Z) : x ∈ upto lo hi <-> lo <= x < hi.
Proof. unfold upto. rewrite elem_of_seqZ. lia. Qed.

Lemma inRange_true (row col : Z) :
  inRange row col = true <-> (0 <= row < 8 /\ 0 <= col < 8).
Proof. unfold inRange. rewrite !andb_true_iff, !Z.leb_le, !Z.ltb_lt. lia. Qed.

Lemma inRange_false (row col : Z) :
  inRange row col = false <-> ~ (0 <= row < 8 /\ 0 <= col < 8).
Proof. rewrite <- inRange_true. destruct (inRange row col); intuition congruence. Qed.

Lemma isRow_true (row : Z) : isRow row = true <-> 0 <= row < 8.
Proof. unfold isRow. rewrite andb_true_iff, Z.leb_le, Z.ltb_lt. lia. Qed.

Lemma isValidPosition_inRange (row col : Z) :
  isValidPosition row col = inRange row col.
Proof. reflexivity. Qed.

Lemma inRange_isRow (row col : Z) : inRange row col = true -> isRow row = true.
Proof. rewrite inRange_true, isRow_true. lia. Qed.

(** ** The grid of a copy *)

Section CopyLoops.
Variable src : gmap (Z * Z) Piece.

Lemma copyCell_lookup (row col : Z) (g : gmap (Z * Z) Piece) (r c : Z) :
  copyCell src row g col !! (r, c) =
    if decide (r = row /\ c = col /\ is_Some (src !! (r, c)))
    then src !! (r, c) else g !! (r, c).
Proof.
  unfold copyCell. destruct (src !! (row, col)) as [p|] eqn:Hp.
  - destruct (decide ((row, col) = (r, c))) as [E|E].
    + injection E as <- <-. rewrite lookup_insert_eq, Hp.
      rewrite decide_True; [done|]. eauto.
    + rewrite lookup_insert_ne by done.
      rewrite decide_False; [done|]. intros (-> & -> & _). done.
  - case_decide as H; [|done]. destruct H as (-> & -> & [? H]). congruence.
Qed.

Lemma copyRow_lookup (row : Z) (cols : list Z) (g : gmap (Z * Z) Piece) (r c : Z) :
  foldl (copyCell src row) g cols !! (r, c) =
    if decide (r = row /\ c ∈ cols /\ is_Some (src !! (r, c)))
    then src !! (r, c) else g !! (r, c).
Proof.
  revert g. induction cols as [|col cols IH]; intros g; simpl.
  - case_decide as H; [|done]. destruct H as (_ & H & _). inversion H.
  - rewrite IH, copyCell_lookup.
    repeat match goal with
           | |- context [decide ?P] => destruct (decide P)
           end; try done; exfalso;
      rewrite elem_of_cons in *; intuition (subst; tauto).
Qed.

Lemma copyRows_lookup (rows cols : list Z) (g : gmap (Z * Z) Piece) (r c : Z) :
  foldl (fun g row => foldl (copyCell src row) g cols) g rows !! (r, c) =
    if decide (r ∈ rows /\ c ∈ cols /\ is_Some (src !! (r, c)))
    then src !! (r, c) else g !! (r, c).
Proof.
  revert g. induction rows as [|row rows IH]; intros g; simpl.
  - done.
  - rewrite IH, copyRow_lookup.
    repeat match goal with
           | |- context [decide ?P] => destruct (decide P)
           end; try done; exfalso;
      rewrite elem_of_cons in *; intuition (subst; tauto).
Qed.
End CopyLoops.

Lemma clone_lookup (b : Board) (row col : Z) :
  grid (clone b) !! (row, col) =
    if inRange row col then grid b !! (row, col) else None.
Proof.
  unfold clone; cbn [grid]. rewrite copyRows_lookup, lookup_empty.
  destruct (inRange row col) eqn:E.
  - apply inRange_true in E. case_decide as H; [done|].
    destruct (grid b !! (row, col)) eqn:Hg; [|done].
    exfalso. apply H. rewrite !elem_of_upto. destruct E. eauto.
  - apply inRange_false in E. case_decide as H; [|done].
    exfalso. apply E. rewrite !elem_of_upto in H. lia.
Qed.

Lemma getPieceAt_clone (b : Board) (row col : Z) :
  getPieceAt (clone b) row col = getPieceAt b row col.
Proof.
  unfold getPieceAt. rewrite clone_lookup. by destruct (inRange row col).
Qed.

Lemma clone_onBoard (b : Board) : onBoard (clone b).
Proof.
  intros row col. rewrite clone_lookup.
  destruct (inRange row col); [done|]. by intros [? ?].
Qed.

Lemma Board_eq (b1 b2 : Board) : grid b1 = grid b2 -> b1 = b2.
Proof. destruct b1, b2; simpl; congruence. Qed.

Lemma clone_id (b : Board) : onBoard b -> clone b = b.
Proof.
  intros Hb. apply Board_eq, map_eq. intros [row col].
  rewrite clone_lookup. destruct (inRange row col) eqn:E; [done|].
  destruct (grid b !! (row, col)) eqn:Hg; [|done].
  rewrite Hb in E; [done|eauto].
Qed.

Lemma getPieceAt_Some (b : Board) (row col : Z) (piece : Piece) :
  getPieceAt b row col = Some piece <->
  inRange row col = true /\ grid b !! (row, col) = Some piece.
Proof.
  unfold getPieceAt. destruct (inRange row col); simpl; intuition congruence.
Qed.

Lemma elem_of_getPieces (b : Board) (who : Player) (piece : Piece) (row col : Z) :
  (piece, row, col) ∈ getPieces b who <->
  getPieceAt b row col = Some piece /\ player piece = who.
Proof.
  unfold getPieces. rewrite getPieceAt_Some, inRange_true, list_elem_of_bind.
  split.
  - intros (r & Hin & Hr). apply list_elem_of_bind in Hin as (c & Hin & Hc).
    apply elem_of_upto in Hr, Hc.
    destruct (grid b !! (r, c)) as [p|] eqn:Hp; [|inversion Hin].
    case_decide; [|inversion Hin].
    apply list_elem_of_singleton in Hin. inversion Hin; subst. eauto.
  - intros [[[Hr Hc] Hp] Hw]. exists row.
    split; [|by apply elem_of_upto]. apply list_elem_of_bind. exists col.
    split; [|by apply elem_of_upto]. rewrite Hp, decide_True by done.
    by apply list_elem_of_singleton.
Qed.

(** ** Board writes *)

Lemma setPiece_outside (b : Board) (row col : Z) (piece : option Piece) :
  inRange row col = false -> setPiece b row col piece = b.
Proof. unfold setPiece. by intros ->. Qed.

Lemma removePiece_outside (b : Board) (row col : Z) :
  inRange row col = false -> removePiece b row col = b.
Proof. unfold removePiece. by intros ->. Qed.

Lemma getPieceAt_outside (b : Board) (row col : Z) :
  inRange row col = false -> getPieceAt b row col = None.
Proof. unfold getPieceAt. by intros ->. Qed.

(** [movePiece] from a row that does not exist throws before it
    changes anything. *)
Lemma movePiece_from_outside (b : Board) (fromRow fromCol toRow toCol : Z) :
  isRow fromRow = false ->
  movePiece b fromRow fromCol toRow toCol = (b, TypeError).
Proof. unfold movePiece. by intros ->. Qed.

(** [movePiece] of a piece to a row that does not exist throws after it
    has cleared the source square. *)
Lemma movePiece_to_outside (b : Board) (fromRow fromCol toRow toCol : Z)
    (piece : Piece) :
  getPieceAt b fromRow fromCol = Some piece ->
  isRow toRow = false ->
  movePiece b fromRow fromCol toRow toCol =
    (removePiece b fromRow fromCol, TypeError).
Proof.
  intros [Hr Hp]%getPieceAt_Some Hto. unfold movePiece, removePiece.
  rewrite (inRange_isRow _ _ Hr), Hp, Hto, Hr. done.
Qed.

(** C5 (the code departs from the claim): [setPiece] and [removePiece]
    guard their coordinates ([setPiece_outside], [removePiece_outside]),
    [movePiece] does not.  On the starting board,
    [movePiece(0, 1, 8, 0)] clears the source square and then throws a
    [TypeError]; [movePiece(-1, 0, 0, 1)] throws at once; and
    [movePiece(0, 1, 1, 8)] returns normally with the piece gone from
    the 64 squares. *)
Theorem movePiece_unguarded :
  getPieceAt newBoard 0 1 = Some (mkPiece Red Regular) /\
  inRange 8 0 = false /\
  (movePiece newBoard 0 1 8 0).2 = TypeError /\
  getPieceAt (movePiece newBoard 0 1 8 0).1 0 1 = None /\
  inRange (-1) 0 = false /\
  (movePiece newBoard (-1) 0 0 1).2 = TypeError /\
  inRange 1 8 = false /\
  (movePiece newBoard 0 1 1 8).2 = Completed /\
  getPieceAt (movePiece newBoard 0 1 1 8).1 0 1 = None /\
  getPieces (movePiece newBoard 0 1 1 8).1 Red <> getPieces newBoard Red.
Proof. repeat split; try (vm_compute; reflexivity). vm_compute. discriminate. Qed.

(** ** Promotion *)

Lemma promoted_player (piece : Piece) (row : Z) :
  player (promoted piece row) = player piece.
Proof.
  unfold promoted. destruct piece as [[] []]; simpl; try done;
    by destruct (row =? _).
Qed.

Lemma promoted_type (piece : Piece) (row : Z) :
  type (promoted piece row) =
    if decide (type piece = Regular /\ row = farRank (player piece))
    then King else type piece.
Proof.
  unfold promoted, farRank. destruct piece as [[] []]; simpl; try done.
  - destruct (Z.eqb_spec row 7); case_decide as H; try done;
      [exfalso; by apply H | by destruct H].
  - destruct (Z.eqb_spec row 0); case_decide as H; try done;
      [exfalso; by apply H | by destruct H].
Qed.

Lemma movePiece_lands (b : Board) (r c r' c' : Z) (piece : Piece) :
  getPieceAt b r c = Some piece ->
  inRange r' c' = true ->
  movePiece b r c r' c' =
    (mkBoard (<[(r', c') := promoted piece r']> (delete (r, c) (grid b))), Completed).
Proof.
  intros [Hr Hp]%getPieceAt_Some Hr'. unfold movePiece.
  rewrite (inRange_isRow _ _ Hr), (inRange_isRow _ _ Hr'), Hp. done.
Qed.

Lemma getCaptureMoves_inv (b : Board) (row col : Z) (who : Player)
    (t : PieceType) (m : Move) :
  m ∈ getCaptureMoves b row col who t ->
  exists dr dc jumped,
    (dr, dc) ∈ getDirections who t /\
    m = mkMove (row + 2 * dr) (col + 2 * dc) Capture
          (Some (row + dr)) (Some (col + dc)) /\
    inRange (row + 2 * dr) (col + 2 * dc) = true /\
    getPieceAt b (row + dr) (col + dc) = Some jumped /\
    player jumped <> who /\
    getPieceAt b (row + 2 * dr) (col + 2 * dc) = None.
Proof.
  unfold getCaptureMoves. intros ([dr dc] & Hm & Hd)%list_elem_of_bind.
  simpl in Hm. rewrite isValidPosition_inRange in Hm.
  destruct (inRange (row + 2 * dr) (col + 2 * dc)) eqn:Hland; simpl in Hm;
    [|inversion Hm].
  destruct (getPieceAt b (row + dr) (col + dc)) as [jumped|] eqn:Hj;
    [|inversion Hm].
  destruct (getPieceAt b (row + 2 * dr) (col + 2 * dc)) eqn:Hl; [inversion Hm|].
  case_decide; [|inversion Hm].
  apply list_elem_of_singleton in Hm. exists dr, dc, jumped. done.
Qed.

Lemma getRegularMoves_inv (b : Board) (row col : Z) (who : Player)
    (t : PieceType) (m : Move) :
  m ∈ getRegularMoves b row col who t ->
  exists dr dc,
    (dr, dc) ∈ getDirections who t /\
    m = mkMove (row + dr) (col + dc) Step None None /\
    inRange (row + dr) (col + dc) = true /\
    getPieceAt b (row + dr) (col + dc) = None.
Proof.
  unfold getRegularMoves. intros ([dr dc] & Hm & Hd)%list_elem_of_bind.
  simpl in Hm. rewrite isValidPosition_inRange in Hm.
  destruct (inRange (row + dr) (col + dc)) eqn:Hland; simpl in Hm;
    [|inversion Hm].
  destruct (getPieceAt b (row + dr) (col + dc)) eqn:Hl; simpl in Hm.
  - inversion Hm.
  - apply list_elem_of_singleton in Hm. exists dr, dc. done.
Qed.

Lemma getDirections_unit (who : Player) (t : PieceType) (dr dc : Z) :
  (dr, dc) ∈ getDirections who t ->
  (dr = 1 \/ dr = -1) /\ (dc = 1 \/ dc = -1).
Proof.
  destruct who, t; simpl; unfold DIRECTIONS;
    rewrite ?elem_of_cons, elem_of_nil; intros H;
    repeat (destruct H as [H|H]); try done; inversion H; lia.
Qed.

Lemma getValidMoves_inv (b : Board) (row col : Z) (m : Move) :
  m ∈ getValidMoves b row col ->
  exists piece, getPieceAt b row col = Some piece /\
    (m ∈ getCaptureMoves b row col (player piece) (type piece) \/
     m ∈ getRegularMoves b row col (player piece) (type piece)).
Proof.
  unfold getValidMoves. destruct (getPieceAt b row col) as [piece|]; [|inversion 1].
  intros Hm. exists piece. split; [done|].
  destruct (getCaptureMoves b row col (player piece) (type piece)); [right|left]; done.
Qed.

(** The board and the landing square of a validator move. *)
Lemma execute_valid (b : Board) (row col : Z) (piece : Piece) (m : Move) :
  getPieceAt b row col = Some piece ->
  m ∈ getCaptureMoves b row col (player piece) (type piece) \/
  m ∈ getRegularMoves b row col (player piece) (type piece) ->
  inRange (toRow m) (toCol m) = true /\
  exists g,
    execute b row col m =
      (mkBoard (<[(toRow m, toCol m) := promoted piece (toRow m)]> (delete (row, col) g)),
       Completed) /\
    g = match capturedRow m, capturedCol m with
        | Some cr, Some cc => delete (cr, cc) (grid b)
        | _, _ => grid b
        end.
Proof.
  intros Hp [Hm|Hm].
  - apply getCaptureMoves_inv in Hm
      as (dr & dc & jumped & Hd & -> & Hland & Hj & Hw & Hl).
    simpl. split; [done|]. eexists. split; [|reflexivity].
    unfold execute; simpl.
    apply getPieceAt_Some in Hj as [Hjr Hj]. unfold removePiece. rewrite Hjr.
    apply getDirections_unit in Hd.
    rewrite (movePiece_lands _ _ _ _ _ piece); [done| |done].
    apply getPieceAt_Some in Hp as [Hr Hp]. apply getPieceAt_Some. split; [done|].
    simpl. rewrite lookup_delete_ne; [done|]. intros [=]. lia.
  - apply getRegularMoves_inv in Hm as (dr & dc & Hd & -> & Hland & Hl).
    simpl. split; [done|]. eexists. split; [|reflexivity].
    unfold execute; simpl. by rewrite (movePiece_lands _ _ _ _ _ piece).
Qed.

(** C6: a move application that lands a regular piece on its far rank
    (row 7 for Red, row 0 for Black) leaves a king of the same player on
    the destination; landing on any other row leaves the rank as it
    was, and a king stays a king.  This holds for [movePiece] with any
    destination on the board, and for [Move.execute] with any move the
    validator generates for the square. *)
Theorem promotion_on_landing (b : Board) (fromRow fromCol : Z) (piece : Piece) :
  getPieceAt b fromRow fromCol = Some piece ->
  let landed (toRow : Z) : Piece :=
    mkPiece (player piece)
      (if decide (type piece = Regular /\ toRow = farRank (player piece))
       then King else type piece) in
  (forall toRow toCol,
     inRange toRow toCol = true ->
     (movePiece b fromRow fromCol toRow toCol).2 = Completed /\
     getPieceAt (movePiece b fromRow fromCol toRow toCol).1 toRow toCol =
       Some (landed toRow)) /\
  (forall m,
     m ∈ getValidMoves b fromRow fromCol ->
     (execute b fromRow fromCol m).2 = Completed /\
     getPieceAt (execute b fromRow fromCol m).1 (toRow m) (toCol m) =
       Some (landed (toRow m))) /\
  (forall toRow, type piece = King -> type (landed toRow) = King) /\
  (forall toRow, type piece = Regular ->
     (toRow = farRank (player piece) -> type (landed toRow) = King) /\
     (toRow <> farRank (player piece) -> type (landed toRow) = Regular)).
Proof.
  intros Hp landed.
  assert (Hl : forall r, promoted piece r = landed r).
  { intros r. unfold landed. rewrite <- promoted_type, <- (promoted_player piece r).
    by destruct (promoted piece r). }
  repeat split.
  - by rewrite (movePiece_lands _ _ _ _ _ piece).
  - rewrite (movePiece_lands _ _ _ _ _ piece) by done. simpl.
    apply getPieceAt_Some. split; [done|]. simpl. by rewrite lookup_insert_eq, Hl.
  - apply getValidMoves_inv in H as (p & Hp' & Hm).
    assert (p = piece) as -> by congruence.
    destruct (execute_valid _ _ _ _ _ Hp Hm) as (_ & g & -> & _). done.
  - apply getValidMoves_inv in H as (p & Hp' & Hm).
    assert (p = piece) as -> by congruence.
    destruct (execute_valid _ _ _ _ _ Hp Hm) as (Hr & g & -> & _). simpl.
    apply getPieceAt_Some. split; [done|]. simpl. by rewrite lookup_insert_eq, Hl.
  - intros Hk. unfold landed; simpl. case_decide as H; [done|done].
  - intros Hr. unfold landed; simpl. rewrite decide_True; done.
  - intros Hr. unfold landed; simpl. rewrite decide_False; [done|]. by intros [_ ?].
Qed.

Lemma promotion_on_landing_witness :
  getPieceAt (movePiece (setPiece empty 6 1 (Some (mkPiece Red Regular))) 6 1 7 2).1 7 2
    = Some (mkPiece Red King).
Proof.
  pose proof (promotion_on_landing
    (setPiece empty 6 1 (Some (mkPiece Red Regular))) 6 1 (mkPiece Red Regular)
    eq_refl) as (H & _).
  destruct (H 7 2 eq_refl) as [_ H']. exact H'.
Defined.

(** ** The evaluator *)

(** The doubled distance to the centre is even, so that halving it in
    [evaluatePiece] is exact. *)
Lemma centerDistance2_even (row col : Z) :
  2 * (centerDistance2 row col / 2) = centerDistance2 row col.
Proof.
  unfold centerDistance2.
  assert (H : exists k, Z.abs (7 - 2 * col) + Z.abs (7 - 2 * row) = k * 2).
  { destruct (Z.abs_spec (7 - 2 * col)) as [[_ ->]|[_ ->]],
      (Z.abs_spec (7 - 2 * row)) as [[_ ->]|[_ ->]]; eexists;
      [instantiate (1 := 7 - col - row) | instantiate (1 := row - col)
      | instantiate (1 := col - row) | instantiate (1 := col + row - 7)]; lia. }
  destruct H as [k ->]. rewrite Z.div_mul by lia. lia.
Qed.

(** C9: the evaluation of the starting position is 0 for both players. *)
Theorem evaluate_start (who : Player) : evaluate newBoard who = 0.
Proof. destruct who; vm_compute; reflexivity. Qed.

(** C7 as stated fails on a board where both sides have no piece: the
    check of the opponent comes first. *)
Lemma evaluate_empty_board :
  getPieces empty Red = [] /\ evaluate empty Red <> - WIN_SCORE.
Proof. split; [reflexivity|]. vm_compute. discriminate. Qed.

(** C7 (amended): the evaluation is [WIN_SCORE] when the opponent has
    no piece, and [- WIN_SCORE] when the player has no piece and the
    opponent has one; both whatever the valuation of the pieces is,
    that is, before any of it is summed. *)
Theorem evaluate_terminal (valuation : Piece -> Z -> Z -> Player -> Z)
    (b : Board) (who : Player) :
  (getPieces b (opponentOf who) = [] ->
     evaluateWith valuation b who = WIN_SCORE) /\
  (getPieces b who = [] -> getPieces b (opponentOf who) <> [] ->
     evaluateWith valuation b who = - WIN_SCORE).
Proof.
  unfold evaluateWith. split.
  - by intros ->.
  - intros -> H. by destruct (getPieces b (opponentOf who)).
Qed.

Lemma evaluate_terminal_witness :
  evaluate (setPiece empty 3 2 (Some (mkPiece Red Regular))) Red = WIN_SCORE /\
  evaluate (setPiece empty 3 2 (Some (mkPiece Red Regular))) Black = - WIN_SCORE.
Proof.
  split.
  - apply (proj1 (evaluate_terminal evaluatePiece _ Red)). reflexivity.
  - apply (proj2 (evaluate_terminal evaluatePiece _ Black)).
    + reflexivity.
    + vm_compute. discriminate.
Defined.

(** ** Move generation *)

Lemma getCaptureMoves_intro (b : Board) (row col : Z) (who : Player)
    (t : PieceType) (dr dc : Z) (jumped : Piece) :
  (dr, dc) ∈ getDirections who t ->
  inRange (row + 2 * dr) (col + 2 * dc) = true ->
  getPieceAt b (row + dr) (col + dc) = Some jumped ->
  player jumped <> who ->
  getPieceAt b (row + 2 * dr) (col + 2 * dc) = None ->
  mkMove (row + 2 * dr) (col + 2 * dc) Capture (Some (row + dr)) (Some (col + dc))
    ∈ getCaptureMoves b row col who t.
Proof.
  intros Hd Hland Hj Hw Hl. unfold getCaptureMoves.
  apply list_elem_of_bind. exists (dr, dc). split; [|done]. simpl.
  rewrite isValidPosition_inRange, Hland, Hj, Hl. simpl.
  rewrite decide_True by done. by apply list_elem_of_singleton.
Qed.

Lemma getRegularMoves_intro (b : Board) (row col : Z) (who : Player)
    (t : PieceType) (dr dc : Z) :
  (dr, dc) ∈ getDirections who t ->
  inRange (row + dr) (col + dc) = true ->
  getPieceAt b (row + dr) (col + dc) = None ->
  mkMove (row + dr) (col + dc) Step None None ∈ getRegularMoves b row col who t.
Proof.
  intros Hd Hland Hl. unfold getRegularMoves.
  apply list_elem_of_bind. exists (dr, dc). split; [|done]. simpl.
  rewrite isValidPosition_inRange, Hland, Hl. simpl.
  by apply list_elem_of_singleton.
Qed.

Lemma capturePass_from (b : Board) (pieces : list (Piece * Z * Z))
    (allMoves : list PieceMove) (hasCapture : bool) :
  foldl (fun (st : list PieceMove * bool) '(piece, row, col) =>
    let captures := getCaptureMoves b row col (player piece) (type piece) in
    match captures with
    | _ :: _ => (st.1 ++ (mkPieceMove row col <$> captures), true)
    | [] => st
    end) (allMoves, hasCapture) pieces =
  (allMoves ++ (pieces ≫= pieceCaptures b),
   hasCapture || bool_decide (pieces ≫= pieceCaptures b <> [])).
Proof.
  revert allMoves hasCapture.
  induction pieces as [|[[piece row] col] pieces IH]; intros allMoves hasCapture.
  - simpl. by rewrite app_nil_r, orb_false_r.
  - cbn [foldl mbind list_bind].
    assert (Hc : pieceCaptures b (piece, row, col) =
                 mkPieceMove row col <$>
                   getCaptureMoves b row col (player piece) (type piece)) by done.
    rewrite Hc.
    destruct (getCaptureMoves b row col (player piece) (type piece)) as [|m ms];
      rewrite IH; [done|].
    cbn [fst]. rewrite <- app_assoc. f_equal. by rewrite orb_true_r.
Qed.

Lemma stepPass_from (b : Board) (pieces : list (Piece * Z * Z))
    (allMoves : list PieceMove) :
  stepPass b pieces allMoves = allMoves ++ (pieces ≫= pieceSteps b).
Proof.
  unfold stepPass. revert allMoves.
  induction pieces as [|[[piece row] col] pieces IH]; intros allMoves.
  - simpl. by rewrite app_nil_r.
  - cbn [foldl mbind list_bind]. rewrite IH, <- app_assoc. done.
Qed.

Lemma getAllValidMoves_eq (b : Board) (who : Player) :
  getAllValidMoves b who =
    match capturesOf b who with
    | [] => stepsOf b who
    | captures => captures
    end.
Proof.
  unfold getAllValidMoves, capturePass. rewrite capturePass_from. simpl.
  fold (capturesOf b who).
  destruct (capturesOf b who) eqn:E.
  - simpl. rewrite stepPass_from. done.
  - done.
Qed.

Lemma elem_of_capturesOf (b : Board) (who : Player) (pm : PieceMove) :
  pm ∈ capturesOf b who <->
  exists piece,
    getPieceAt b (fromRow pm) (fromCol pm) = Some piece /\ player piece = who /\
    move pm ∈ getCaptureMoves b (fromRow pm) (fromCol pm) (player piece) (type piece).
Proof.
  unfold capturesOf. rewrite list_elem_of_bind. split.
  - intros ([[piece row] col] & Hpm & [Hp Hw]%elem_of_getPieces).
    apply list_elem_of_fmap in Hpm as (m & -> & Hm). simpl. eauto.
  - intros (piece & Hp & Hw & Hm). exists (piece, fromRow pm, fromCol pm).
    split; [|by apply elem_of_getPieces].
    apply list_elem_of_fmap. exists (move pm). by destruct pm.
Qed.

Lemma elem_of_stepsOf (b : Board) (who : Player) (pm : PieceMove) :
  pm ∈ stepsOf b who <->
  exists piece,
    getPieceAt b (fromRow pm) (fromCol pm) = Some piece /\ player piece = who /\
    move pm ∈ getRegularMoves b (fromRow pm) (fromCol pm) (player piece) (type piece).
Proof.
  unfold stepsOf. rewrite list_elem_of_bind. split.
  - intros ([[piece row] col] & Hpm & [Hp Hw]%elem_of_getPieces).
    apply list_elem_of_fmap in Hpm as (m & -> & Hm). simpl. eauto.
  - intros (piece & Hp & Hw & Hm). exists (piece, fromRow pm, fromCol pm).
    split; [|by apply elem_of_getPieces].
    apply list_elem_of_fmap. exists (move pm). by destruct pm.
Qed.

Lemma capturesOf_nil (b : Board) (who : Player) :
  capturesOf b who = [] <->
  forall piece row col,
    getPieceAt b row col = Some piece -> player piece = who ->
    getCaptureMoves b row col (player piece) (type piece) = [].
Proof.
  split.
  - intros E piece row col Hp Hw.
    destruct (getCaptureMoves b row col (player piece) (type piece)) as [|m ms] eqn:Hm;
      [done|].
    assert (H : mkPieceMove row col m ∈ capturesOf b who).
    { apply elem_of_capturesOf. exists piece. simpl. rewrite Hm.
      repeat split; [done..|left]. }
    rewrite E in H. inversion H.
  - intros H. destruct (capturesOf b who) as [|pm pms] eqn:E; [done|].
    assert (Hin : pm ∈ capturesOf b who) by (rewrite E; left).
    apply elem_of_capturesOf in Hin as (piece & Hp & Hw & Hm).
    rewrite (H _ _ _ Hp Hw) in Hm. inversion Hm.
Qed.

(** The moves of [getAllValidMoves] are moves of a piece of the player,
    generated for its square. *)
Lemma getAllValidMoves_inv (b : Board) (who : Player) (pm : PieceMove) :
  pm ∈ getAllValidMoves b who ->
  exists piece,
    getPieceAt b (fromRow pm) (fromCol pm) = Some piece /\ player piece = who /\
    (move pm ∈ getCaptureMoves b (fromRow pm) (fromCol pm) (player piece) (type piece) \/
     move pm ∈ getRegularMoves b (fromRow pm) (fromCol pm) (player piece) (type piece)).
Proof.
  rewrite getAllValidMoves_eq. destruct (capturesOf b who) as [|c cs] eqn:E.
  - intros (piece & ? & ? & ?)%elem_of_stepsOf. eauto 6.
  - rewrite <- E. intros (piece & ? & ? & ?)%elem_of_capturesOf. eauto 6.
Qed.

(** C2: the forced capture is decided over all the pieces of the player.
    If some piece of the player has a capture, the result is the list of
    the captures of all its pieces (those of the pieces that have any),
    and every move in it is a capture; if no piece has one, the result
    is the list of the steps of all its pieces. *)
Theorem forced_capture_global (b : Board) (who : Player) :
  ((exists piece row col,
      getPieceAt b row col = Some piece /\ player piece = who /\
      getCaptureMoves b row col (player piece) (type piece) <> []) ->
   getAllValidMoves b who = capturesOf b who /\
   (forall pm, pm ∈ getAllValidMoves b who <->
      exists piece,
        getPieceAt b (fromRow pm) (fromCol pm) = Some piece /\ player piece = who /\
        move pm ∈ getCaptureMoves b (fromRow pm) (fromCol pm) (player piece) (type piece)) /\
   (forall pm, pm ∈ getAllValidMoves b who -> moveType (move pm) = Capture)) /\
  ((forall piece row col,
      getPieceAt b row col = Some piece -> player piece = who ->
      getCaptureMoves b row col (player piece) (type piece) = []) ->
   getAllValidMoves b who = stepsOf b who /\
   (forall pm, pm ∈ getAllValidMoves b who <->
      exists piece,
        getPieceAt b (fromRow pm) (fromCol pm) = Some piece /\ player piece = who /\
        move pm ∈ getRegularMoves b (fromRow pm) (fromCol pm) (player piece) (type piece)) /\
   (forall pm, pm ∈ getAllValidMoves b who -> moveType (move pm) = Step)).
Proof.
  split.
  - intros (piece & row & col & Hp & Hw & Hc).
    assert (E : getAllValidMoves b who = capturesOf b who).
    { rewrite getAllValidMoves_eq.
      destruct (capturesOf b who) eqn:Hnil; [|done].
      exfalso. apply Hc. by eapply capturesOf_nil. }
    rewrite E. split; [done|]. split.
    + apply elem_of_capturesOf.
    + intros pm (p & _ & _ & Hm)%elem_of_capturesOf.
      apply getCaptureMoves_inv in Hm as (? & ? & ? & _ & -> & _). done.
  - intros Hnone%capturesOf_nil.
    assert (E : getAllValidMoves b who = stepsOf b who).
    { rewrite getAllValidMoves_eq. by rewrite Hnone. }
    rewrite E. split; [done|]. split.
    + apply elem_of_stepsOf.
    + intros pm (p & _ & _ & Hm)%elem_of_stepsOf.
      apply getRegularMoves_inv in Hm as (? & ? & _ & -> & _). done.
Qed.

Lemma forced_capture_global_witness :
  getAllValidMoves forcedBoard Red = capturesOf forcedBoard Red /\
  getAllValidMoves empty Red = stepsOf empty Red.
Proof.
  split.
  - apply (proj1 (forced_capture_global forcedBoard Red)).
    exists (mkPiece Red Regular), 2, 5. repeat split. vm_compute. discriminate.
  - apply (proj2 (forced_capture_global empty Red)).
    intros piece row col Hp. unfold getPieceAt in Hp.
    destruct (negb _) in Hp; [discriminate|]. simpl in Hp.
    rewrite lookup_empty in Hp. discriminate.
Defined.

(** ** Directions *)

Lemma getDirections_regular (who : Player) (dr dc : Z) :
  (dr, dc) ∈ getDirections who Regular ->
  dr = match who with Red => 1 | Black => -1 end.
Proof.
  destruct who; simpl; rewrite ?elem_of_cons, elem_of_nil; intros H;
    repeat (destruct H as [H|H]); try done; by inversion H.
Qed.

Lemma getDirections_king (who : Player) (dr dc : Z) :
  (dr = -1 \/ dr = 1) -> (dc = -1 \/ dc = 1) ->
  (dr, dc) ∈ getDirections who King.
Proof.
  intros [-> | ->] [-> | ->]; simpl; unfold DIRECTIONS;
    rewrite ?elem_of_cons; auto 6.
Qed.

(** C4: for a regular piece, every move the validator generates (steps,
    captures, the moves of [getValidMoves] for its square and the moves
    of [getAllValidMoves] from its square) goes forward: to a larger row
    for Red, to a smaller row for Black.  For a king, each of the four
    diagonals is among its directions, and the step and the capture
    along it are generated whenever the squares allow them. *)
Theorem directions_by_rank (b : Board) (row col : Z) (piece : Piece) :
  getPieceAt b row col = Some piece ->
  (type piece = Regular ->
   forall m,
     m ∈ getRegularMoves b row col (player piece) (type piece) \/
     m ∈ getCaptureMoves b row col (player piece) (type piece) \/
     m ∈ getValidMoves b row col \/
     mkPieceMove row col m ∈ getAllValidMoves b (player piece) ->
     match player piece with
     | Red => row < toRow m
     | Black => toRow m < row
     end) /\
  (type piece = King ->
   forall dr dc, (dr = -1 \/ dr = 1) -> (dc = -1 \/ dc = 1) ->
     (dr, dc) ∈ getDirections (player piece) (type piece) /\
     (inRange (row + dr) (col + dc) = true ->
      getPieceAt b (row + dr) (col + dc) = None ->
      mkMove (row + dr) (col + dc) Step None None
        ∈ getRegularMoves b row col (player piece) (type piece)) /\
     (forall jumped,
        inRange (row + 2 * dr) (col + 2 * dc) = true ->
        getPieceAt b (row + dr) (col + dc) = Some jumped ->
        player jumped <> player piece ->
        getPieceAt b (row + 2 * dr) (col + 2 * dc) = None ->
        mkMove (row + 2 * dr) (col + 2 * dc) Capture (Some (row + dr)) (Some (col + dc))
          ∈ getCaptureMoves b row col (player piece) (type piece))).
Proof.
  intros Hp. split.
  - intros Ht m Hm.
    assert (H : m ∈ getCaptureMoves b row col (player piece) (type piece) \/
                m ∈ getRegularMoves b row col (player piece) (type piece)).
    { destruct Hm as [Hm|[Hm|[Hm|Hm]]]; [by right|by left| |].
      - apply getValidMoves_inv in Hm as (p & Hp' & Hm).
        by assert (p = piece) as -> by congruence.
      - apply getAllValidMoves_inv in Hm as (p & Hp' & _ & Hm). simpl in *.
        by assert (p = piece) as -> by congruence. }
    rewrite Ht in H. destruct H as [H|H].
    + apply getCaptureMoves_inv in H as (dr & dc & ? & Hd%getDirections_regular & -> & _).
      simpl. destruct (player piece); lia.
    + apply getRegularMoves_inv in H as (dr & dc & Hd%getDirections_regular & -> & _).
      simpl. destruct (player piece); lia.
  - intros Ht dr dc Hdr Hdc. rewrite Ht.
    pose proof (getDirections_king (player piece) dr dc Hdr Hdc) as Hd.
    split; [done|]. split.
    + intros. by apply getRegularMoves_intro.
    + intros. by eapply getCaptureMoves_intro.
Qed.

Lemma directions_by_rank_witness :
  3 < toRow (mkMove 4 1 Step None None) /\
  (1, -1) ∈ getDirections Red King.
Proof.
  split.
  - apply (proj1 (directions_by_rank
             (setPiece empty 3 2 (Some (mkPiece Red Regular))) 3 2
             (mkPiece Red Regular) eq_refl) eq_refl (mkMove 4 1 Step None None)).
    right. right. left. vm_compute. left.
  - apply (proj2 (directions_by_rank
             (setPiece empty 3 2 (Some (mkPiece Red King))) 3 2
             (mkPiece Red King) eq_refl) eq_refl 1 (-1)); auto.
Defined.

(** ** Capture chains *)

Lemma execute_capture (b : Board) (row col : Z) (piece : Piece) (m : Move) :
  onBoard b ->
  getPieceAt b row col = Some piece ->
  m ∈ getCaptureMoves b row col (player piece) (type piece) ->
  exists nb,
    execute b row col m = (nb, Completed) /\
    onBoard nb /\
    getPieceAt nb (toRow m) (toCol m) = Some (promoted piece (toRow m)) /\
    (size (grid nb) < size (grid b))%nat.
Proof.
  intros Hb Hp Hm.
  destruct (execute_valid b row col piece m Hp (or_introl Hm)) as (Hto & g & -> & Hg).
  eexists. split; [done|].
  apply getCaptureMoves_inv in Hm
    as (dr & dc & jumped & Hd%getDirections_unit & -> & _ & Hj & _ & Hl).
  simpl in *. subst g.
  apply getPieceAt_Some in Hp as [Hr Hp], Hj as [Hjr Hj].
  unfold getPieceAt in Hl. rewrite Hto in Hl. simpl in Hl.
  split; [|split].
  - intros r c. simpl. rewrite lookup_insert_is_Some', !lookup_delete_is_Some.
    intros [[= <- <-]|(_ & _ & H)]; [done|by apply Hb].
  - apply getPieceAt_Some. split; [done|]. simpl. by rewrite lookup_insert_eq.
  - simpl. rewrite map_size_insert_None.
    2:{ rewrite !lookup_delete_None. by right; right. }
    rewrite map_size_delete_Some.
    2:{ rewrite lookup_delete_ne; [eauto|]. intros [=]. lia. }
    assert (H1 : size (delete (row + dr, col + dc) (grid b)) <> 0%nat).
    { intros E%map_size_empty_inv.
      assert (H : delete (row + dr, col + dc) (grid b) !! (row, col) = Some piece).
      { rewrite lookup_delete_ne; [done|]. intros [=]. lia. }
      rewrite E, lookup_empty in H. done. }
    rewrite map_size_delete_Some in * by eauto. lia.
Qed.

Lemma findCaptureChains_unfold (fuel : nat) (b : Board) (row col : Z)
    (who : Player) (t : PieceType) (cur : list Move) (all : list (list Move)) :
  findCaptureChains (S fuel) b row col who t cur all =
    match getCaptureMoves b row col who t with
    | [] => Returns match cur with [] => all | _ :: _ => all ++ [cur] end
    | captures => chainLoop (descendInto fuel b row col who t cur) captures all
    end.
Proof. simpl. by destruct (getCaptureMoves b row col who t). Qed.

Lemma findCaptureChains_spec (fuel : nat) :
  forall (b : Board) (row col : Z) (who : Player) (t : PieceType)
         (cur : list Move) (all : list (list Move)),
    onBoard b ->
    getPieceAt b row col = Some (mkPiece who t) ->
    (size (grid b) < fuel)%nat ->
    exists out,
      findCaptureChains fuel b row col who t cur all = Returns (all ++ out) /\
      Forall (fun chain => exists suffix,
                chain = cur ++ suffix /\ chain <> [] /\
                captureChain b row col suffix /\ chainEnds b row col suffix) out /\
      (out = [] -> cur = [] /\ getCaptureMoves b row col who t = []).
Proof.
  induction fuel as [|fuel IH]; intros b row col who t cur all Hb Hp Hsize; [lia|].
  rewrite findCaptureChains_unfold.
  destruct (getCaptureMoves b row col who t) as [|c cs] eqn:Hc.
  - destruct cur as [|m cur].
    + exists []. by rewrite app_nil_r.
    + exists [m :: cur]. split; [done|]. split; [|done].
      constructor; [|done]. exists []. rewrite app_nil_r.
      repeat split; [done|]. exists (mkPiece who t). done.
  - rewrite <- Hc.
    assert (Hloop : forall caps all,
      (forall m, m ∈ caps -> m ∈ getCaptureMoves b row col who t) ->
      exists out,
        chainLoop (descendInto fuel b row col who t cur) caps all = Returns (all ++ out) /\
        Forall (fun chain => exists suffix,
                  chain = cur ++ suffix /\ chain <> [] /\
                  captureChain b row col suffix /\ chainEnds b row col suffix) out /\
        (out = [] -> caps = [])).
    { clear all. induction caps as [|m caps IHcaps]; intros all Hcaps.
      - exists []. by rewrite app_nil_r.
      - assert (Hm : m ∈ getCaptureMoves b row col who t) by (apply Hcaps; left).
        destruct (execute_capture b row col (mkPiece who t) m Hb Hp Hm)
          as (nb & Hex & Hnb & Hland & Hlt).
        simpl. unfold descendInto at 1. rewrite (clone_id b Hb), Hex, Hland.
        destruct (IH nb (toRow m) (toCol m) who (type (promoted (mkPiece who t) (toRow m)))
                    (cur ++ [m]) all Hnb) as (out1 & -> & Hout1 & Hne1).
        { rewrite Hland. f_equal.
          pose proof (promoted_player (mkPiece who t) (toRow m)) as Hpl.
          destruct (promoted _ _); simpl in *. by subst. }
        { lia. }
        destruct (IHcaps (all ++ out1)) as (out2 & -> & Hout2 & _).
        { intros m' Hm'. apply Hcaps. by right. }
        exists (out1 ++ out2). rewrite app_assoc. split; [done|]. split.
        + apply Forall_app. split; [|done].
          eapply Forall_impl; [exact Hout1|]. simpl.
          intros chain (suffix & -> & Hne & Hcc & Hce).
          exists (m :: suffix). rewrite <- app_assoc. split; [done|].
          split; [by rewrite <- app_assoc in Hne|].
          unfold chainEnds. simpl. rewrite Hex. simpl. split; [|done].
          split; [|done]. exists (mkPiece who t). done.
        + intros [-> ->]%app_eq_nil. destruct Hne1 as [Hne1 _]; [done|].
          by destruct cur. }
    destruct (Hloop (getCaptureMoves b row col who t) all) as (out & -> & Hout & Hne);
      [done|].
    exists out. split; [done|]. split; [done|].
    intros ->. rewrite Hne in Hc by done. done.
Qed.

Lemma getCaptureMoves_ext (b1 b2 : Board) (row col : Z) (who : Player)
    (t : PieceType) :
  (forall r c, getPieceAt b1 r c = getPieceAt b2 r c) ->
  getCaptureMoves b1 row col who t = getCaptureMoves b2 row col who t.
Proof.
  intros H. unfold getCaptureMoves.
  induction (getDirections who t) as [|d ds IH]; [done|].
  cbn [mbind list_bind]. by rewrite IH, !H.
Qed.

Lemma clone_size (b : Board) : (size (grid (clone b)) <= size (grid b))%nat.
Proof.
  apply map_subseteq_size, map_subseteq_spec. intros [row col] piece.
  rewrite clone_lookup. by destruct (inRange row col).
Qed.

(** [getCaptureChains] returns, and its chains are chains of captures
    that end where the piece has no capture. *)
Lemma capture_chains_spec_total (fuel : nat) (b : Board) (row col : Z) :
  (size (grid b) < fuel)%nat ->
  exists chains,
    getCaptureChains fuel b row col = Returns chains /\
    forall chain, chain ∈ chains -> captureChain (clone b) row col chain.
Proof.
  intros Hfuel. unfold getCaptureChains.
  destruct (getPieceAt b row col) as [piece|] eqn:Hp.
  - destruct (findCaptureChains_spec fuel (clone b) row col (player piece) (type piece) [] [])
      as (out & -> & Hout & _).
    + apply clone_onBoard.
    + rewrite getPieceAt_clone, Hp. by destruct piece.
    + pose proof (clone_size b). lia.
    + exists out. split; [done|].
      intros chain Hin. rewrite Forall_forall in Hout.
      destruct (Hout chain Hin) as (suffix & -> & ? & ? & ?). done.
  - exists []. split; [done|]. intros ? H; inversion H.
Qed.

(** C3: with fuel above the number of pieces, [getCaptureChains]
    returns.  Every chain it returns is non-empty, is a sequence of
    consecutive captures of the piece that stood on [(row, col)] (each
    one generated for the piece as it stands, promoted or not, on the
    board the jumps before have left), and is maximal: played on a copy
    of the board, it leaves the piece without a capture on its last
    landing square.  The result is the empty list exactly when the
    square is empty or its piece has no capture. *)
Theorem capture_chains_maximal (fuel : nat) (b : Board) (row col : Z) :
  (size (grid b) < fuel)%nat ->
  exists chains,
    getCaptureChains fuel b row col = Returns chains /\
    (forall chain, chain ∈ chains ->
       chain <> [] /\
       captureChain (clone b) row col chain /\
       chainEnds (clone b) row col chain) /\
    (chains = [] <->
       getPieceAt b row col = None \/
       exists piece, getPieceAt b row col = Some piece /\
         getCaptureMoves b row col (player piece) (type piece) = []).
Proof.
  intros Hfuel. unfold getCaptureChains.
  destruct (getPieceAt b row col) as [piece|] eqn:Hp.
  - destruct (findCaptureChains_spec fuel (clone b) row col (player piece) (type piece) [] [])
      as (out & -> & Hout & Hnil).
    + apply clone_onBoard.
    + rewrite getPieceAt_clone, Hp. by destruct piece.
    + pose proof (clone_size b). lia.
    + exists out. split; [done|]. split.
      * intros chain Hin. rewrite Forall_forall in Hout.
        destruct (Hout chain Hin) as (suffix & -> & ? & ? & ?). done.
      * split.
        -- intros [_ H]%Hnil. right. exists piece. split; [done|].
           rewrite <- H. apply getCaptureMoves_ext. intros. by rewrite getPieceAt_clone.
        -- intros [?|(p & [= <-] & H)]; [done|].
           destruct out as [|chain out]; [done|]. exfalso.
           apply Forall_cons in Hout as [(suffix & -> & Hne & Hcc & _) _].
           destruct suffix as [|m suffix]; [done|].
           destruct Hcc as [(p & Hp' & Hm) _].
           rewrite getPieceAt_clone in Hp'. assert (p = piece) as -> by congruence.
           rewrite (getCaptureMoves_ext _ b), H in Hm; [inversion Hm|].
           intros. apply getPieceAt_clone.
  - exists []. split; [done|]. split; [intros ? H; inversion H|].
    split; [by left|done].
Qed.

Lemma capture_chains_maximal_witness :
  exists chains,
    getCaptureChains 4 doubleJump 2 1 = Returns chains /\
    (forall chain, chain ∈ chains ->
       chain <> [] /\
       captureChain (clone doubleJump) 2 1 chain /\
       chainEnds (clone doubleJump) 2 1 chain) /\
    (chains = [] <->
       getPieceAt doubleJump 2 1 = None \/
       exists piece, getPieceAt doubleJump 2 1 = Some piece /\
         getCaptureMoves doubleJump 2 1 (player piece) (type piece) = []).
Proof. apply capture_chains_maximal. vm_compute. lia. Defined.

Example doubleJump_chains :
  getCaptureChains 4 doubleJump 2 1 =
    Returns [[mkMove 4 3 Capture (Some 3) (Some 2);
              mkMove 6 5 Capture (Some 5) (Some 4)]].
Proof. vm_compute. reflexivity. Qed.

(** ** The jumped square of a capture *)

Lemma midpoint (x d : Z) : (x + (x + 2 * d)) / 2 = x + d.
Proof. replace (x + (x + 2 * d)) with ((x + d) * 2) by lia. apply Z.div_mul. lia. Qed.

Lemma getCaptureMoves_recorded (b : Board) (row col : Z) (who : Player)
    (t : PieceType) (m : Move) :
  m ∈ getCaptureMoves b row col who t -> jumpRecorded b who row col m.
Proof.
  intros (dr & dc & jumped & _ & -> & Hland & Hj & Hw & Hl)%getCaptureMoves_inv.
  unfold jumpRecorded. simpl. rewrite !midpoint. eauto 10.
Qed.

Lemma getRegularMoves_noJump (b : Board) (row col : Z) (who : Player)
    (t : PieceType) (m : Move) :
  m ∈ getRegularMoves b row col who t -> noJump m.
Proof. intros (dr & dc & _ & -> & _)%getRegularMoves_inv. done. Qed.

Lemma captureChain_recorded (chain : list Move) :
  forall b row col, captureChain b row col chain -> chainRecorded b row col chain.
Proof.
  induction chain as [|m chain IH]; intros b row col; [done|].
  simpl. intros [(piece & Hp & Hm) Hrest]. split; [|by apply IH].
  exists piece. split; [done|]. by eapply getCaptureMoves_recorded.
Qed.

(** C10: a capture move of the validator records the square half way
    between its source and its destination; that square holds a piece of
    the other side and the destination is an empty square of the board.
    A move that is not a capture records no square.  This holds for the
    moves of [getCaptureMoves] and [getRegularMoves], of [getValidMoves],
    of [getAllValidMoves], and for every move of every chain of
    [getCaptureChains], on the board at its turn in the chain. *)
Theorem captures_recorded :
  (forall b row col who t m,
     m ∈ getCaptureMoves b row col who t -> jumpRecorded b who row col m) /\
  (forall b row col who t m,
     m ∈ getRegularMoves b row col who t -> noJump m) /\
  (forall b row col piece m,
     getPieceAt b row col = Some piece ->
     m ∈ getValidMoves b row col ->
     jumpRecorded b (player piece) row col m \/ noJump m) /\
  (forall b who pm,
     pm ∈ getAllValidMoves b who ->
     jumpRecorded b who (fromRow pm) (fromCol pm) (move pm) \/ noJump (move pm)) /\
  (forall fuel b row col,
     (size (grid b) < fuel)%nat ->
     exists chains,
       getCaptureChains fuel b row col = Returns chains /\
       forall chain, chain ∈ chains -> chainRecorded (clone b) row col chain).
Proof.
  split; [|split; [|split; [|split]]].
  - apply getCaptureMoves_recorded.
  - apply getRegularMoves_noJump.
  - intros b row col piece m Hp (p & Hp' & Hm)%getValidMoves_inv.
    assert (p = piece) as -> by congruence.
    destruct Hm as [Hm|Hm]; [left|right].
    + by eapply getCaptureMoves_recorded.
    + by eapply getRegularMoves_noJump.
  - intros b who pm (p & Hp & <- & Hm)%getAllValidMoves_inv.
    destruct Hm as [Hm|Hm]; [left|right].
    + by eapply getCaptureMoves_recorded.
    + by eapply getRegularMoves_noJump.
  - intros fuel b row col Hfuel.
    destruct (capture_chains_spec_total fuel b row col Hfuel) as (chains & -> & H).
    exists chains. split; [done|]. intros chain Hin.
    apply captureChain_recorded, H, Hin.
Qed.

Lemma captures_recorded_witness :
  jumpRecorded doubleJump Red 2 1 (mkMove 4 3 Capture (Some 3) (Some 2)) /\
  noJump (mkMove 3 0 Step None None) /\
  exists chains,
    getCaptureChains 4 doubleJump 2 1 = Returns chains /\
    forall chain, chain ∈ chains -> chainRecorded (clone doubleJump) 2 1 chain.
Proof.
  destruct captures_recorded as (Hc & Hs & _ & _ & Hchains).
  split; [|split].
  - apply (Hc doubleJump 2 1 Red Regular). vm_compute. left.
  - apply (Hs (setPiece empty 2 1 (Some (mkPiece Red Regular))) 2 1 Red Regular).
    vm_compute. left.
  - apply Hchains. vm_compute. lia.
Defined.

(** ** The order of the search numbers *)

Lemma num_same_eq (a b : num) : a = b <-> num_same a b.
Proof.
  destruct a, b; simpl; split; try done; try tauto; intros H;
    [by injection H | by subst].
Qed.

Ltac num_crush :=
  unfold post, num_ltb, num_max, num_min in *; intros; subst;
  rewrite ?num_same_eq in *;
  repeat match goal with x : num |- _ => destruct x end;
  cbn [num_le num_lt num_same num_leb negb] in *;
  repeat (match goal with
          | |- context [Z.leb ?a ?b] => destruct (Z.leb_spec a b)
          | H : context [Z.leb ?a ?b] |- _ => destruct (Z.leb_spec a b)
          end;
          cbn [num_le num_lt num_same num_leb negb] in *);
  try done; try lia.

Lemma num_leb_true (a b : num) : num_leb a b = true <-> num_le a b.
Proof. split; num_crush. Qed.

Lemma num_leb_false (a b : num) : num_leb a b = false <-> num_lt b a.
Proof. split; num_crush. Qed.

Lemma num_ltb_true (a b : num) : num_ltb a b = true <-> num_lt a b.
Proof. split; num_crush. Qed.

Lemma num_ltb_false (a b : num) : num_ltb a b = false <-> num_le b a.
Proof. split; num_crush. Qed.

Lemma num_max_Fin (x y : Z) : num_max (Fin x) (Fin y) = Fin (Z.max x y).
Proof. unfold num_max; simpl. destruct (Z.leb_spec x y); f_equal; lia. Qed.

Lemma num_min_Fin (x y : Z) : num_min (Fin x) (Fin y) = Fin (Z.min x y).
Proof. unfold num_min; simpl. destruct (Z.leb_spec x y); f_equal; lia. Qed.

Lemma num_max_assoc (a b c : num) :
  num_max (num_max a b) c = num_max a (num_max b c).
Proof. num_crush. Qed.

Lemma num_min_assoc (a b c : num) :
  num_min (num_min a b) c = num_min a (num_min b c).
Proof. num_crush. Qed.

Lemma post_exact (alpha beta v : num) : post alpha beta v v.
Proof. num_crush. Qed.

(** ** The pruned loops against the exact values *)

Lemma foldl_max_Fin {A} (f : A -> Z) (l : list A) (z : Z) :
  foldl (fun acc x => num_max acc (Fin (f x))) (Fin z) l =
    Fin (foldl Z.max z (f <$> l)).
Proof.
  revert z. induction l as [|x l IH]; intros z; [done|].
  simpl. by rewrite num_max_Fin, IH.
Qed.

Lemma foldl_min_Fin {A} (f : A -> Z) (l : list A) (z : Z) :
  foldl (fun acc x => num_min acc (Fin (f x))) (Fin z) l =
    Fin (foldl Z.min z (f <$> l)).
Proof.
  revert z. induction l as [|x l IH]; intros z; [done|].
  simpl. by rewrite num_min_Fin, IH.
Qed.

Lemma foldl_max_ge {A} (f : A -> Z) (l : list A) (s : num) :
  num_le s (foldl (fun acc x => num_max acc (Fin (f x))) s l).
Proof.
  revert s. induction l as [|x l IH]; intros s; simpl; [num_crush|].
  specialize (IH (num_max s (Fin (f x)))).
  destruct (foldl _ _ l); num_crush.
Qed.

Lemma foldl_min_le {A} (f : A -> Z) (l : list A) (s : num) :
  num_le (foldl (fun acc x => num_min acc (Fin (f x))) s l) s.
Proof.
  revert s. induction l as [|x l IH]; intros s; simpl; [num_crush|].
  specialize (IH (num_min s (Fin (f x)))).
  destruct (foldl _ _ l); num_crush.
Qed.

(** The steps of the invariant of the maximizing loop.  [M] is
    [maxEval], [S] the exact maximum of the children seen so far, [z]
    the exact value of the next child and [r] what its search
    returned. *)
Lemma max_cutoff (alpha0 beta M S r V : num) (z : Z) :
  num_lt (num_max alpha0 M) beta ->
  post (num_max alpha0 M) beta (Fin z) r ->
  num_le beta (num_max (num_max alpha0 M) r) ->
  num_le (num_max S (Fin z)) V ->
  post alpha0 beta V (num_max M r).
Proof. num_crush. Qed.

Lemma max_continue (alpha0 beta M S r : num) (z : Z) :
  num_lt (num_max alpha0 M) beta ->
  (num_le M alpha0 -> num_le S M) ->
  (num_lt alpha0 M -> M = S) ->
  post (num_max alpha0 M) beta (Fin z) r ->
  num_lt (num_max (num_max alpha0 M) r) beta ->
  (num_le (num_max M r) alpha0 -> num_le (num_max S (Fin z)) (num_max M r)) /\
  (num_lt alpha0 (num_max M r) -> num_max M r = num_max S (Fin z)).
Proof. num_crush. Qed.

Lemma max_done (alpha0 beta M S : num) :
  num_lt (num_max alpha0 M) beta ->
  (num_le M alpha0 -> num_le S M) ->
  (num_lt alpha0 M -> M = S) ->
  post alpha0 beta S M.
Proof. num_crush. Qed.

(** The same steps for the minimizing loop. *)
Lemma min_cutoff (alpha beta0 M S r V : num) (z : Z) :
  num_lt alpha (num_min beta0 M) ->
  post alpha (num_min beta0 M) (Fin z) r ->
  num_le (num_min (num_min beta0 M) r) alpha ->
  num_le V (num_min S (Fin z)) ->
  post alpha beta0 V (num_min M r).
Proof. num_crush. Qed.

Lemma min_continue (alpha beta0 M S r : num) (z : Z) :
  num_lt alpha (num_min beta0 M) ->
  (num_le beta0 M -> num_le M S) ->
  (num_lt M beta0 -> M = S) ->
  post alpha (num_min beta0 M) (Fin z) r ->
  num_lt alpha (num_min (num_min beta0 M) r) ->
  (num_le beta0 (num_min M r) -> num_le (num_min M r) (num_min S (Fin z))) /\
  (num_lt (num_min M r) beta0 -> num_min M r = num_min S (Fin z)).
Proof. num_crush. Qed.

Lemma min_done (alpha beta0 M S : num) :
  num_lt alpha (num_min beta0 M) ->
  (num_le beta0 M -> num_le M S) ->
  (num_lt M beta0 -> M = S) ->
  post alpha beta0 S M.
Proof. num_crush. Qed.

Section AlphaBeta.
Variable search : Board -> num -> num -> outcome num.
Variable value : Board -> Z.
Variable b : Board.

(** The recursive call keeps the contract on every board. *)
Hypothesis search_post : forall nb alpha beta,
  num_lt alpha beta ->
  exists r, search nb alpha beta = Returns r /\ post alpha beta (Fin (value nb)) r.

Lemma completes_play (pm : PieceMove) :
  completes b pm ->
  execute (clone b) (fromRow pm) (fromCol pm) (move pm) = (play b pm, Completed).
Proof.
  unfold completes, play.
  destruct (execute (clone b) (fromRow pm) (fromCol pm) (move pm)); simpl.
  by intros ->.
Qed.

Lemma maxLoop_post (moves : list PieceMove) :
  forall M S alpha0 beta,
    Forall (completes b) moves ->
    num_lt (num_max alpha0 M) beta ->
    (num_le M alpha0 -> num_le S M) ->
    (num_lt alpha0 M -> M = S) ->
    exists r,
      maxLoop search b moves M (num_max alpha0 M) beta = Returns r /\
      post alpha0 beta
        (foldl (fun acc pm => num_max acc (Fin (value (play b pm)))) S moves) r.
Proof.
  induction moves as [|pm moves IH]; intros M S alpha0 beta Hmoves Hwin H1 H2.
  - exists M. split; [done|]. simpl. by eapply max_done.
  - apply Forall_cons in Hmoves as [Hpm Hmoves]. simpl.
    rewrite (completes_play pm Hpm).
    destruct (search_post (play b pm) (num_max alpha0 M) beta Hwin) as (r & -> & Hr).
    destruct (num_leb beta (num_max (num_max alpha0 M) r)) eqn:Hcut.
    + exists (num_max M r). split; [done|].
      apply num_leb_true in Hcut.
      eapply max_cutoff; [done..|]. apply foldl_max_ge.
    + apply num_leb_false in Hcut.
      destruct (max_continue alpha0 beta M S r _ Hwin H1 H2 Hr Hcut) as [H1' H2'].
      rewrite num_max_assoc in Hcut |- *.
      apply (IH (num_max M r) (num_max S (Fin (value (play b pm)))) alpha0 beta);
        done.
Qed.

Lemma minLoop_post (moves : list PieceMove) :
  forall M S alpha beta0,
    Forall (completes b) moves ->
    num_lt alpha (num_min beta0 M) ->
    (num_le beta0 M -> num_le M S) ->
    (num_lt M beta0 -> M = S) ->
    exists r,
      minLoop search b moves M alpha (num_min beta0 M) = Returns r /\
      post alpha beta0
        (foldl (fun acc pm => num_min acc (Fin (value (play b pm)))) S moves) r.
Proof.
  induction moves as [|pm moves IH]; intros M S alpha beta0 Hmoves Hwin H1 H2.
  - exists M. split; [done|]. simpl. by eapply min_done.
  - apply Forall_cons in Hmoves as [Hpm Hmoves]. simpl.
    rewrite (completes_play pm Hpm).
    destruct (search_post (play b pm) alpha (num_min beta0 M) Hwin) as (r & -> & Hr).
    destruct (num_leb (num_min (num_min beta0 M) r) alpha) eqn:Hcut.
    + exists (num_min M r). split; [done|].
      apply num_leb_true in Hcut.
      eapply min_cutoff; [done..|]. apply foldl_min_le.
    + apply num_leb_false in Hcut.
      destruct (min_continue alpha beta0 M S r _ Hwin H1 H2 Hr Hcut) as [H1' H2'].
      rewrite num_min_assoc in Hcut |- *.
      apply (IH (num_min M r) (num_min S (Fin (value (play b pm)))) alpha beta0);
        done.
Qed.

(** The loop of [findBestMove]: [alpha] is the score of the best
    result, and both are the exact maximum of the children seen. *)
Lemma bestLoop_post (moves : list PieceMove) :
  forall (best : option SearchResult) (alpha : num),
    Forall (completes b) moves ->
    match best with
    | None => alpha = NegInf
    | Some res => alpha = score res /\ exists z, score res = Fin z
    end ->
    exists best',
      bestLoop search b moves best alpha = Returns best' /\
      match best' with
      | None => best = None /\ moves = []
      | Some res =>
          score res =
            foldl (fun acc pm => num_max acc (Fin (value (play b pm)))) alpha moves /\
          (source res ∈ moves \/ best = Some res)
      end.
Proof.
  induction moves as [|pm moves IH]; intros best alpha Hmoves Hbest.
  - exists best. split; [done|]. destruct best as [res|]; [|done].
    simpl. destruct Hbest as [-> _]. auto.
  - apply Forall_cons in Hmoves as [Hpm Hmoves]. simpl.
    rewrite (completes_play pm Hpm).
    destruct (search_post (play b pm) alpha PosInf) as (r & -> & Hr).
    { destruct best as [res|]; [destruct Hbest as (-> & z & ->)|subst]; done. }
    set (best1 := match best with
                  | None => Some (mkSearchResult pm r)
                  | Some best0 =>
                      if num_ltb (score best0) r
                      then Some (mkSearchResult pm r) else Some best0
                  end).
    destruct (IH best1 (num_max alpha r) Hmoves) as (best' & -> & Hbest').
    { unfold best1. destruct best as [res|].
      - destruct Hbest as (-> & z & Hz).
        destruct (num_ltb (score res) r) eqn:Hlt.
        + apply num_ltb_true in Hlt. simpl. rewrite Hz in *.
          split; [num_crush|]. destruct r; [num_crush|eauto|num_crush].
        + apply num_ltb_false in Hlt. rewrite Hz in *.
          split; [num_crush|eauto].
      - subst alpha. simpl.
        split; [num_crush|]. destruct r; [num_crush|eauto|num_crush]. }
    exists best'. split; [done|].
    destruct best' as [res|].
    + destruct Hbest' as [Hscore Hsrc]. split.
      * rewrite Hscore. f_equal.
        destruct best as [res0|]; [destruct Hbest as (-> & z & Hz); rewrite Hz in *|subst];
          num_crush.
      * destruct Hsrc as [Hsrc|Hsrc]; [left; by right|].
        unfold best1 in Hsrc. destruct best as [res0|].
        -- destruct (num_ltb (score res0) r); injection Hsrc as <-;
             [left; left|right; done].
        -- injection Hsrc as <-. left. left.
    + destruct Hbest' as [Hnone _]. unfold best1 in Hnone.
      destruct best as [res0|]; [destruct (num_ltb (score res0) r)|]; done.
Qed.
End AlphaBeta.

(** ** The search *)

Lemma getRegularMoves_ext (b1 b2 : Board) (row col : Z) (who : Player)
    (t : PieceType) :
  (forall r c, getPieceAt b1 r c = getPieceAt b2 r c) ->
  getRegularMoves b1 row col who t = getRegularMoves b2 row col who t.
Proof.
  intros H. unfold getRegularMoves.
  induction (getDirections who t) as [|d ds IH]; [done|].
  cbn [mbind list_bind]. by rewrite IH, !H.
Qed.

(** No move of [getAllValidMoves] makes [Move.execute] throw. *)
Lemma getAllValidMoves_complete (b : Board) (who : Player) :
  Forall (completes b) (getAllValidMoves b who).
Proof.
  apply Forall_forall. intros pm (piece & Hp & _ & Hm)%getAllValidMoves_inv.
  unfold completes.
  assert (Hext : forall r c, getPieceAt b r c = getPieceAt (clone b) r c)
    by (intros; by rewrite getPieceAt_clone).
  rewrite (getCaptureMoves_ext b (clone b)), (getRegularMoves_ext b (clone b)) in Hm
    by done.
  rewrite Hext in Hp.
  destruct (execute_valid _ _ _ _ _ Hp Hm) as (_ & g & -> & _). done.
Qed.

Lemma minimax_unfold (fuel : nat) (b : Board) (depth : Z) (alpha beta : num)
    (isMaximizing : bool) (who : Player) :
  minimax (S fuel) b depth alpha beta isMaximizing who =
    if depth =? 0 then Returns (Fin (evaluate b who))
    else
      match getAllValidMoves b (if isMaximizing then who else opponentOf who) with
      | [] => Returns (Fin (if isMaximizing then - WIN_SCORE else WIN_SCORE))
      | moves =>
          if isMaximizing
          then maxLoop
                 (fun nb alpha beta => minimax fuel nb (depth - 1) alpha beta false who)
                 b moves NegInf alpha beta
          else minLoop
                 (fun nb alpha beta => minimax fuel nb (depth - 1) alpha beta true who)
                 b moves PosInf alpha beta
      end.
Proof.
  simpl. destruct (depth =? 0); [done|].
  by destruct (getAllValidMoves b (if isMaximizing then who else opponentOf who)).
Qed.

(** With fuel above the depth, [minimax] returns and keeps the contract
    of the window against the unpruned value. *)
Lemma minimax_post (who : Player) (depth : nat) :
  forall (fuel : nat) (b : Board) (alpha beta : num) (isMaximizing : bool),
    (depth < fuel)%nat ->
    num_lt alpha beta ->
    exists r,
      minimax fuel b (Z.of_nat depth) alpha beta isMaximizing who = Returns r /\
      post alpha beta (Fin (fullMinimax depth b isMaximizing who)) r.
Proof.
  induction depth as [|depth IH]; intros fuel b alpha beta isMaximizing Hfuel Hwin;
    (destruct fuel as [|fuel]; [lia|]); rewrite minimax_unfold.
  - simpl. eexists. split; [done|]. apply post_exact.
  - replace (Z.of_nat (S depth) =? 0) with false by (symmetry; apply Z.eqb_neq; lia).
    replace (Z.of_nat (S depth) - 1) with (Z.of_nat depth) by lia.
    cbn [fullMinimax].
    pose proof (getAllValidMoves_complete b (if isMaximizing then who else opponentOf who))
      as Hmoves.
    destruct (getAllValidMoves b (if isMaximizing then who else opponentOf who))
      as [|pm rest] eqn:E.
    + eexists. split; [done|]. apply post_exact.
    + destruct isMaximizing.
      * destruct (maxLoop_post
                    (fun nb alpha beta => minimax fuel nb (Z.of_nat depth) alpha beta false who)
                    (fun nb => fullMinimax depth nb false who) b)
          with (moves := pm :: rest) (M := NegInf) (S := NegInf)
               (alpha0 := alpha) (beta := beta) as (r & Hr & Hpost); try done.
        { intros. apply IH; [lia|done]. }
        { num_crush. }
        replace (num_max alpha NegInf) with alpha in Hr by num_crush.
        exists r. split; [done|].
        cbn [foldl] in Hpost.
        replace (num_max NegInf (Fin (fullMinimax depth (play b pm) false who)))
          with (Fin (fullMinimax depth (play b pm) false who)) in Hpost by done.
        by rewrite foldl_max_Fin in Hpost.
      * destruct (minLoop_post
                    (fun nb alpha beta => minimax fuel nb (Z.of_nat depth) alpha beta true who)
                    (fun nb => fullMinimax depth nb true who) b)
          with (moves := pm :: rest) (M := PosInf) (S := PosInf)
               (alpha := alpha) (beta0 := beta) as (r & Hr & Hpost); try done.
        { intros. apply IH; [lia|done]. }
        { num_crush. }
        replace (num_min beta PosInf) with beta in Hr by num_crush.
        exists r. split; [done|].
        cbn [foldl] in Hpost.
        replace (num_min PosInf (Fin (fullMinimax depth (play b pm) true who)))
          with (Fin (fullMinimax depth (play b pm) true who)) in Hpost by done.
        by rewrite foldl_min_Fin in Hpost.
Qed.

(** What [findBestMove] returns when the depth is at least 1 and the
    fuel is above it. *)
Lemma findBestMove_post (fuel : nat) (b : Board) (who : Player) (depth : Z) :
  1 <= depth ->
  (Z.to_nat depth <= fuel)%nat ->
  match getAllValidMoves b who with
  | [] => findBestMove fuel b who depth = Returns None
  | _ :: _ =>
      exists res,
        findBestMove fuel b who depth = Returns (Some res) /\
        source res ∈ getAllValidMoves b who /\
        score res = Fin (fullMinimax (Z.to_nat depth) b true who)
  end.
Proof.
  intros Hdepth Hfuel. unfold findBestMove.
  pose proof (getAllValidMoves_complete b who) as Hmoves.
  destruct (Z.to_nat depth) as [|d] eqn:Hd; [lia|].
  replace (depth - 1) with (Z.of_nat d) by lia.
  cbn [fullMinimax].
  destruct (getAllValidMoves b who) as [|pm rest] eqn:E; [done|].
  destruct (bestLoop_post
              (fun nb alpha beta => minimax fuel nb (Z.of_nat d) alpha beta false who)
              (fun nb => fullMinimax d nb false who) b)
    with (moves := pm :: rest) (best := @None SearchResult) (alpha := NegInf)
    as (best' & Hbest' & Hres); try done.
  { intros. apply minimax_post; [lia|done]. }
  destruct best' as [res|]; [|by destruct Hres].
  destruct Hres as [Hscore Hsrc]. exists res. split; [done|]. split.
  - by destruct Hsrc.
  - rewrite Hscore. cbn [foldl].
    replace (num_max NegInf (Fin (fullMinimax d (play b pm) false who)))
      with (Fin (fullMinimax d (play b pm) false who)) by done.
    by rewrite foldl_max_Fin.
Qed.

(** C1: for a depth of at least 1 (and fuel above it), [findBestMove]
    returns.  When the player has a legal move it returns a
    [SearchResult], and the score of that result is the value of the
    unpruned minimax traversal of the same tree, [depth] plies deep,
    with the player to move maximizing; it returns [null] only when the
    player has no legal move.  The pruned [minimax] itself, called with
    the full window, returns the unpruned value. *)
Theorem alpha_beta_equivalence (fuel : nat) (b : Board) (who : Player) (depth : Z) :
  1 <= depth ->
  (Z.to_nat depth <= fuel)%nat ->
  (getAllValidMoves b who <> [] ->
   exists res,
     findBestMove fuel b who depth = Returns (Some res) /\
     score res = Fin (fullMinimax (Z.to_nat depth) b true who)) /\
  (getAllValidMoves b who = [] ->
   findBestMove fuel b who depth = Returns None) /\
  (forall isMaximizing,
     minimax (S fuel) b depth NegInf PosInf isMaximizing who =
       Returns (Fin (fullMinimax (Z.to_nat depth) b isMaximizing who))).
Proof.
  intros Hdepth Hfuel.
  pose proof (findBestMove_post fuel b who depth Hdepth Hfuel) as H.
  split; [|split].
  - intros Hmoves. destruct (getAllValidMoves b who); [done|].
    destruct H as (res & Hres & _ & Hscore). by exists res.
  - intros Hmoves. by rewrite Hmoves in H.
  - intros isMaximizing.
    destruct (minimax_post who (Z.to_nat depth) (S fuel) b NegInf PosInf isMaximizing)
      as (r & Hr & Hpost); [lia|done|].
    rewrite Z2Nat.id in Hr by lia. rewrite Hr. f_equal.
    destruct r; num_crush.
Qed.

Lemma alpha_beta_equivalence_witness :
  (exists res,
     findBestMove 2 doubleJump Red 2 = Returns (Some res) /\
     score res = Fin (fullMinimax (Z.to_nat 2) doubleJump true Red)) /\
  (forall isMaximizing,
     minimax 3 doubleJump 2 NegInf PosInf isMaximizing Red =
       Returns (Fin (fullMinimax (Z.to_nat 2) doubleJump isMaximizing Red))).
Proof.
  destruct (alpha_beta_equivalence 2 doubleJump Red 2) as (Hres & _ & Hminimax);
    [lia | vm_compute; lia |].
  split; [|exact Hminimax].
  apply Hres. vm_compute. discriminate.
Defined.

Lemma corner_cycle (fuel : nat) :
  forall depth alpha beta,
    depth < 0 ->
    minimax fuel (corner 0 1 0 3) depth alpha beta true Red = NoFuel /\
    minimax fuel (corner 1 0 0 3) depth alpha beta false Red = NoFuel /\
    minimax fuel (corner 1 0 1 2) depth alpha beta true Red = NoFuel /\
    minimax fuel (corner 0 1 1 2) depth alpha beta false Red = NoFuel.
Proof.
  induction fuel as [|fuel IH]; intros depth alpha beta Hdepth; [done|].
  rewrite !minimax_unfold.
  replace (depth =? 0) with false by (symmetry; apply Z.eqb_neq; lia).
  assert (Hnext : depth - 1 < 0) by lia.
  repeat split.
  - replace (getAllValidMoves (corner 0 1 0 3) Red)
      with [mkPieceMove 0 1 (mkMove 1 0 Step None None);
            mkPieceMove 0 1 (mkMove 1 2 Step None None)]
      by (vm_compute; reflexivity).
    cbn [maxLoop fromRow fromCol move].
    replace (execute (clone (corner 0 1 0 3)) 0 1 (mkMove 1 0 Step None None))
      with (corner 1 0 0 3, Completed) by (vm_compute; reflexivity).
    by rewrite (proj1 (proj2 (IH _ _ _ Hnext))).
  - replace (getAllValidMoves (corner 1 0 0 3) (opponentOf Red))
      with [mkPieceMove 0 3 (mkMove 1 2 Step None None);
            mkPieceMove 0 3 (mkMove 1 4 Step None None)]
      by (vm_compute; reflexivity).
    cbn [minLoop fromRow fromCol move].
    replace (execute (clone (corner 1 0 0 3)) 0 3 (mkMove 1 2 Step None None))
      with (corner 1 0 1 2, Completed) by (vm_compute; reflexivity).
    by rewrite (proj1 (proj2 (proj2 (IH _ _ _ Hnext)))).
  - replace (getAllValidMoves (corner 1 0 1 2) Red)
      with [mkPieceMove 1 0 (mkMove 0 1 Step None None);
            mkPieceMove 1 0 (mkMove 2 1 Step None None)]
      by (vm_compute; reflexivity).
    cbn [maxLoop fromRow fromCol move].
    replace (execute (clone (corner 1 0 1 2)) 1 0 (mkMove 0 1 Step None None))
      with (corner 0 1 1 2, Completed) by (vm_compute; reflexivity).
    by rewrite (proj2 (proj2 (proj2 (IH _ _ _ Hnext)))).
  - replace (getAllValidMoves (corner 0 1 1 2) (opponentOf Red))
      with [mkPieceMove 1 2 (mkMove 0 3 Step None None);
            mkPieceMove 1 2 (mkMove 2 1 Step None None);
            mkPieceMove 1 2 (mkMove 2 3 Step None None)]
      by (vm_compute; reflexivity).
    cbn [minLoop fromRow fromCol move].
    replace (execute (clone (corner 0 1 1 2)) 1 2 (mkMove 0 3 Step None None))
      with (corner 0 1 0 3, Completed) by (vm_compute; reflexivity).
    by rewrite (proj1 (IH _ _ _ Hnext)).
Qed.

(** C8 as stated fails for a depth below 1: the recursion never meets
    [depth === 0].  With a king of each side in the corner, Red has a
    move, and the call with depth 0 does not return whatever the
    fuel is. *)
Lemma findBestMove_depth_0 :
  getAllValidMoves (corner 0 1 0 3) Red <> [] /\
  forall fuel, findBestMove fuel (corner 0 1 0 3) Red 0 = NoFuel.
Proof.
  split; [vm_compute; discriminate|].
  intros fuel. unfold findBestMove.
  replace (getAllValidMoves (corner 0 1 0 3) Red)
    with [mkPieceMove 0 1 (mkMove 1 0 Step None None);
          mkPieceMove 0 1 (mkMove 1 2 Step None None)]
    by (vm_compute; reflexivity).
  cbn [bestLoop fromRow fromCol move].
  replace (execute (clone (corner 0 1 0 3)) 0 1 (mkMove 1 0 Step None None))
    with (corner 1 0 0 3, Completed) by (vm_compute; reflexivity).
  assert (H : 0 - 1 < 0) by lia.
  by rewrite (proj1 (proj2 (corner_cycle fuel _ NegInf PosInf H))).
Qed.

(** C8 (amended): when the player has no legal move, [findBestMove]
    returns [null], whatever the depth.  For a depth of at least 1 (and
    fuel above it) it returns without a throw; it returns [null] exactly
    when the player has no legal move, and otherwise a result whose
    move is one of the legal moves and whose score is a number. *)
Theorem findBestMove_result (fuel : nat) (b : Board) (who : Player) (depth : Z) :
  (getAllValidMoves b who = [] -> findBestMove fuel b who depth = Returns None) /\
  (1 <= depth ->
   (Z.to_nat depth <= fuel)%nat ->
   exists out,
     findBestMove fuel b who depth = Returns out /\
     (out = None <-> getAllValidMoves b who = []) /\
     (forall res, out = Some res ->
        source res ∈ getAllValidMoves b who /\ exists z, score res = Fin z)).
Proof.
  split.
  - intros E. unfold findBestMove. by rewrite E.
  - intros Hdepth Hfuel.
    pose proof (findBestMove_post fuel b who depth Hdepth Hfuel) as H.
    destruct (getAllValidMoves b who) as [|pm rest].
    + exists None. by repeat split.
    + destruct H as (res & -> & Hsrc & Hscore). exists (Some res).
      split; [done|]. split; [done|].
      intros ? [= <-]. split; [done|]. eauto.
Qed.

Lemma findBestMove_result_witness :
  findBestMove 4 blocked Red 4 = Returns None /\
  exists out,
    findBestMove 2 doubleJump Red 2 = Returns out /\
    (out = None <-> getAllValidMoves doubleJump Red = []) /\
    (forall res, out = Some res ->
       source res ∈ getAllValidMoves doubleJump Red /\ exists z, score res = Fin z).
Proof.
  split.
  - apply (proj1 (findBestMove_result 4 blocked Red 4)). vm_compute. reflexivity.
  - apply (proj2 (findBestMove_result 2 doubleJump Red 2)); [lia | vm_compute; lia].
Defined.

(** ** The cases of the test suite *)

Example test_start_counts :
  length (getPieces newBoard Red) = 12%nat /\
  length (getPieces newBoard Black) = 12%nat.
Proof. split; vm_compute; reflexivity. Qed.

Example test_winning_capture :
  exists res,
    findBestMove 4 (setPiece (setPiece empty 2 1 (Some (mkPiece Red Regular)))
                      3 2 (Some (mkPiece Black Regular))) Red 4 = Returns (Some res) /\
    toRow (move (source res)) = 4 /\ toCol (move (source res)) = 3 /\
    score res = Fin WIN_SCORE.
Proof. eexists. split; [vm_compute; reflexivity|]. done. Qed.

Example test_forced_capture :
  getAllValidMoves forcedBoard Red =
    [mkPieceMove 2 5 (mkMove 4 3 Capture (Some 3) (Some 4))].
Proof. vm_compute. reflexivity. Qed.

Example test_king_captures_backward :
  mkMove 2 1 Capture (Some 3) (Some 2)
    ∈ getValidMoves (setPiece (setPiece empty 4 3 (Some (mkPiece Red King)))
                       3 2 (Some (mkPiece Black Regular))) 4 3.
Proof. vm_compute. left. Qed.

Example test_start_depth_3 :
  exists res, findBestMove 3 newBoard Red 3 = Returns (Some res) /\ score res = Fin 12.
Proof. eexists. split; [vm_compute; reflexivity|]. done. Qed.

Example test_promotion_mid_chain :
  getCaptureChains 4
    (setPiece (setPiece (setPiece empty
       5 2 (Some (mkPiece Red Regular)))
       6 3 (Some (mkPiece Black Regular)))
       6 5 (Some (mkPiece Black Regular))) 5 2 =
    Returns [[mkMove 7 4 Capture (Some 6) (Some 3);
              mkMove 5 6 Capture (Some 6) (Some 5)]].
Proof. vm_compute. reflexivity. Qed.

(** * Further properties of the engine *)

(** ** Reads after writes (Board.ts) *)

(** X1: a read after [setPiece] sees the written value on the written
    square when it is on the board, and the old value anywhere else (a
    write outside the board changes no read); a read after [removePiece]
    sees the square empty and the other squares as before. *)
Theorem getPieceAt_after_write (b : Board) (row col : Z)
    (piece : option Piece) (r c : Z) :
  getPieceAt (setPiece b row col piece) r c =
    (if decide (inRange row col = true /\ r = row /\ c = col)
     then piece else getPieceAt b r c) /\
  getPieceAt (removePiece b row col) r c =
    (if decide (r = row /\ c = col) then None else getPieceAt b r c).
Proof.
  unfold setPiece, removePiece, getPieceAt. split.
  - destruct (inRange row col) eqn:Hin.
    + destruct (decide (r = row /\ c = col)) as [[-> ->]|Hne].
      * rewrite decide_True by done. rewrite Hin. simpl.
        destruct piece; simpl; [by rewrite lookup_insert_eq|by rewrite lookup_delete_eq].
      * rewrite decide_False by tauto.
        destruct (inRange r c); simpl; [|done].
        assert ((row, col) <> (r, c)) by (intros [= -> ->]; tauto).
        destruct piece; simpl; [by rewrite lookup_insert_ne|by rewrite lookup_delete_ne].
    + rewrite decide_False; [done|]. by intros [? _].
  - destruct (decide (r = row /\ c = col)) as [[-> ->]|Hne].
    + destruct (inRange row col); simpl; [by rewrite lookup_delete_eq|done].
    + destruct (inRange row col); [|done].
      destruct (inRange r c); simpl; [|done].
      rewrite lookup_delete_ne; [done|]. intros [= -> ->]. tauto.
Qed.

(** ** Moves of a piece object (Board.ts) *)

Lemma objects_getPieceAt_Some (st : Objects.Store) (row col : Z) (p : Objects.ref) :
  Objects.getPieceAt st row col = Some p <->
  inRange row col = true /\ Objects.cells st !! (row, col) = Some p.
Proof.
  unfold Objects.getPieceAt. destruct (inRange row col); simpl; [tauto|].
  split; [done|]. by intros [? _].
Qed.

(** The board of the fields is read as the state is. *)
Lemma view_getPieceAt (st : Objects.Store) (row col : Z) :
  getPieceAt (Objects.view st) row col = Objects.read st row col.
Proof.
  unfold getPieceAt, Objects.read, Objects.getPieceAt, Objects.view. simpl.
  destruct (negb (inRange row col)); [done|]. by rewrite lookup_fmap.
Qed.

Lemma objects_movePiece_lands (st : Objects.Store) (r c r' c' : Z) (p : Objects.ref) :
  Objects.getPieceAt st r c = Some p ->
  inRange r' c' = true ->
  Objects.movePiece st r c r' c' =
    (Objects.mkStore (<[(r', c') := p]> (delete (r, c) (Objects.cells st)))
       (fun q => if decide (q = p) then promoted (Objects.pieces st p) r'
                 else Objects.pieces st q),
     Completed).
Proof.
  intros [Hin Hp]%objects_getPieceAt_Some Hto. unfold Objects.movePiece.
  by rewrite (inRange_isRow _ _ Hin), Hp, (inRange_isRow _ _ Hto).
Qed.

(** The state in which the object [p] has landed on [(tr, tc)] from
    [(row, col)]: the cells, and what is read on them. *)
Lemma objects_landed (g : gmap (Z * Z) Objects.ref) (old : Objects.ref -> Piece)
    (p : Objects.ref) (piece : Piece) (row col tr tc : Z) :
  inRange tr tc = true ->
  let st := Objects.mkStore g old in
  let st' :=
    Objects.mkStore (<[(tr, tc) := p]> (delete (row, col) g))
      (fun q => if decide (q = p) then piece else old q) in
  (forall r c,
     Objects.getPieceAt st' r c =
       if decide (r = tr /\ c = tc) then Some p
       else if decide (r = row /\ c = col) then None
       else Objects.getPieceAt st r c) /\
  (forall r c,
     Objects.read st' r c =
       if decide (r = tr /\ c = tc) then Some piece
       else if decide (r = row /\ c = col) then None
       else if decide (Objects.getPieceAt st r c = Some p) then Some piece
       else Objects.read st r c).
Proof.
  intros Hto st st'.
  assert (Hcells : forall r c,
     Objects.getPieceAt st' r c =
       if decide (r = tr /\ c = tc) then Some p
       else if decide (r = row /\ c = col) then None
       else Objects.getPieceAt st r c).
  { intros r c. unfold Objects.getPieceAt, st', st. simpl.
    destruct (decide (r = tr /\ c = tc)) as [[-> ->]|Hne1].
    { rewrite Hto. simpl. by rewrite lookup_insert_eq. }
    destruct (inRange r c); simpl.
    2:{ by destruct (decide (r = row /\ c = col)). }
    rewrite lookup_insert_ne by (intros [= ? ?]; subst; intuition).
    destruct (decide (r = row /\ c = col)) as [[-> ->]|Hne2].
    - by rewrite lookup_delete_eq.
    - rewrite lookup_delete_ne; [done|]. intros [= ? ?]; subst; intuition. }
  split; [done|]. intros r c. unfold Objects.read at 1. rewrite Hcells.
  destruct (decide (r = tr /\ c = tc)).
  { simpl. by rewrite decide_True. }
  destruct (decide (r = row /\ c = col)); [done|].
  unfold Objects.read.
  destruct (Objects.getPieceAt st r c) as [q|]; simpl.
  - destruct (decide (q = p)) as [->|Hq].
    + by rewrite decide_True.
    + rewrite decide_False by congruence. done.
  - done.
Qed.

Lemma unshared_delete (g : gmap (Z * Z) Objects.ref) (old : Objects.ref -> Piece)
    (k : Z * Z) :
  Objects.unshared (Objects.mkStore g old) ->
  Objects.unshared (Objects.mkStore (delete k g) old).
Proof.
  intros H k1 k2 q. simpl.
  intros [_ H1]%lookup_delete_Some [_ H2]%lookup_delete_Some.
  exact (H k1 k2 q H1 H2).
Qed.

(** When no object is shared, [movePiece] on the state is [movePiece]
    on the board of the fields. *)
Lemma objects_movePiece_view (st : Objects.Store) (fr fc tr tc : Z) :
  Objects.unshared st ->
  Objects.unshared (Objects.movePiece st fr fc tr tc).1 /\
  movePiece (Objects.view st) fr fc tr tc =
    (Objects.view (Objects.movePiece st fr fc tr tc).1,
     (Objects.movePiece st fr fc tr tc).2).
Proof.
  destruct st as [g old]. intros Hun.
  unfold movePiece, Objects.movePiece, Objects.view. cbn [grid Objects.cells Objects.pieces].
  destruct (negb (isRow fr)); [done|].
  rewrite lookup_fmap.
  destruct (g !! (fr, fc)) as [p|] eqn:Hp; cbn [fmap option_fmap option_map]; [|done].
  destruct (negb (isRow tr)); cbn [fst snd Objects.cells Objects.pieces].
  { split; [by apply unshared_delete|]. by rewrite fmap_delete. }
  split.
  - intros k1 k2 q. cbn [Objects.cells].
    intros H1 H2.
    apply lookup_insert_Some in H1 as [[? ?]|[Hk1 [Hd1 H1]%lookup_delete_Some]];
      apply lookup_insert_Some in H2 as [[? ?]|[Hk2 [Hd2 H2]%lookup_delete_Some]];
      subst.
    + done.
    + destruct Hd2. exact (Hun _ _ _ Hp H2).
    + destruct Hd1. exact (Hun _ _ _ Hp H1).
    + exact (Hun _ _ _ H1 H2).
  - f_equal. f_equal. apply map_eq. intros k.
    rewrite lookup_fmap.
    destruct (decide (k = (tr, tc))) as [->|Hk].
    { rewrite !lookup_insert_eq. simpl. by rewrite decide_True. }
    rewrite !lookup_insert_ne by done.
    destruct (decide (k = (fr, fc))) as [->|Hk'].
    { by rewrite !lookup_delete_eq. }
    rewrite !lookup_delete_ne by done. rewrite lookup_fmap.
    destruct (g !! k) as [q|] eqn:Hq; simpl; [|done].
    rewrite decide_False; [done|].
    intros ->. apply Hk'. exact (Hun _ _ _ Hq Hp).
Qed.

Lemma onePiece_unshared : Objects.unshared onePiece.
Proof.
  intros k1 k2 q. unfold onePiece, Objects.setPiece. cbn [inRange Objects.cells].
  simpl. rewrite !lookup_insert_Some, !lookup_empty. intuition congruence.
Qed.

(** X2: [movePiece] between two squares of the board, on the grid of
    [Piece] objects.  With no piece on the source it changes nothing.
    With a piece it returns normally; afterwards the destination holds
    the object, whatever stood there before, the source is empty and
    every other cell holds what it held; the object is promoted if it
    is a man that reached its last row, and no other object changes.
    So the destination reads the (promoted) piece, and another square
    reads as before unless it holds the moved object, in which case it
    reads the promoted piece too.  When no object stands on two
    squares, none does afterwards, and the move is [movePiece] on the
    board of the pieces read. *)
Theorem movePiece_squares (st : Objects.Store) (fromRow fromCol toRow toCol : Z) :
  inRange fromRow fromCol = true ->
  inRange toRow toCol = true ->
  match Objects.getPieceAt st fromRow fromCol with
  | None => Objects.movePiece st fromRow fromCol toRow toCol = (st, Completed)
  | Some p =>
      let st' := (Objects.movePiece st fromRow fromCol toRow toCol).1 in
      let piece := promoted (Objects.pieces st p) toRow in
      (Objects.movePiece st fromRow fromCol toRow toCol).2 = Completed /\
      (forall r c,
         Objects.getPieceAt st' r c =
           if decide (r = toRow /\ c = toCol) then Some p
           else if decide (r = fromRow /\ c = fromCol) then None
           else Objects.getPieceAt st r c) /\
      (forall q,
         Objects.pieces st' q = if decide (q = p) then piece else Objects.pieces st q) /\
      (forall r c,
         Objects.read st' r c =
           if decide (r = toRow /\ c = toCol) then Some piece
           else if decide (r = fromRow /\ c = fromCol) then None
           else if decide (Objects.getPieceAt st r c = Some p) then Some piece
           else Objects.read st r c) /\
      (Objects.unshared st ->
       Objects.unshared st' /\
       movePiece (Objects.view st) fromRow fromCol toRow toCol =
         (Objects.view st', Completed))
  end.
Proof.
  intros Hfrom Hto.
  destruct (Objects.getPieceAt st fromRow fromCol) as [p|] eqn:Hp.
  - intros st' piece.
    pose proof (objects_movePiece_view st fromRow fromCol toRow toCol) as Hview.
    subst st'. rewrite (objects_movePiece_lands st _ _ _ _ p Hp Hto) in *.
    cbn [fst snd] in *. destruct st as [g old].
    destruct (objects_landed g old p piece fromRow fromCol toRow toCol Hto)
      as [Hcells Hread].
    repeat split; done || tauto.
  - unfold Objects.getPieceAt in Hp. rewrite Hfrom in Hp. simpl in Hp.
    unfold Objects.movePiece. by rewrite (inRange_isRow _ _ Hfrom), Hp.
Qed.

Lemma movePiece_squares_witness :
  Objects.read (Objects.movePiece sharedPiece 6 1 7 2).1 7 2 = Some (mkPiece Red King) /\
  Objects.read (Objects.movePiece sharedPiece 6 1 7 2).1 2 1 = Some (mkPiece Red King) /\
  Objects.read sharedPiece 2 1 = Some (mkPiece Red Regular) /\
  movePiece (Objects.view onePiece) 6 1 7 2 =
    (Objects.view (Objects.movePiece onePiece 6 1 7 2).1, Completed).
Proof.
  pose proof (movePiece_squares sharedPiece 6 1 7 2 eq_refl eq_refl)
    as (_ & _ & _ & Hread & _).
  pose proof (movePiece_squares onePiece 6 1 7 2 eq_refl eq_refl)
    as (_ & _ & _ & _ & Hview).
  split; [exact (Hread 7 2)|]. split; [exact (Hread 2 1)|]. split; [reflexivity|].
  exact (proj2 (Hview onePiece_unshared)).
Defined.

(** ** Copies (Board.ts) *)

Lemma getPieces_ext (b1 b2 : Board) (who : Player) :
  (forall r c, getPieceAt b1 r c = getPieceAt b2 r c) ->
  getPieces b1 who = getPieces b2 who.
Proof.
  intros H. unfold getPieces.
  apply Forall_bind_ext, Forall_forall. intros row Hrow%elem_of_upto.
  apply Forall_bind_ext, Forall_forall. intros col Hcol%elem_of_upto.
  specialize (H row col). unfold getPieceAt in H.
  replace (inRange row col) with true in H
    by (symmetry; apply inRange_true; lia).
  simpl in H. by rewrite H.
Qed.

Lemma getAllValidMoves_ext (b1 b2 : Board) (who : Player) :
  (forall r c, getPieceAt b1 r c = getPieceAt b2 r c) ->
  getAllValidMoves b1 who = getAllValidMoves b2 who.
Proof.
  intros H. rewrite !getAllValidMoves_eq. unfold capturesOf, stepsOf.
  rewrite (getPieces_ext b1 b2 who H).
  assert (Hc : getPieces b2 who ≫= pieceCaptures b1 = getPieces b2 who ≫= pieceCaptures b2).
  { apply list_bind_ext; [|done]. intros [[piece row] col]. simpl.
    by rewrite (getCaptureMoves_ext b1 b2). }
  assert (Hs : getPieces b2 who ≫= pieceSteps b1 = getPieces b2 who ≫= pieceSteps b2).
  { apply list_bind_ext; [|done]. intros [[piece row] col]. simpl.
    by rewrite (getRegularMoves_ext b1 b2). }
  by rewrite Hc, Hs.
Qed.

(** X3: a copy reads as its original: the same piece on every square,
    the same pieces of each player in the same order, the same legal
    moves and the same evaluation; all its pieces are on the 64
    squares, and copying it again changes nothing. *)
Theorem clone_reads (b : Board) (who : Player) :
  (forall row col, getPieceAt (clone b) row col = getPieceAt b row col) /\
  getPieces (clone b) who = getPieces b who /\
  getAllValidMoves (clone b) who = getAllValidMoves b who /\
  evaluate (clone b) who = evaluate b who /\
  onBoard (clone b) /\
  clone (clone b) = clone b.
Proof.
  assert (H : forall r c, getPieceAt (clone b) r c = getPieceAt b r c)
    by apply getPieceAt_clone.
  split; [done|]. split; [by apply getPieces_ext|].
  split; [by apply getAllValidMoves_ext|]. split.
  - unfold evaluate, evaluateWith.
    by rewrite !(getPieces_ext (clone b) b _ H).
  - split; [apply clone_onBoard|]. apply clone_id, clone_onBoard.
Qed.

(** ** The scan of the pieces (Board.ts) *)

Lemma upto_0_8 : upto 0 8 = [0; 1; 2; 3; 4; 5; 6; 7].
Proof. reflexivity. Qed.

Lemma scanRow_sorted (b : Board) (who : Player) (row : Z) (cols : list Z) :
  StronglySorted Z.lt cols ->
  StronglySorted rowMajor
    (cols ≫= fun col =>
       match grid b !! (row, col) with
       | Some piece =>
           if decide (player piece = who) then [(piece, row, col)] else []
       | None => []
       end).
Proof.
  induction 1 as [|col cols Hs IH Hall]; [constructor|].
  rewrite bind_cons. apply StronglySorted_app_2; [| |done].
  - intros x1 x2 H1 (col' & H2 & Hcol')%list_elem_of_bind.
    rewrite Forall_forall in Hall. specialize (Hall _ Hcol').
    destruct (grid b !! (row, col)) as [p|]; [|inversion H1].
    destruct (decide (player p = who)); [|inversion H1].
    apply list_elem_of_singleton in H1 as ->.
    destruct (grid b !! (row, col')) as [p'|]; [|inversion H2].
    destruct (decide (player p' = who)); [|inversion H2].
    apply list_elem_of_singleton in H2 as ->.
    right. simpl. done.
  - destruct (grid b !! (row, col)) as [p|]; [|constructor].
    destruct (decide (player p = who)); repeat constructor.
Qed.

Lemma scanRow_row (b : Board) (who : Player) (row : Z) (cols : list Z)
    (x : Piece * Z * Z) :
  x ∈ (cols ≫= fun col =>
         match grid b !! (row, col) with
         | Some piece =>
             if decide (player piece = who) then [(piece, row, col)] else []
         | None => []
         end) ->
  x.1.2 = row.
Proof.
  intros (col & H & _)%list_elem_of_bind.
  destruct (grid b !! (row, col)) as [p|]; [|inversion H].
  destruct (decide (player p = who)); [|inversion H].
  by apply list_elem_of_singleton in H as ->.
Qed.

Lemma scanRows_sorted (b : Board) (who : Player) (rows cols : list Z) :
  StronglySorted Z.lt rows ->
  StronglySorted Z.lt cols ->
  StronglySorted rowMajor
    (rows ≫= fun row => cols ≫= fun col =>
       match grid b !! (row, col) with
       | Some piece =>
           if decide (player piece = who) then [(piece, row, col)] else []
       | None => []
       end).
Proof.
  intros Hrows Hcols. induction Hrows as [|row rows Hs IH Hall]; [constructor|].
  rewrite bind_cons. apply StronglySorted_app_2; [| |done].
  - intros x1 x2 H1%scanRow_row (row' & H2%scanRow_row & Hrow')%list_elem_of_bind.
    rewrite Forall_forall in Hall. specialize (Hall _ Hrow').
    left. lia.
  - by apply scanRow_sorted.
Qed.

(** X4: [getPieces] lists exactly the pieces of the player that stand
    on the 64 squares, each once, in row-major order of their
    squares. *)
Theorem getPieces_scan (b : Board) (who : Player) :
  (forall piece row col,
     (piece, row, col) ∈ getPieces b who <->
     getPieceAt b row col = Some piece /\ player piece = who) /\
  StronglySorted rowMajor (getPieces b who) /\
  NoDup (getPieces b who).
Proof.
  split; [intros; apply elem_of_getPieces|].
  assert (Hsorted : StronglySorted rowMajor (getPieces b who)).
  { unfold getPieces. apply scanRows_sorted; rewrite upto_0_8;
      repeat (constructor; [|repeat constructor; lia]); constructor. }
  split; [done|].
  assert (Hirr : forall l : list (Piece * Z * Z), StronglySorted rowMajor l -> NoDup l).
  { induction 1 as [|x l Hs IH Hall]; constructor; [|done].
    intros Hin. rewrite Forall_forall in Hall. specialize (Hall _ Hin).
    unfold rowMajor in Hall. lia. }
  by apply Hirr.
Qed.

Lemma newBoard_cells (row col : Z) :
  getPieceAt newBoard row col =
    if inRange row col && ((row + col) mod 2 =? 1)
    then if row <? 3 then Some (mkPiece Red Regular)
         else if 5 <=? row then Some (mkPiece Black Regular)
         else None
    else None.
Proof.
  unfold getPieceAt. destruct (inRange row col) eqn:Hin; [|done].
  apply inRange_true in Hin as [Hr Hc].
  assert (Hrow : row ∈ upto 0 8) by (apply elem_of_upto; lia).
  assert (Hcol : col ∈ upto 0 8) by (apply elem_of_upto; lia).
  rewrite upto_0_8 in Hrow, Hcol.
  repeat (apply elem_of_cons in Hrow as [->|Hrow]);
    [..|inversion Hrow];
    repeat (apply elem_of_cons in Hcol as [->|Hcol]);
    try (inversion Hcol); vm_compute; reflexivity.
Qed.

(** X5: the starting position of [new Board()]: a red man on every
    dark square of rows 0 to 2, a black man on every dark square of rows
    5 to 7, and nothing anywhere else. *)
Theorem newBoard_layout (row col : Z) :
  getPieceAt newBoard row col =
    if inRange row col && ((row + col) mod 2 =? 1)
    then if row <? 3 then Some (mkPiece Red Regular)
         else if 5 <=? row then Some (mkPiece Black Regular)
         else None
    else None.
Proof. apply newBoard_cells. Qed.

(** ** The moves of a square (Move.ts) *)

(** X6: [getValidMoves] of an empty square (or of a square outside the
    board) is empty.  Every move it returns lands on an empty square of
    the board, one diagonal step away if it is a step and two if it is
    a capture, and all the moves it returns for a square are of one
    kind; when the piece has a capture, they are its captures. *)
Theorem getValidMoves_shape (b : Board) (row col : Z) :
  (getPieceAt b row col = None -> getValidMoves b row col = []) /\
  (forall m, m ∈ getValidMoves b row col ->
     inRange (toRow m) (toCol m) = true /\
     getPieceAt b (toRow m) (toCol m) = None /\
     Z.abs (toRow m - row) = Z.abs (toCol m - col) /\
     Z.abs (toRow m - row) = match moveType m with Step => 1 | Capture => 2 end) /\
  (forall m m', m ∈ getValidMoves b row col -> m' ∈ getValidMoves b row col ->
     moveType m = moveType m') /\
  (forall piece, getPieceAt b row col = Some piece ->
     getCaptureMoves b row col (player piece) (type piece) <> [] ->
     getValidMoves b row col = getCaptureMoves b row col (player piece) (type piece)).
Proof.
  split; [|split; [|split]].
  - unfold getValidMoves. by intros ->.
  - intros m (piece & Hp & [Hm|Hm])%getValidMoves_inv.
    + apply getCaptureMoves_inv in Hm
        as (dr & dc & ? & Hd%getDirections_unit & -> & ? & _ & _ & ?). simpl.
      repeat split; [done..| |]; lia.
    + apply getRegularMoves_inv in Hm
        as (dr & dc & Hd%getDirections_unit & -> & ? & ?). simpl.
      repeat split; [done..| |]; lia.
  - unfold getValidMoves. destruct (getPieceAt b row col) as [piece|]; [|inversion 1].
    destruct (getCaptureMoves b row col (player piece) (type piece)) as [|c cs] eqn:Hc.
    + intros m m' (? & ? & _ & -> & _)%getRegularMoves_inv
        (? & ? & _ & -> & _)%getRegularMoves_inv. done.
    + rewrite <- Hc.
      intros m m' (? & ? & ? & _ & -> & _)%getCaptureMoves_inv
        (? & ? & ? & _ & -> & _)%getCaptureMoves_inv. done.
  - intros piece Hp Hc. unfold getValidMoves. rewrite Hp.
    by destruct (getCaptureMoves b row col (player piece) (type piece)).
Qed.

Lemma getValidMoves_shape_witness :
  getValidMoves empty 3 3 = [] /\
  getValidMoves forcedBoard 2 5 =
    getCaptureMoves forcedBoard 2 5 Red Regular.
Proof.
  split.
  - apply (proj1 (getValidMoves_shape empty 3 3)). reflexivity.
  - apply (proj2 (proj2 (proj2 (getValidMoves_shape forcedBoard 2 5)))
             (mkPiece Red Regular)); [reflexivity|vm_compute; discriminate].
Defined.

(** X7: the moves of [getAllValidMoves] from a square are the moves of
    [getValidMoves] for that square, less the steps when some piece of
    the player has a capture. *)
Theorem getAllValidMoves_per_square (b : Board) (who : Player) (pm : PieceMove) :
  pm ∈ getAllValidMoves b who <->
  (exists piece,
     getPieceAt b (fromRow pm) (fromCol pm) = Some piece /\ player piece = who) /\
  move pm ∈ getValidMoves b (fromRow pm) (fromCol pm) /\
  (moveType (move pm) = Step ->
   forall piece row col,
     getPieceAt b row col = Some piece -> player piece = who ->
     getCaptureMoves b row col (player piece) (type piece) = []).
Proof.
  rewrite getAllValidMoves_eq. split.
  - destruct (capturesOf b who) as [|c cs] eqn:E.
    + intros (piece & Hp & Hw & Hm)%elem_of_stepsOf.
      pose proof (proj1 (capturesOf_nil b who) E) as Hnone.
      split; [eauto|]. split; [|done].
      unfold getValidMoves. rewrite Hp, (Hnone _ _ _ Hp Hw). done.
    + rewrite <- E. intros (piece & Hp & Hw & Hm)%elem_of_capturesOf.
      split; [eauto|]. split.
      * unfold getValidMoves. rewrite Hp.
        destruct (getCaptureMoves b (fromRow pm) (fromCol pm) (player piece) (type piece));
          [inversion Hm|done].
      * apply getCaptureMoves_inv in Hm as (? & ? & ? & _ & -> & _). done.
  - intros ((piece & Hp & Hw) & Hm & Hstep).
    apply getValidMoves_inv in Hm as (p & Hp' & Hm).
    assert (p = piece) as -> by congruence.
    destruct Hm as [Hm|Hm].
    + assert (Hin : pm ∈ capturesOf b who) by (apply elem_of_capturesOf; eauto).
      destruct (capturesOf b who); [inversion Hin|done].
    + assert (Hnil : capturesOf b who = []).
      { apply capturesOf_nil, Hstep.
        by apply getRegularMoves_inv in Hm as (? & ? & _ & -> & _). }
      rewrite Hnil. apply elem_of_stepsOf. eauto.
Qed.

(** ** The effect of a move (Move.ts) *)

Lemma execute_lookup (b : Board) (row col : Z) (piece : Piece) (m : Move) :
  getPieceAt b row col = Some piece ->
  m ∈ getCaptureMoves b row col (player piece) (type piece) \/
  m ∈ getRegularMoves b row col (player piece) (type piece) ->
  (execute b row col m).2 = Completed /\
  forall r c,
    getPieceAt (execute b row col m).1 r c =
      if decide (r = toRow m /\ c = toCol m) then Some (promoted piece (toRow m))
      else if decide (r = row /\ c = col) then None
      else if decide (moveType m = Capture /\
                      2 * r = row + toRow m /\ 2 * c = col + toCol m) then None
      else getPieceAt b r c.
Proof.
  intros Hp Hm.
  destruct (execute_valid b row col piece m Hp Hm) as (Hto & g & -> & Hg).
  split; [done|]. intros r c. unfold getPieceAt at 1. simpl.
  destruct (decide (r = toRow m /\ c = toCol m)) as [[-> ->]|Hne1].
  { rewrite Hto. simpl. by rewrite lookup_insert_eq. }
  rewrite lookup_insert_ne by (intros [= ? ?]; subst; intuition).
  destruct (decide (r = row /\ c = col)) as [[-> ->]|Hne2].
  { rewrite lookup_delete_eq. by destruct (negb _). }
  rewrite lookup_delete_ne by (intros [= ? ?]; subst; intuition).
  destruct Hm as [Hm|Hm].
  - apply getCaptureMoves_inv in Hm as (dr & dc & ? & _ & -> & _).
    simpl in *. subst g.
    destruct (decide (Capture = Capture /\
                      2 * r = row + (row + 2 * dr) /\ 2 * c = col + (col + 2 * dc)))
      as [(_ & Hr & Hc)|Hne3].
    + assert (r = row + dr) as -> by lia. assert (c = col + dc) as -> by lia.
      rewrite lookup_delete_eq. by destruct (negb _).
    + rewrite lookup_delete_ne; [done|]. intros [= <- <-]. apply Hne3.
      repeat split; lia.
  - apply getRegularMoves_inv in Hm as (dr & dc & _ & -> & _).
    simpl in *. by subst g.
Qed.

Lemma objects_removePiece_view (st : Objects.Store) (row col : Z) :
  (Objects.unshared st -> Objects.unshared (Objects.removePiece st row col)) /\
  removePiece (Objects.view st) row col = Objects.view (Objects.removePiece st row col).
Proof.
  destruct st as [g old]. unfold removePiece, Objects.removePiece, Objects.view.
  cbn [grid Objects.cells Objects.pieces].
  destruct (inRange row col); cbn [Objects.cells Objects.pieces]; [|done].
  split; [apply unshared_delete|]. by rewrite fmap_delete.
Qed.

(** When no object is shared, [Move.execute] on the state is
    [Move.execute] on the board of the fields. *)
Lemma objects_execute_view (st : Objects.Store) (row col : Z) (m : Move) :
  Objects.unshared st ->
  Objects.unshared (Objects.execute st row col m).1 /\
  execute (Objects.view st) row col m =
    (Objects.view (Objects.execute st row col m).1,
     (Objects.execute st row col m).2).
Proof.
  intros Hun. unfold execute, Objects.execute.
  destruct (moveType m), (capturedRow m) as [cr|], (capturedCol m) as [cc|];
    try by apply objects_movePiece_view.
  destruct (objects_removePiece_view st cr cc) as [Hun' ->].
  apply objects_movePiece_view. by apply Hun'.
Qed.

(** A move that the validator generated for the object on [(row, col)]
    is carried out without a throw: the jumped cell, if any, is
    cleared and the object lands. *)
Lemma objects_execute_valid (g : gmap (Z * Z) Objects.ref) (old : Objects.ref -> Piece)
    (row col : Z) (p : Objects.ref) (m : Move) :
  Objects.getPieceAt (Objects.mkStore g old) row col = Some p ->
  m ∈ getValidMoves (Objects.view (Objects.mkStore g old)) row col ->
  inRange (toRow m) (toCol m) = true /\
  exists g',
    Objects.execute (Objects.mkStore g old) row col m =
      (Objects.mkStore (<[(toRow m, toCol m) := p]> (delete (row, col) g'))
         (fun q => if decide (q = p) then promoted (old p) (toRow m) else old q),
       Completed) /\
    forall r c,
      Objects.getPieceAt (Objects.mkStore g' old) r c =
        if decide (moveType m = Capture /\
                   2 * r = row + toRow m /\ 2 * c = col + toCol m) then None
        else Objects.getPieceAt (Objects.mkStore g old) r c.
Proof.
  intros Hp (piece & _ & Hm)%getValidMoves_inv.
  destruct Hm as [Hm|Hm].
  - apply getCaptureMoves_inv in Hm as (dr & dc & jumped & Hd & -> & Hland & Hj & _).
    apply getDirections_unit in Hd.
    apply getPieceAt_Some in Hj as [Hjin _].
    split; [done|]. exists (delete (row + dr, col + dc) g). split.
    + unfold Objects.execute. cbn [moveType capturedRow capturedCol toRow toCol].
      unfold Objects.removePiece. rewrite Hjin. cbn [Objects.cells Objects.pieces].
      rewrite (objects_movePiece_lands _ _ _ _ _ p); [done| |done].
      apply objects_getPieceAt_Some in Hp as [Hin Hp].
      apply objects_getPieceAt_Some. split; [done|]. cbn [Objects.cells] in *.
      rewrite lookup_delete_ne; [done|]. intros [= ? ?]. lia.
    + intros r c. unfold Objects.getPieceAt. cbn [Objects.cells moveType toRow toCol].
      destruct (decide (Capture = Capture /\
                        2 * r = row + (row + 2 * dr) /\ 2 * c = col + (col + 2 * dc)))
        as [(_ & Hr & Hc)|Hne].
      * assert (r = row + dr) as -> by lia. assert (c = col + dc) as -> by lia.
        rewrite lookup_delete_eq. by destruct (negb _).
      * rewrite lookup_delete_ne; [done|]. intros [= <- <-]. apply Hne.
        repeat split; lia.
  - apply getRegularMoves_inv in Hm as (dr & dc & _ & -> & Hland & _).
    split; [done|]. exists g. split.
    + unfold Objects.execute. cbn [moveType capturedRow capturedCol toRow toCol].
      by rewrite (objects_movePiece_lands _ _ _ _ _ p).
    + intros r c. cbn [moveType]. rewrite decide_False; [done|]. by intros [? _].
Qed.

(** X8: playing a move that the validator generated for the piece on
    [(row, col)], on the grid of [Piece] objects, never throws.
    Afterwards the destination holds the object, the source is empty,
    the square jumped by a capture is empty and every other cell holds
    what it held; the object is promoted if it is a man on its last
    row, and no other object changes.  So the destination reads the
    (promoted) piece, and another square reads as before unless it
    holds the moved object, in which case it reads the promoted piece
    too.  When no object stands on two squares, none does afterwards,
    and the move is [Move.execute] on the board of the pieces read. *)
Theorem execute_squares (st : Objects.Store) (row col : Z) (p : Objects.ref)
    (m : Move) :
  Objects.getPieceAt st row col = Some p ->
  m ∈ getValidMoves (Objects.view st) row col ->
  let st' := (Objects.execute st row col m).1 in
  let piece := promoted (Objects.pieces st p) (toRow m) in
  (Objects.execute st row col m).2 = Completed /\
  (forall r c,
     Objects.getPieceAt st' r c =
       if decide (r = toRow m /\ c = toCol m) then Some p
       else if decide (r = row /\ c = col) then None
       else if decide (moveType m = Capture /\
                       2 * r = row + toRow m /\ 2 * c = col + toCol m) then None
       else Objects.getPieceAt st r c) /\
  (forall q,
     Objects.pieces st' q = if decide (q = p) then piece else Objects.pieces st q) /\
  (forall r c,
     Objects.read st' r c =
       if decide (r = toRow m /\ c = toCol m) then Some piece
       else if decide (r = row /\ c = col) then None
       else if decide (moveType m = Capture /\
                       2 * r = row + toRow m /\ 2 * c = col + toCol m) then None
       else if decide (Objects.getPieceAt st r c = Some p) then Some piece
       else Objects.read st r c) /\
  (Objects.unshared st ->
   Objects.unshared st' /\
   execute (Objects.view st) row col m = (Objects.view st', Completed)).
Proof.
  intros Hp Hm st' piece.
  pose proof (objects_execute_view st row col m) as Hview.
  destruct st as [g old].
  destruct (objects_execute_valid g old row col p m Hp Hm) as (Hto & g' & Hexec & Hg').
  subst st'. rewrite Hexec in *. cbn [fst snd Objects.pieces] in *.
  destruct (objects_landed g' old p piece row col (toRow m) (toCol m) Hto)
    as [Hcells Hread].
  split; [done|]. split; [|split; [done|split; [|done]]].
  - intros r c. rewrite Hcells. by rewrite Hg'.
  - intros r c. rewrite Hread.
    destruct (decide (r = toRow m /\ c = toCol m)); [done|].
    destruct (decide (r = row /\ c = col)); [done|].
    unfold Objects.read. rewrite Hg'.
    by destruct (decide (moveType m = Capture /\
                         2 * r = row + toRow m /\ 2 * c = col + toCol m)).
Qed.

Lemma execute_squares_witness :
  Objects.read (Objects.execute sharedPiece 6 1 (mkMove 7 2 Step None None)).1 7 2
    = Some (mkPiece Red King) /\
  Objects.read (Objects.execute sharedPiece 6 1 (mkMove 7 2 Step None None)).1 2 1
    = Some (mkPiece Red King) /\
  Objects.read sharedPiece 2 1 = Some (mkPiece Red Regular) /\
  execute (Objects.view onePiece) 6 1 (mkMove 7 2 Step None None) =
    (Objects.view (Objects.execute onePiece 6 1 (mkMove 7 2 Step None None)).1,
     Completed).
Proof.
  pose proof (execute_squares sharedPiece 6 1 1%positive (mkMove 7 2 Step None None))
    as H.
  destruct H as (_ & _ & _ & Hread & _); [reflexivity|vm_compute; right; left|].
  pose proof (execute_squares onePiece 6 1 1%positive (mkMove 7 2 Step None None))
    as H.
  destruct H as (_ & _ & _ & _ & Hview); [reflexivity|vm_compute; right; left|].
  split; [exact (Hread 7 2)|]. split; [exact (Hread 2 1)|]. split; [reflexivity|].
  exact (proj2 (Hview onePiece_unshared)).
Defined.

(** ** Legal moves played on a copy *)

(** The squares after a legal move, read on the original board. *)
Lemma play_lookup (b : Board) (who : Player) (pm : PieceMove) :
  pm ∈ getAllValidMoves b who ->
  exists piece,
    getPieceAt b (fromRow pm) (fromCol pm) = Some piece /\
    player piece = who /\
    (move pm ∈ getCaptureMoves b (fromRow pm) (fromCol pm) (player piece) (type piece) \/
     move pm ∈ getRegularMoves b (fromRow pm) (fromCol pm) (player piece) (type piece)) /\
    forall r c,
      getPieceAt (play b pm) r c =
        if decide (r = toRow (move pm) /\ c = toCol (move pm))
        then Some (promoted piece (toRow (move pm)))
        else if decide (r = fromRow pm /\ c = fromCol pm) then None
        else if decide (moveType (move pm) = Capture /\
                        2 * r = fromRow pm + toRow (move pm) /\
                        2 * c = fromCol pm + toCol (move pm)) then None
        else getPieceAt b r c.
Proof.
  intros (piece & Hp & Hw & Hm)%getAllValidMoves_inv.
  exists piece. split; [done|]. split; [done|]. split; [done|].
  assert (Hext : forall r c, getPieceAt b r c = getPieceAt (clone b) r c)
    by (intros; by rewrite getPieceAt_clone).
  rewrite (getCaptureMoves_ext b (clone b)), (getRegularMoves_ext b (clone b)) in Hm
    by done.
  rewrite Hext in Hp.
  destruct (execute_lookup (clone b) _ _ piece _ Hp Hm) as [_ H].
  intros r c. unfold play. rewrite H. by rewrite <- Hext.
Qed.

(** X9: the pieces stay on the dark squares: the starting position has
    its pieces on dark squares only, and a legal move played on a board
    with its pieces on dark squares leaves them on dark squares. *)
Theorem darkOnly_kept :
  darkOnly newBoard /\
  forall b who pm,
    darkOnly b -> pm ∈ getAllValidMoves b who -> darkOnly (play b pm).
Proof.
  split.
  - intros row col. rewrite newBoard_cells.
    destruct (inRange row col); simpl; [|by intros [? ?]].
    destruct (Z.eqb_spec ((row + col) mod 2) 1); [done|by intros [? ?]].
  - intros b who pm Hdark (piece & Hp & _ & Hm & Hl)%play_lookup row col.
    rewrite Hl.
    assert (Hsrc : (fromRow pm + fromCol pm) mod 2 = 1) by (apply Hdark; eauto).
    destruct (decide (row = toRow (move pm) /\ col = toCol (move pm))) as [[-> ->]|_].
    + intros _. destruct Hm as [Hm|Hm].
      * apply getCaptureMoves_inv in Hm as (dr & dc & ? & Hd%getDirections_unit & -> & _).
        simpl.
        replace (fromRow pm + 2 * dr + (fromCol pm + 2 * dc))
          with (fromRow pm + fromCol pm + (dr + dc) * 2) by lia.
        by rewrite Z.mod_add.
      * apply getRegularMoves_inv in Hm as (dr & dc & Hd%getDirections_unit & -> & _).
        simpl.
        assert (exists k, dr + dc = k * 2) as [k Hk]
          by (destruct Hd as [[-> | ->] [-> | ->]];
              [exists 1 | exists 0 | exists 0 | exists (-1)]; lia).
        replace (fromRow pm + dr + (fromCol pm + dc))
          with (fromRow pm + fromCol pm + k * 2) by lia.
        by rewrite Z.mod_add.
    + destruct (decide (row = fromRow pm /\ col = fromCol pm)); [by intros [? ?]|].
      destruct (decide (moveType (move pm) = Capture /\ _)); [by intros [? ?]|].
      apply Hdark.
Qed.

Lemma darkOnly_kept_witness :
  darkOnly (play newBoard (mkPieceMove 2 1 (mkMove 3 0 Step None None))).
Proof.
  destruct darkOnly_kept as [Hstart Hkept].
  apply (Hkept newBoard Red); [exact Hstart|]. vm_compute. left.
Defined.

Lemma length_same_elements {A} (l k : list A) :
  NoDup l -> NoDup k -> (forall x, x ∈ l <-> x ∈ k) -> length l = length k.
Proof. intros Hl Hk H. by apply Permutation_length, NoDup_Permutation. Qed.

Lemma getPieces_NoDup (b : Board) (who : Player) : NoDup (getPieces b who).
Proof.
  assert (Hirr : forall l : list (Piece * Z * Z), StronglySorted rowMajor l -> NoDup l).
  { induction 1 as [|x l Hs IH Hall]; constructor; [|done].
    intros Hin. rewrite Forall_forall in Hall. specialize (Hall _ Hin).
    unfold rowMajor in Hall. lia. }
  apply Hirr. unfold getPieces. apply scanRows_sorted; rewrite upto_0_8;
    repeat (constructor; [|repeat constructor; lia]); constructor.
Qed.

Section Counting.
(** A board [b'] that is [b] after the piece on [(fr, fc)] went to the
    empty square [(tr, tc)] and the squares [gone] were cleared. *)
Variables (b b' : Board) (who : Player) (piece landed : Piece).
Variables (fr fc tr tc : Z) (gone : Z -> Z -> Prop).
Context `{!forall r c, Decision (gone r c)}.
Hypothesis Hsrc : getPieceAt b fr fc = Some piece.
Hypothesis Hwho : player piece = who.
Hypothesis Hlanded : player landed = who.
Hypothesis Hdest : getPieceAt b tr tc = None.
Hypothesis Hafter : forall r c,
  getPieceAt b' r c =
    if decide (r = tr /\ c = tc) then Some landed
    else if decide (r = fr /\ c = fc) then None
    else if decide (gone r c) then None
    else getPieceAt b r c.

Lemma moved_apart : ~ (tr = fr /\ tc = fc).
Proof. intros [-> ->]. congruence. Qed.

Lemma mover_count :
  (forall r c q, gone r c -> getPieceAt b r c = Some q -> player q <> who) ->
  length (getPieces b' who) = length (getPieces b who).
Proof.
  intros Hgone. pose proof moved_apart as Hne.
  assert (Hlen : length ((piece, fr, fc) :: getPieces b' who) =
                 length ((landed, tr, tc) :: getPieces b who));
    [|simpl in Hlen; lia].
  apply length_same_elements.
  - constructor; [|apply getPieces_NoDup].
    rewrite elem_of_getPieces, Hafter.
    rewrite decide_False by (intros [? ?]; apply Hne; split; congruence).
    rewrite decide_True by done. by intros [? _].
  - constructor; [|apply getPieces_NoDup].
    rewrite elem_of_getPieces, Hdest. by intros [? _].
  - intros [[q r] c]. rewrite !elem_of_cons, !elem_of_getPieces, Hafter.
    destruct (decide (r = tr /\ c = tc)) as [[-> ->]|Hnd].
    { rewrite Hdest. split.
      - intros [[= _ ? ?]|[[= <-] _]]; [exfalso; intuition congruence|by left].
      - intros [[= ->]|[? _]]; [by right|done]. }
    destruct (decide (r = fr /\ c = fc)) as [[-> ->]|Hns].
    { rewrite Hsrc. split.
      - intros [[= ->]|[? _]]; [by right|done].
      - intros [[= _ ? ?]|[[= <-] _]]; [exfalso; intuition congruence|by left]. }
    destruct (decide (gone r c)) as [Hg|Hng].
    { split.
      - intros [[= _ ? ?]|[? _]]; [exfalso; intuition congruence|done].
      - intros [[= _ ? ?]|[Hq Hpl]]; [exfalso; intuition congruence|]. by destruct (Hgone r c q). }
    split.
    + intros [[= _ ? ?]|?]; [exfalso; intuition congruence|by right].
    + intros [[= _ ? ?]|?]; [exfalso; intuition congruence|by right].
Qed.

Lemma other_count_same (other : Player) :
  other <> who ->
  (forall r c, ~ gone r c) ->
  length (getPieces b' other) = length (getPieces b other).
Proof.
  intros Hother Hgone. apply length_same_elements; try apply getPieces_NoDup.
  intros [[q r] c]. rewrite !elem_of_getPieces, Hafter.
  destruct (decide (r = tr /\ c = tc)) as [[-> ->]|Hnd].
  { rewrite Hdest. split; [|by intros [? _]].
    intros [[= <-] Hpl]. congruence. }
  destruct (decide (r = fr /\ c = fc)) as [[-> ->]|Hns].
  { rewrite Hsrc. split; [by intros [? _]|].
    intros [[= <-] Hpl]. congruence. }
  destruct (decide (gone r c)) as [Hg|Hng]; [by destruct (Hgone r c)|done].
Qed.

Lemma other_count_less (other : Player) (jr jc : Z) (jumped : Piece) :
  other <> who ->
  (forall r c, gone r c <-> r = jr /\ c = jc) ->
  getPieceAt b jr jc = Some jumped ->
  player jumped = other ->
  length (getPieces b other) = S (length (getPieces b' other)).
Proof.
  intros Hother Hgone Hj Hjo.
  assert (Hnd : ~ (jr = tr /\ jc = tc)) by (intros [-> ->]; congruence).
  assert (Hns : ~ (jr = fr /\ jc = fc)) by (intros [-> ->]; congruence).
  change (length (getPieces b other) =
          length ((jumped, jr, jc) :: getPieces b' other)).
  apply length_same_elements.
  - apply getPieces_NoDup.
  - constructor; [|apply getPieces_NoDup].
    rewrite elem_of_getPieces, Hafter.
    rewrite decide_False by done. rewrite decide_False by done.
    rewrite decide_True by (by apply Hgone). by intros [? _].
  - intros [[q r] c]. rewrite !elem_of_cons, !elem_of_getPieces, Hafter.
    destruct (decide (r = tr /\ c = tc)) as [[-> ->]|Hnd'].
    { rewrite Hdest. split; [by intros [? _]|].
      intros [[= _ ? ?]|[[= <-] ?]]; [exfalso; intuition congruence|congruence]. }
    destruct (decide (r = fr /\ c = fc)) as [[-> ->]|Hns'].
    { rewrite Hsrc. split.
      - intros [[= <-] ?]. congruence.
      - intros [[= _ ? ?]|[? _]]; [exfalso; intuition congruence|done]. }
    destruct (decide (gone r c)) as [Hg|Hng].
    { apply Hgone in Hg as [-> ->]. rewrite Hj. split.
      - intros [[= <-] _]. by left.
      - intros [[= ->]|[? _]]; [by split|done]. }
    split; [by right|].
    intros [[= _ ? ?]|?]; [|done]. exfalso. apply Hng, Hgone. done.
Qed.
End Counting.

(** X10: material changes by captures only.  After a legal move of a
    player, the player has as many pieces as before; the opponent has
    one piece less after a capture and as many as before after a
    step. *)
Theorem material_after_move (b : Board) (who : Player) (pm : PieceMove) :
  pm ∈ getAllValidMoves b who ->
  length (getPieces (play b pm) who) = length (getPieces b who) /\
  length (getPieces b (opponentOf who)) =
    (length (getPieces (play b pm) (opponentOf who)) +
     match moveType (move pm) with Capture => 1 | Step => 0 end)%nat.
Proof.
  intros (piece & Hp & Hw & Hm & Hl)%play_lookup.
  assert (Hopp : opponentOf who <> who) by (by destruct who).
  assert (Hprom : player (promoted piece (toRow (move pm))) = who)
    by (by rewrite promoted_player).
  destruct Hm as [Hm|Hm].
  - apply getCaptureMoves_inv in Hm
      as (dr & dc & jumped & Hd%getDirections_unit & Em & _ & Hj & Hjw & Hland).
    assert (Hjo : player jumped = opponentOf who)
      by (destruct (player jumped), who, (player piece); done).
    rewrite Em in *. simpl in *. split.
    + eapply (mover_count b (play b pm) who piece _ _ _ _ _
                (fun r c => Capture = Capture /\
                   2 * r = fromRow pm + (fromRow pm + 2 * dr) /\
                   2 * c = fromCol pm + (fromCol pm + 2 * dc)));
        [exact Hp|exact Hw|exact Hprom|exact Hland|exact Hl|].
      intros r c q (_ & Hr & Hc) Hq.
      assert (r = fromRow pm + dr) as -> by lia.
      assert (c = fromCol pm + dc) as -> by lia. congruence.
    + rewrite Nat.add_1_r.
      eapply (other_count_less b (play b pm) who piece _ _ _ _ _
                (fun r c => Capture = Capture /\
                   2 * r = fromRow pm + (fromRow pm + 2 * dr) /\
                   2 * c = fromCol pm + (fromCol pm + 2 * dc)));
        [exact Hp|exact Hw|exact Hprom|exact Hland|exact Hl|exact Hopp| |exact Hj|exact Hjo].
      intros r c. split; [intros (_ & ? & ?)|intros [-> ->]]; repeat split; lia.
  - apply getRegularMoves_inv in Hm as (dr & dc & Hd%getDirections_unit & Em & _ & Hland).
    rewrite Em in *. simpl in *. split.
    + eapply (mover_count b (play b pm) who piece _ _ _ _ _
                (fun r c => Step = Capture /\
                   2 * r = fromRow pm + (fromRow pm + dr) /\
                   2 * c = fromCol pm + (fromCol pm + dc)));
        [exact Hp|exact Hw|exact Hprom|exact Hland|exact Hl|].
      by intros r c q [? _].
    + rewrite Nat.add_0_r. symmetry.
      eapply (other_count_same b (play b pm) who piece _ _ _ _ _
                (fun r c => Step = Capture /\
                   2 * r = fromRow pm + (fromRow pm + dr) /\
                   2 * c = fromCol pm + (fromCol pm + dc)));
        [exact Hp|exact Hw|exact Hprom|exact Hland|exact Hl|exact Hopp|].
      by intros r c [? _].
Qed.

Lemma material_after_move_witness :
  let pm := mkPieceMove 2 5 (mkMove 4 3 Capture (Some 3) (Some 4)) in
  length (getPieces (play forcedBoard pm) Red) = length (getPieces forcedBoard Red) /\
  length (getPieces forcedBoard (opponentOf Red)) =
    (length (getPieces (play forcedBoard pm) (opponentOf Red)) + 1)%nat.
Proof.
  apply (material_after_move forcedBoard Red
           (mkPieceMove 2 5 (mkMove 4 3 Capture (Some 3) (Some 4)))).
  vm_compute. left.
Defined.

(** ** The evaluator (Evaluator.ts) *)

Lemma opponentOf_involutive (who : Player) : opponentOf (opponentOf who) = who.
Proof. by destruct who. Qed.

Lemma foldl_add_shift (g : Piece -> Z -> Z -> Z) (l : list (Piece * Z * Z)) (a : Z) :
  foldl (fun score '(piece, row, col) => score + g piece row col) a l =
    a + foldl (fun score '(piece, row, col) => score + g piece row col) 0 l.
Proof.
  revert a. induction l as [|[[p r] c] l IH]; intros a; simpl; [lia|].
  rewrite (IH (a + g p r c)), (IH (0 + g p r c)). lia.
Qed.

Lemma foldl_sub_shift (g : Piece -> Z -> Z -> Z) (l : list (Piece * Z * Z)) (a : Z) :
  foldl (fun score '(piece, row, col) => score - g piece row col) a l =
    a - foldl (fun score '(piece, row, col) => score + g piece row col) 0 l.
Proof.
  revert a. induction l as [|[[p r] c] l IH]; intros a; simpl; [lia|].
  rewrite (IH (a - g p r c)), (foldl_add_shift g l (0 + g p r c)). lia.
Qed.

(** The evaluation of a position in which both sides have a piece, as
    the difference of the two sums. *)
Lemma evaluateWith_sums (valuation : Piece -> Z -> Z -> Player -> Z)
    (b : Board) (who : Player) :
  getPieces b who <> [] ->
  getPieces b (opponentOf who) <> [] ->
  evaluateWith valuation b who =
    foldl (fun score '(piece, row, col) => score + valuation piece row col who)
      0 (getPieces b who) -
    foldl (fun score '(piece, row, col) => score + valuation piece row col (opponentOf who))
      0 (getPieces b (opponentOf who)).
Proof.
  intros Hown Hopp. unfold evaluateWith.
  destruct (getPieces b (opponentOf who)) as [|o os] eqn:Eo; [done|].
  destruct (getPieces b who) as [|p ps] eqn:Ep; [done|].
  by rewrite (foldl_sub_shift (fun piece row col => valuation piece row col (opponentOf who))).
Qed.

(** X11: the evaluation is zero-sum: when both players have a piece,
    the evaluation for one player is the negation of the evaluation for
    the other. *)
Theorem evaluate_zero_sum (b : Board) (who : Player) :
  getPieces b who <> [] ->
  getPieces b (opponentOf who) <> [] ->
  evaluate b (opponentOf who) = - evaluate b who.
Proof.
  intros Hown Hopp. unfold evaluate.
  rewrite (evaluateWith_sums _ b who Hown Hopp).
  rewrite (evaluateWith_sums _ b (opponentOf who)); rewrite ?opponentOf_involutive;
    [lia|done..].
Qed.

Lemma evaluate_zero_sum_witness :
  evaluate doubleJump (opponentOf Red) = - evaluate doubleJump Red.
Proof. apply evaluate_zero_sum; vm_compute; discriminate. Defined.

Lemma evaluatePiece_range (piece : Piece) (row col : Z) (who : Player) :
  inRange row col = true ->
  match type piece with
  | Regular => 100 <= evaluatePiece piece row col who <= 144
  | King => 180 <= evaluatePiece piece row col who <= 210
  end.
Proof.
  intros [Hr Hc]%inRange_true. unfold evaluatePiece.
  pose proof (centerDistance2_even row col) as He.
  assert (Hd : 2 <= centerDistance2 row col <= 14)
    by (unfold centerDistance2; lia).
  unfold KING_VALUE, PIECE_VALUE, CENTER_BONUS, ADVANCE_BONUS.
  destruct (type piece), who; lia.
Qed.

(** X12: the value of a piece on a square of the board: a man is worth
    between 100 and 144, a king between 180 and 210; so a king on any
    square is worth more than a man on any square. *)
Theorem evaluatePiece_bounds (piece : Piece) (row col : Z) (who : Player) :
  inRange row col = true ->
  match type piece with
  | Regular => 100 <= evaluatePiece piece row col who <= 144
  | King => 180 <= evaluatePiece piece row col who <= 210
  end.
Proof. apply evaluatePiece_range. Qed.

Lemma evaluatePiece_bounds_witness :
  180 <= evaluatePiece (mkPiece Red King) 0 1 Red <= 210.
Proof. apply (evaluatePiece_bounds (mkPiece Red King) 0 1 Red). reflexivity. Defined.

Lemma sum_bounds (g : Piece -> Z -> Z -> Z) (lo hi : Z) (l : list (Piece * Z * Z)) :
  Forall (fun '(piece, row, col) => lo <= g piece row col <= hi) l ->
  lo * Z.of_nat (length l)
    <= foldl (fun score '(piece, row, col) => score + g piece row col) 0 l
    <= hi * Z.of_nat (length l).
Proof.
  induction 1 as [|[[p r] c] l Hx Hl IH]; [simpl; lia|].
  cbn [foldl length]. rewrite foldl_add_shift. lia.
Qed.

Lemma getPieces_values (b : Board) (who side : Player) :
  Forall (fun '(piece, row, col) => 100 <= evaluatePiece piece row col side <= 210)
    (getPieces b who).
Proof.
  apply Forall_forall. intros [[piece row] col] [[Hin _]%getPieceAt_Some _]%elem_of_getPieces.
  pose proof (evaluatePiece_range piece row col side Hin).
  destruct (type piece); lia.
Qed.

Lemma evaluate_between (b : Board) (who : Player) :
  getPieces b who <> [] ->
  getPieces b (opponentOf who) <> [] ->
  let own := Z.of_nat (length (getPieces b who)) in
  let other := Z.of_nat (length (getPieces b (opponentOf who))) in
  100 * own - 210 * other <= evaluate b who <= 210 * own - 100 * other /\
  (own <= 12 -> other <= 12 -> - WIN_SCORE < evaluate b who < WIN_SCORE).
Proof.
  intros Hown Hopp own other. unfold evaluate.
  rewrite (evaluateWith_sums _ b who Hown Hopp).
  pose proof (sum_bounds (fun piece row col => evaluatePiece piece row col who)
                100 210 _ (getPieces_values b who who)) as H1.
  pose proof (sum_bounds (fun piece row col => evaluatePiece piece row col (opponentOf who))
                100 210 _ (getPieces_values b (opponentOf who) (opponentOf who))) as H2.
  cbv beta in H1, H2. fold own in H1. fold other in H2.
  assert (0 < own) by (unfold own; destruct (getPieces b who); simpl; [done|lia]).
  assert (0 < other)
    by (unfold other; destruct (getPieces b (opponentOf who)); simpl; [done|lia]).
  unfold WIN_SCORE. split; [lia|]. intros. lia.
Qed.

(** X13: when both players have a piece, the evaluation lies between
    100 per own piece less 210 per piece of the opponent, and 210 per
    own piece less 100 per piece of the opponent.  With at most 12
    pieces on each side it is therefore strictly between [-WIN_SCORE]
    and [WIN_SCORE]: only a position in which a side has no piece
    evaluates to a win. *)
Theorem evaluate_bounds (b : Board) (who : Player) :
  getPieces b who <> [] ->
  getPieces b (opponentOf who) <> [] ->
  let own := Z.of_nat (length (getPieces b who)) in
  let other := Z.of_nat (length (getPieces b (opponentOf who))) in
  100 * own - 210 * other <= evaluate b who <= 210 * own - 100 * other /\
  (own <= 12 -> other <= 12 -> - WIN_SCORE < evaluate b who < WIN_SCORE).
Proof. apply evaluate_between. Qed.

Lemma evaluate_bounds_witness :
  100 * 12 - 210 * 12 <= evaluate newBoard Red <= 210 * 12 - 100 * 12 /\
  (12 <= 12 -> 12 <= 12 -> - WIN_SCORE < evaluate newBoard Red < WIN_SCORE).
Proof.
  apply (evaluate_bounds newBoard Red); vm_compute; discriminate.
Defined.

(** ** Capture chains: exhaustiveness and length (Move.ts) *)

Lemma findCaptureChains_complete (fuel : nat) :
  forall (b : Board) (row col : Z) (who : Player) (t : PieceType)
         (cur : list Move) (all : list (list Move)),
    onBoard b ->
    getPieceAt b row col = Some (mkPiece who t) ->
    (size (grid b) < fuel)%nat ->
    exists out,
      findCaptureChains fuel b row col who t cur all = Returns (all ++ out) /\
      forall suffix,
        cur ++ suffix <> [] ->
        captureChain b row col suffix ->
        chainEnds b row col suffix ->
        cur ++ suffix ∈ out.
Proof.
  induction fuel as [|fuel IH]; intros b row col who t cur all Hb Hp Hsize; [lia|].
  rewrite findCaptureChains_unfold.
  destruct (getCaptureMoves b row col who t) as [|c cs] eqn:Hc.
  - exists (match cur with [] => [] | _ :: _ => [cur] end). split.
    { destruct cur; [by rewrite app_nil_r|done]. }
    intros [|m suffix] Hne Hchain Hends.
    + rewrite app_nil_r in *. destruct cur; [done|left].
    + destruct Hchain as [(p & Hp' & Hm) _].
      assert (p = mkPiece who t) as -> by congruence.
      simpl in Hm. rewrite Hc in Hm. inversion Hm.
  - rewrite <- Hc.
    assert (Hloop : forall caps all,
      (forall m, m ∈ caps -> m ∈ getCaptureMoves b row col who t) ->
      exists out,
        chainLoop (descendInto fuel b row col who t cur) caps all = Returns (all ++ out) /\
        forall m rest,
          m ∈ caps ->
          captureChain (execute b row col m).1 (toRow m) (toCol m) rest ->
          chainEnds (execute b row col m).1 (toRow m) (toCol m) rest ->
          cur ++ m :: rest ∈ out).
    { clear all. induction caps as [|m caps IHcaps]; intros all Hcaps.
      - exists []. split; [by rewrite app_nil_r|]. intros ? ? H. inversion H.
      - assert (Hm : m ∈ getCaptureMoves b row col who t) by (apply Hcaps; left).
        destruct (execute_capture b row col (mkPiece who t) m Hb Hp Hm)
          as (nb & Hex & Hnb & Hland & Hlt).
        simpl. unfold descendInto at 1. rewrite (clone_id b Hb), Hex, Hland.
        destruct (IH nb (toRow m) (toCol m) who (type (promoted (mkPiece who t) (toRow m)))
                    (cur ++ [m]) all Hnb) as (out1 & -> & Hout1).
        { rewrite Hland. f_equal.
          pose proof (promoted_player (mkPiece who t) (toRow m)) as Hpl.
          destruct (promoted _ _); simpl in *. by subst. }
        { lia. }
        destruct (IHcaps (all ++ out1)) as (out2 & -> & Hout2).
        { intros m' Hm'. apply Hcaps. by right. }
        exists (out1 ++ out2). rewrite app_assoc. split; [done|].
        intros m' rest [->|Hin]%elem_of_cons Hchain Hends; apply elem_of_app.
        + left. rewrite Hex in Hchain, Hends. simpl in *.
          replace (cur ++ m :: rest) with ((cur ++ [m]) ++ rest)
            by (by rewrite <- app_assoc).
          apply Hout1; [|done..]. by destruct cur.
        + right. by apply Hout2. }
    destruct (Hloop (getCaptureMoves b row col who t) all) as (out & -> & Hout); [done|].
    exists out. split; [done|].
    intros [|m suffix] Hne Hchain Hends.
    + destruct Hends as (p & Hp' & Hnone). simpl in *.
      assert (p = mkPiece who t) as -> by congruence.
      simpl in Hnone. rewrite Hnone in Hc. done.
    + destruct Hchain as [(p & Hp' & Hm) Hrest].
      assert (p = mkPiece who t) as -> by congruence.
      apply Hout; [done|done|]. unfold chainEnds in *. simpl in Hends. done.
Qed.

(** X14: [getCaptureChains] is exhaustive: with fuel above the number
    of pieces it returns, and every non-empty chain of consecutive
    captures of the piece on [(row, col)] that ends where the piece has
    no capture is among the chains it returns. *)
Theorem capture_chains_exhaustive (fuel : nat) (b : Board) (row col : Z) :
  (size (grid b) < fuel)%nat ->
  exists chains,
    getCaptureChains fuel b row col = Returns chains /\
    forall chain,
      chain <> [] ->
      captureChain (clone b) row col chain ->
      chainEnds (clone b) row col chain ->
      chain ∈ chains.
Proof.
  intros Hfuel. unfold getCaptureChains.
  destruct (getPieceAt b row col) as [piece|] eqn:Hp.
  - destruct (findCaptureChains_complete fuel (clone b) row col (player piece) (type piece) [] [])
      as (out & -> & Hout).
    + apply clone_onBoard.
    + rewrite getPieceAt_clone, Hp. by destruct piece.
    + pose proof (clone_size b). lia.
    + exists out. split; [done|]. intros chain Hne Hchain Hends. by apply (Hout chain).
  - exists []. split; [done|].
    intros chain Hne Hchain _. destruct chain as [|m chain]; [done|].
    destruct Hchain as [(p & Hp' & _) _].
    rewrite getPieceAt_clone in Hp'. congruence.
Qed.

Lemma capture_chains_exhaustive_witness :
  exists chains,
    getCaptureChains 4 doubleJump 2 1 = Returns chains /\
    forall chain,
      chain <> [] ->
      captureChain (clone doubleJump) 2 1 chain ->
      chainEnds (clone doubleJump) 2 1 chain ->
      chain ∈ chains.
Proof. apply capture_chains_exhaustive. vm_compute. lia. Defined.

Lemma captureChain_length (chain : list Move) :
  forall (b : Board) (row col : Z) (piece : Piece),
    getPieceAt b row col = Some piece ->
    captureChain b row col chain ->
    (length chain <= length (getPieces b (opponentOf (player piece))))%nat.
Proof.
  induction chain as [|m chain IH]; intros b row col piece Hp; simpl; [lia|].
  intros [(p & Hp' & Hm) Hrest]. assert (p = piece) as -> by congruence.
  destruct (execute_lookup b row col piece m Hp (or_introl Hm)) as [_ Hl].
  pose proof Hm as (dr & dc & jumped & Hd%getDirections_unit & Em & _ & Hj & Hjw & Hland)%getCaptureMoves_inv.
  assert (Hjo : player jumped = opponentOf (player piece))
    by (destruct (player jumped), (player piece); done).
  assert (Hopp : opponentOf (player piece) <> player piece)
    by (by destruct (player piece)).
  subst m. simpl in *.
  assert (Hcount : length (getPieces b (opponentOf (player piece))) =
                   S (length (getPieces (execute b row col
                        (mkMove (row + 2 * dr) (col + 2 * dc) Capture
                           (Some (row + dr)) (Some (col + dc)))).1
                        (opponentOf (player piece))))).
  { eapply (other_count_less b _ (player piece) piece _ _ _ _ _
              (fun r c => Capture = Capture /\
                 2 * r = row + (row + 2 * dr) /\ 2 * c = col + (col + 2 * dc)));
      [exact Hp|done|apply promoted_player|exact Hland|exact Hl|exact Hopp|
       |exact Hj|exact Hjo].
    intros r c. split; [intros (_ & ? & ?)|intros [-> ->]]; repeat split; lia. }
  rewrite Hcount. apply le_n_S.
  rewrite <- (promoted_player piece (row + 2 * dr)).
  apply (IH _ (row + 2 * dr) (col + 2 * dc)); [|done].
  rewrite Hl. by rewrite decide_True.
Qed.

(** X15: a chain has at most as many jumps as the opponent has pieces:
    with fuel above the number of pieces, every chain that
    [getCaptureChains] returns for a piece is at most as long as the
    number of pieces of the other player. *)
Theorem capture_chains_length (fuel : nat) (b : Board) (row col : Z) (piece : Piece) :
  (size (grid b) < fuel)%nat ->
  getPieceAt b row col = Some piece ->
  exists chains,
    getCaptureChains fuel b row col = Returns chains /\
    forall chain, chain ∈ chains ->
      (length chain <= length (getPieces b (opponentOf (player piece))))%nat.
Proof.
  intros Hfuel Hp.
  destruct (capture_chains_spec_total fuel b row col Hfuel) as (chains & -> & H).
  exists chains. split; [done|]. intros chain Hchain%H.
  rewrite <- (getPieces_ext (clone b) b) by apply getPieceAt_clone.
  apply (captureChain_length chain (clone b) row col piece); [|done].
  by rewrite getPieceAt_clone.
Qed.

Lemma capture_chains_length_witness :
  exists chains,
    getCaptureChains 4 doubleJump 2 1 = Returns chains /\
    forall chain, chain ∈ chains ->
      (length chain <= length (getPieces doubleJump (opponentOf Red)))%nat.
Proof.
  apply (capture_chains_length 4 doubleJump 2 1 (mkPiece Red Regular));
    [vm_compute; lia|reflexivity].
Defined.

(** ** Which move the search returns (Minimax.ts) *)

Lemma post_top (alpha r : num) (v : Z) :
  alpha <> PosInf ->
  post alpha PosInf (Fin v) r ->
  (num_lt alpha r -> r = Fin v) /\ (num_le r alpha -> num_le (Fin v) r).
Proof. intros Ha. destruct alpha; [| |done]; clear Ha; num_crush. Qed.

Lemma num_max_keep (a r : num) : num_le r a -> num_max a r = a.
Proof. num_crush. Qed.

Lemma num_max_take (a r : num) : num_lt a r -> num_max a r = r.
Proof. num_crush. Qed.

Section FirstBest.
Variable search : Board -> num -> num -> outcome num.
Variable value : Board -> Z.
Variable b : Board.

Hypothesis search_post : forall nb alpha beta,
  num_lt alpha beta ->
  exists r, search nb alpha beta = Returns r /\ post alpha beta (Fin (value nb)) r.

Lemma bestLoop_first (moves : list PieceMove) :
  forall (seen : list PieceMove) (best : option SearchResult) (alpha : num),
    Forall (completes b) moves ->
    bestSoFar value b seen best alpha ->
    exists best',
      bestLoop search b moves best alpha = Returns best' /\
      exists alpha', bestSoFar value b (seen ++ moves) best' alpha'.
Proof.
  unfold bestSoFar.
  induction moves as [|pm moves IH]; intros seen best alpha Hmoves Hbest.
  - exists best. split; [done|]. exists alpha. by rewrite app_nil_r.
  - apply Forall_cons in Hmoves as [Hpm Hmoves]. simpl.
    rewrite (completes_play b pm Hpm).
    assert (Halpha : alpha <> PosInf).
    { destruct best as [res|]; [destruct Hbest as (-> & -> & _)|destruct Hbest as [-> _]];
        done. }
    destruct (search_post (play b pm) alpha PosInf) as (r & -> & Hr).
    { destruct alpha; done. }
    destruct (post_top alpha r _ Halpha Hr) as [Hexact Hbound].
    replace (seen ++ pm :: moves) with ((seen ++ [pm]) ++ moves)
      by (by rewrite <- app_assoc).
    apply IH; [done|].
    destruct best as [res|].
    + destruct Hbest as (-> & Hscore & before & after & -> & Hbefore & Hafter).
      destruct (num_ltb (score res) r) eqn:Hlt.
      * apply num_ltb_true in Hlt. specialize (Hexact Hlt). subst r.
        split; [by apply num_max_take|]. split; [done|].
        rewrite Hscore in Hlt. simpl in Hlt.
        exists (before ++ source res :: after), []. split; [done|]. simpl.
        split; [|intros ? H; inversion H].
        intros pm' [Hin|[->|Hin]%elem_of_cons]%elem_of_app.
        -- specialize (Hbefore _ Hin). lia.
        -- done.
        -- specialize (Hafter _ Hin). lia.
      * apply num_ltb_false in Hlt. specialize (Hbound Hlt).
        split; [by apply num_max_keep|]. split; [done|].
        exists before, (after ++ [pm]). split; [by rewrite <- app_assoc|].
        split; [done|].
        intros pm' [Hin|Hin%list_elem_of_singleton]%elem_of_app; [by apply Hafter|].
        subst pm'. rewrite Hscore in Hlt. destruct r; simpl in *; try done; lia.
    + destruct Hbest as [-> ->]. simpl.
      assert (r = Fin (value (play b pm))) as ->.
      { apply Hexact. destruct r; [|done|done]. by specialize (Hbound I). }
      split; [done|]. split; [done|].
      exists [], []. split; [done|]. split; intros ? H; inversion H.
Qed.
End FirstBest.

(** X16: which move [findBestMove] returns.  For a depth of at least
    1 (and fuel above it), when the player has a legal move the result
    is the first of the legal moves, in the order of
    [getAllValidMoves], whose unpruned minimax value is the largest: a
    later move that is worth as much does not replace it. *)
Theorem findBestMove_first_best (fuel : nat) (b : Board) (who : Player) (depth : Z) :
  1 <= depth ->
  (Z.to_nat depth <= fuel)%nat ->
  getAllValidMoves b who <> [] ->
  exists res,
    findBestMove fuel b who depth = Returns (Some res) /\
    firstBest (fun pm => fullMinimax (Z.to_nat depth - 1) (play b pm) false who)
      (getAllValidMoves b who) (source res).
Proof.
  intros Hdepth Hfuel Hne. unfold findBestMove.
  pose proof (getAllValidMoves_complete b who) as Hmoves.
  destruct (getAllValidMoves b who) as [|pm rest] eqn:E; [done|].
  destruct (bestLoop_first
              (fun nb alpha beta => minimax fuel nb (depth - 1) alpha beta false who)
              (fun nb => fullMinimax (Z.to_nat depth - 1) nb false who) b)
    with (moves := pm :: rest) (seen := @nil PieceMove)
         (best := @None SearchResult) (alpha := NegInf)
    as (best' & Hbest' & alpha' & Hres); try done.
  { intros nb alpha beta Hwin.
    replace (depth - 1) with (Z.of_nat (Z.to_nat depth - 1)) by lia.
    apply minimax_post; [lia|done]. }
  unfold bestSoFar in Hres. destruct best' as [res|]; [|by destruct Hres].
  exists res. split; [done|]. by destruct Hres as (_ & _ & ?).
Qed.

Lemma findBestMove_first_best_witness :
  exists res,
    findBestMove 2 newBoard Red 2 = Returns (Some res) /\
    firstBest (fun pm => fullMinimax (Z.to_nat 2 - 1) (play newBoard pm) false Red)
      (getAllValidMoves newBoard Red) (source res).
Proof.
  apply findBestMove_first_best; [lia|vm_compute; lia|vm_compute; discriminate].
Defined.

(** ** The bands of a vision (Precog.ts) *)

(** X17: what the extreme bands mean.  For a position with at most 12
    pieces on each side, the description of its evaluation is
    ['Victory is certain'] exactly when the opponent has no piece, and
    ['Defeat looms'] exactly when the player has no piece and the
    opponent has one. *)
Theorem describeVision_of_evaluate (b : Board) (who : Player) :
  (length (getPieces b who) <= 12)%nat ->
  (length (getPieces b (opponentOf who)) <= 12)%nat ->
  (describeVision (Fin (evaluate b who)) who = "Victory is certain" <->
     getPieces b (opponentOf who) = []) /\
  (describeVision (Fin (evaluate b who)) who = "Defeat looms" <->
     getPieces b who = [] /\ getPieces b (opponentOf who) <> []).
Proof.
  intros Hown Hopp.
  destruct (getPieces b (opponentOf who)) as [|o os] eqn:Eo.
  { assert (evaluate b who = WIN_SCORE) as ->
      by (unfold evaluate, evaluateWith; by rewrite Eo).
    split; split; try done. by intros [_ ?]. }
  destruct (getPieces b who) as [|p ps] eqn:Ep.
  { assert (evaluate b who = - WIN_SCORE) as ->
      by (unfold evaluate, evaluateWith; by rewrite Eo, Ep).
    split; split; try done. }
  destruct (evaluate_between b who) as [_ Hwin];
    [by rewrite Ep|by rewrite Eo|].
  rewrite Ep, Eo in Hwin. specialize (Hwin ltac:(lia) ltac:(lia)).
  unfold describeVision, num_ltb, num_leb.
  unfold WIN_SCORE in *.
  repeat match goal with
         | |- context [Z.leb ?x ?y] => destruct (Z.leb_spec x y); simpl
         end; try lia;
    (split; split; [discriminate|done|discriminate|by intros [? _]]).
Qed.

Lemma describeVision_of_evaluate_witness :
  (describeVision (Fin (evaluate blocked Red)) Red = "Victory is certain" <->
     getPieces blocked (opponentOf Red) = []) /\
  (describeVision (Fin (evaluate blocked Red)) Red = "Defeat looms" <->
     getPieces blocked Red = [] /\ getPieces blocked (opponentOf Red) <> []).
Proof. apply describeVision_of_evaluate; vm_compute; lia. Defined.

(** ** The simulated line of a vision (Precog.ts) *)

Lemma sideAfter_S (who : Player) (n : nat) :
  sideAfter who (S n) = sideAfter (opponentOf who) n.
Proof.
  unfold sideAfter. rewrite Nat.even_succ, <- Nat.negb_even.
  destruct (Nat.even n); simpl; [done|by rewrite opponentOf_involutive].
Qed.

(** A legal move is played on the board itself without a throw. *)
Lemma execute_legal (b : Board) (who : Player) (pm : PieceMove) :
  pm ∈ getAllValidMoves b who ->
  exists nb, execute b (fromRow pm) (fromCol pm) (move pm) = (nb, Completed).
Proof.
  intros (piece & Hp & _ & Hm)%getAllValidMoves_inv.
  destruct (execute_valid _ _ _ _ _ Hp Hm) as (_ & g & -> & _). eauto.
Qed.

Lemma simulateLoop_line (fuel : nat) (steps : list Z) :
  (2 <= fuel)%nat ->
  forall (cb : Board) (cp : Player) (line : list PieceMove),
    exists fb added,
      simulateLoop fuel steps cb cp line = Returns (fb, line ++ added) /\
      legalLine cb cp added fb /\
      (length added <= length steps)%nat /\
      (length (line ++ added) <= Nat.max (length line) 6)%nat /\
      ((length added < length steps)%nat ->
       (6 <= length (line ++ added))%nat \/
       getAllValidMoves fb (sideAfter cp (length added)) = []).
Proof.
  intros Hfuel. induction steps as [|i steps IH]; intros cb cp line.
  - exists cb, []. rewrite app_nil_r. simpl. repeat split; try done; lia.
  - simpl. destruct (Z.ltb_spec (Z.of_nat (length line)) 6) as [Hlen|Hlen]; simpl.
    2:{ exists cb, []. rewrite app_nil_r. simpl.
        repeat split; try done; lia. }
    pose proof (findBestMove_post fuel cb cp 2 ltac:(lia) ltac:(simpl; lia)) as Hbest.
    destruct (getAllValidMoves cb cp) as [|pm0 rest0] eqn:Emoves.
    { rewrite Hbest. exists cb, []. rewrite app_nil_r. simpl.
      repeat split; try done; try lia. intros _. by right. }
    destruct Hbest as (res & -> & Hsrc & _).
    rewrite <- Emoves in Hsrc.
    destruct (execute_legal cb cp (source res) Hsrc) as (nb & Hex). rewrite Hex.
    destruct (IH nb (opponentOf cp) (line ++ [source res]))
      as (fb & added & -> & Hline & Hsteps & Hmax & Hstop).
    exists fb, (source res :: added).
    replace (line ++ source res :: added) with ((line ++ [source res]) ++ added)
      by (by rewrite <- app_assoc).
    split; [done|]. split; [simpl; by rewrite Hex|].
    rewrite !length_app in Hmax, Hstop |- *. simpl in *.
    split; [lia|]. split; [lia|].
    intros Hshort. rewrite sideAfter_S. apply Hstop. lia.
Qed.

(** [simulateFuture] returns for a legal first move. *)
Lemma simulateFuture_total (fuel : nat) (b : Board) (who : Player)
    (initialMove : PieceMove) (depth : Z) :
  (2 <= fuel)%nat ->
  initialMove ∈ getAllValidMoves b who ->
  exists v, simulateFuture fuel b who initialMove depth = Returns v.
Proof.
  intros Hfuel Hlegal. unfold simulateFuture.
  assert (Hlegal' : initialMove ∈ getAllValidMoves (clone b) who).
  { rewrite (getAllValidMoves_ext (clone b) b); [done|apply getPieceAt_clone]. }
  destruct (execute_legal (clone b) who initialMove Hlegal') as (cb & ->).
  destruct (simulateLoop_line fuel (upto 0 depth) Hfuel cb (opponentOf who) [initialMove])
    as (fb & added & -> & _). eauto.
Qed.

(** X18: the vision of a legal first move (with fuel for the depth-2
    searches).  [simulateFuture] returns; its moves are a line of legal
    moves of the two sides in turn, played on a copy of the board and
    starting with the given move; there are at most 6 of them and at
    most one more than the depth; the line is shorter than both bounds
    only when the side to move at its end has no legal move; the final
    board is the board after the line, the evaluation is the static
    evaluation of the final board for the player, and the description
    is the band of that evaluation. *)
Theorem simulateFuture_line (fuel : nat) (b : Board) (who : Player)
    (initialMove : PieceMove) (depth : Z) :
  (2 <= fuel)%nat ->
  initialMove ∈ getAllValidMoves b who ->
  exists v,
    simulateFuture fuel b who initialMove depth = Returns v /\
    legalLine (clone b) who (moves v) (finalBoard v) /\
    (exists rest, moves v = initialMove :: rest) /\
    (length (moves v) <= 6)%nat /\
    Z.of_nat (length (moves v)) <= 1 + Z.max 0 depth /\
    (Z.of_nat (length (moves v)) < Z.min 6 (1 + Z.max 0 depth) ->
     getAllValidMoves (finalBoard v) (sideAfter who (length (moves v))) = []) /\
    evaluation v = Fin (evaluate (finalBoard v) who) /\
    description v = describeVision (evaluation v) who.
Proof.
  intros Hfuel Hlegal. unfold simulateFuture.
  assert (Hlegal' : initialMove ∈ getAllValidMoves (clone b) who).
  { rewrite (getAllValidMoves_ext (clone b) b); [done|apply getPieceAt_clone]. }
  destruct (execute_legal (clone b) who initialMove Hlegal') as (cb & Hex).
  rewrite Hex.
  destruct (simulateLoop_line fuel (upto 0 depth) Hfuel cb (opponentOf who) [initialMove])
    as (fb & added & -> & Hline & Hsteps & Hmax & Hstop).
  eexists. split; [done|]. simpl.
  assert (Hlen : length (upto 0 depth) = Z.to_nat depth).
  { unfold upto. rewrite length_seqZ. f_equal. lia. }
  rewrite Hlen in *. simpl in *.
  split; [by rewrite Hex|]. split; [eauto|]. split; [lia|]. split; [lia|].
  split; [|done].
  intros Hshort. rewrite sideAfter_S.
  destruct Hstop as [Hstop|Hstop]; [lia|lia|done].
Qed.

Lemma simulateFuture_line_witness :
  exists v,
    simulateFuture 2 newBoard Red (mkPieceMove 2 1 (mkMove 3 0 Step None None)) 3
      = Returns v /\
    legalLine (clone newBoard) Red (moves v) (finalBoard v) /\
    (exists rest, moves v = mkPieceMove 2 1 (mkMove 3 0 Step None None) :: rest) /\
    (length (moves v) <= 6)%nat /\
    Z.of_nat (length (moves v)) <= 1 + Z.max 0 3 /\
    (Z.of_nat (length (moves v)) < Z.min 6 (1 + Z.max 0 3) ->
     getAllValidMoves (finalBoard v) (sideAfter Red (length (moves v))) = []) /\
    evaluation v = Fin (evaluate (finalBoard v) Red) /\
    description v = describeVision (evaluation v) Red.
Proof. apply simulateFuture_line; [lia|vm_compute; left]. Defined.

(** ** The ranked visions (Precog.ts) *)

Lemma num_le_trans (a b c : num) : num_le a b -> num_le b c -> num_le a c.
Proof. num_crush. Qed.

Lemma num_lt_le (a b : num) : num_lt a b -> num_le a b.
Proof. num_crush. Qed.

Lemma insertVision_perm (v : FutureVision) (l : list FutureVision) :
  insertVision v l ≡ₚ v :: l.
Proof.
  induction l as [|w l IH]; simpl; [done|].
  destruct (num_ltb (evaluation v) (evaluation w)); [|done].
  rewrite IH. apply Permutation_swap.
Qed.

Lemma sortVisions_perm (l : list FutureVision) : sortVisions l ≡ₚ l.
Proof.
  induction l as [|v l IH]; simpl; [done|].
  by rewrite insertVision_perm, IH.
Qed.

Lemma insertVision_sorted (v : FutureVision) (l : list FutureVision) :
  StronglySorted betterFirst l -> StronglySorted betterFirst (insertVision v l).
Proof.
  induction 1 as [|w l Hs IH Hall]; simpl; [repeat constructor|].
  destruct (num_ltb (evaluation v) (evaluation w)) eqn:Hlt.
  - apply num_ltb_true in Hlt. constructor; [done|].
    rewrite insertVision_perm. constructor; [|done].
    unfold betterFirst. by apply num_lt_le.
  - apply num_ltb_false in Hlt. constructor; [by constructor|].
    constructor; [done|].
    eapply Forall_impl; [exact Hall|]. unfold betterFirst. simpl.
    intros x Hx. by eapply num_le_trans.
Qed.

Lemma sortVisions_sorted (l : list FutureVision) :
  StronglySorted betterFirst (sortVisions l).
Proof.
  induction l as [|v l IH]; simpl; [constructor|]. by apply insertVision_sorted.
Qed.

Lemma simulateEach_all (fuel : nat) (b : Board) (who : Player) (depth : Z)
    (candidates : list PieceMove) :
  (2 <= fuel)%nat ->
  Forall (fun pm => pm ∈ getAllValidMoves b who) candidates ->
  forall visions,
    exists made,
      simulateEach fuel b who depth candidates visions = Returns (visions ++ made) /\
      Forall2 (fun pm v => simulateFuture fuel b who pm depth = Returns v)
        candidates made.
Proof.
  intros Hfuel. induction 1 as [|pm candidates Hpm Hall IH]; intros visions.
  - exists []. by rewrite app_nil_r.
  - simpl.
    destruct (simulateFuture_total fuel b who pm depth Hfuel Hpm) as (v & Hv).
    rewrite Hv. destruct (IH (visions ++ [v])) as (made & -> & Hmade).
    exists (v :: made). rewrite <- app_assoc. split; [done|]. by constructor.
Qed.

Lemma slice0_take {A} (n : Z) (l : list A) :
  exists k, slice0 n l = take k l /\
    Z.of_nat (length (take k l)) =
      if n <? 0 then Z.max (Z.of_nat (length l) + n) 0
      else Z.min n (Z.of_nat (length l)).
Proof.
  unfold slice0. eexists. split; [done|]. rewrite length_take.
  destruct (Z.ltb_spec n 0); lia.
Qed.

(** X19: the visions of [getFutures] (with fuel for the depth-2
    searches).  The call returns; the visions are in the order of
    decreasing evaluation; each is the vision of a legal move of the
    player; every vision of a legal move that is left out is at most as
    good as each vision that is kept; and their number is the smaller
    of [numVisions] and the number of legal moves, or, for a negative
    [numVisions], the number of legal moves less [-numVisions] (at
    least 0). *)
Theorem getFutures_ranked (fuel : nat) (b : Board) (who : Player)
    (numVisions depth : Z) :
  (2 <= fuel)%nat ->
  exists visions,
    getFutures fuel b who numVisions depth = Returns visions /\
    StronglySorted betterFirst visions /\
    (forall v, v ∈ visions ->
       exists pm, pm ∈ getAllValidMoves b who /\
         simulateFuture fuel b who pm depth = Returns v) /\
    (forall pm v,
       pm ∈ getAllValidMoves b who ->
       simulateFuture fuel b who pm depth = Returns v ->
       v ∈ visions \/ forall w, w ∈ visions -> betterFirst w v) /\
    Z.of_nat (length visions) =
      if numVisions <? 0
      then Z.max (Z.of_nat (length (getAllValidMoves b who)) + numVisions) 0
      else Z.min numVisions (Z.of_nat (length (getAllValidMoves b who))).
Proof.
  intros Hfuel. unfold getFutures.
  destruct (simulateEach_all fuel b who depth (getAllValidMoves b who) Hfuel) with
    (visions := @nil FutureVision) as (made & Hmade & Hall).
  { by apply Forall_forall. }
  simpl in Hmade.
  destruct (getAllValidMoves b who) as [|pm0 rest0] eqn:Emoves.
  { exists []. split; [done|]. split; [constructor|].
    split; [intros ? H; inversion H|]. split; [intros ? ? H; inversion H|].
    simpl. destruct (numVisions <? 0) eqn:E; [|lia].
    apply Z.ltb_lt in E. lia. }
  rewrite Hmade. rewrite <- Emoves in *. clear pm0 rest0 Emoves Hmade.
  destruct (slice0_take numVisions (sortVisions made)) as (k & -> & Hlen).
  exists (take k (sortVisions made)). split; [done|].
  pose proof (sortVisions_sorted made) as Hsorted.
  rewrite <- (take_drop k (sortVisions made)) in Hsorted.
  apply StronglySorted_app in Hsorted as (Hcross & Hkept & _).
  split; [done|].
  assert (Hin : forall v, v ∈ sortVisions made <-> v ∈ made)
    by (intros v; by rewrite sortVisions_perm).
  split; [|split].
  - intros v Hv%(subseteq_take k)%Hin.
    apply list_elem_of_lookup in Hv as (i & Hi).
    destruct (Forall2_lookup_r _ _ _ _ _ Hall Hi) as (pm & Hpm & Hsim).
    exists pm. split; [|done]. by eapply list_elem_of_lookup_2.
  - intros pm v Hpm Hsim.
    apply list_elem_of_lookup in Hpm as (i & Hi).
    destruct (Forall2_lookup_l _ _ _ _ _ Hall Hi) as (v' & Hv' & Hsim').
    assert (v' = v) as -> by congruence.
    assert (Hv : v ∈ take k (sortVisions made) ++ drop k (sortVisions made)).
    { rewrite take_drop. apply Hin. by eapply list_elem_of_lookup_2. }
    apply elem_of_app in Hv as [Hv|Hv]; [by left|right].
    intros w Hw. by apply Hcross.
  - rewrite Hlen, (Permutation_length (sortVisions_perm made)).
    by rewrite (Forall2_length _ _ _ Hall).
Qed.

Lemma getFutures_ranked_witness :
  exists visions,
    getFutures 2 newBoard Red 3 3 = Returns visions /\
    StronglySorted betterFirst visions /\
    (forall v, v ∈ visions ->
       exists pm, pm ∈ getAllValidMoves newBoard Red /\
         simulateFuture 2 newBoard Red pm 3 = Returns v) /\
    (forall pm v,
       pm ∈ getAllValidMoves newBoard Red ->
       simulateFuture 2 newBoard Red pm 3 = Returns v ->
       v ∈ visions \/ forall w, w ∈ visions -> betterFirst w v) /\
    Z.of_nat (length visions) =
      if 3 <? 0
      then Z.max (Z.of_nat (length (getAllValidMoves newBoard Red)) + 3) 0
      else Z.min 3 (Z.of_nat (length (getAllValidMoves newBoard Red))).
Proof. apply getFutures_ranked. lia. Defined.

(** ** The predicted reply (Precog.ts) *)

(** X20: the predicted reply to a legal move, for a depth of at least
    1 (and fuel above it).  [getPredictedResponse] returns; it returns
    [null] exactly when the replying side has no legal move after the
    move; otherwise its vision holds the move and a legal reply, the
    board after both, and as evaluation the unpruned minimax value of
    the position after the move for the replying side. *)
Theorem getPredictedResponse_reply (fuel : nat) (b : Board) (who : Player)
    (playerMove : PieceMove) (aiPlayer : Player) (depth : Z) :
  1 <= depth ->
  (Z.to_nat depth <= fuel)%nat ->
  playerMove ∈ getAllValidMoves b who ->
  exists out,
    getPredictedResponse fuel b playerMove aiPlayer depth = Returns out /\
    (out = None <-> getAllValidMoves (play b playerMove) aiPlayer = []) /\
    forall v, out = Some v ->
      exists reply,
        moves v = [playerMove; reply] /\
        reply ∈ getAllValidMoves (play b playerMove) aiPlayer /\
        finalBoard v = play (play b playerMove) reply /\
        evaluation v =
          Fin (fullMinimax (Z.to_nat depth) (play b playerMove) true aiPlayer) /\
        description v = describeVision (evaluation v) aiPlayer.
Proof.
  intros Hdepth Hfuel Hlegal. unfold getPredictedResponse.
  pose proof (getAllValidMoves_complete b who) as Hc.
  rewrite Forall_forall in Hc.
  rewrite (completes_play b playerMove (Hc _ Hlegal)).
  pose proof (findBestMove_post fuel (play b playerMove) aiPlayer depth Hdepth Hfuel)
    as Hbest.
  pose proof (getAllValidMoves_complete (play b playerMove) aiPlayer) as Hc'.
  rewrite Forall_forall in Hc'.
  destruct (getAllValidMoves (play b playerMove) aiPlayer) as [|pm0 rest0] eqn:E.
  - rewrite Hbest. exists None. by repeat split.
  - destruct Hbest as (res & -> & Hsrc & Hscore).
    rewrite (completes_play _ _ (Hc' _ Hsrc)).
    eexists. split; [done|]. split; [done|].
    intros v [= <-]. exists (source res). simpl. by rewrite Hscore.
Qed.

Lemma getPredictedResponse_reply_witness :
  exists out,
    getPredictedResponse 2 newBoard (mkPieceMove 2 1 (mkMove 3 0 Step None None))
      Black 2 = Returns out /\
    (out = None <->
       getAllValidMoves (play newBoard (mkPieceMove 2 1 (mkMove 3 0 Step None None)))
         Black = []) /\
    forall v, out = Some v ->
      exists reply,
        moves v = [mkPieceMove 2 1 (mkMove 3 0 Step None None); reply] /\
        reply ∈ getAllValidMoves
                  (play newBoard (mkPieceMove 2 1 (mkMove 3 0 Step None None))) Black /\
        finalBoard v =
          play (play newBoard (mkPieceMove 2 1 (mkMove 3 0 Step None None))) reply /\
        evaluation v =
          Fin (fullMinimax (Z.to_nat 2)
                 (play newBoard (mkPieceMove 2 1 (mkMove 3 0 Step None None)))
                 true Black) /\
        description v = describeVision (evaluation v) Black.
Proof.
  apply (getPredictedResponse_reply 2 newBoard Red); [lia|vm_compute; lia|].
  vm_compute. left.
Defined.

(** ** The end of the game (GameState.ts) *)

Lemma no_pieces_no_moves (b : Board) (who : Player) :
  getPieces b who = [] -> getAllValidMoves b who = [].
Proof.
  intros E. rewrite getAllValidMoves_eq. unfold capturesOf, stepsOf. by rewrite E.
Qed.

(** X21: [checkGameOver] never produces a draw and never reopens a
    game: its result is the status it was given or a win.  It leaves
    the status as it is exactly when both sides have a piece and the
    player to move has a legal move.  It declares Red the winner only
    when Red has a piece and Black has none or is to move without a
    legal move; it declares Black the winner when Red has no piece
    (even on an empty board) or is to move without a legal move. *)
Theorem checkGameOver_result (status : GameStatus) (b : Board) (cur : Player) :
  (checkGameOver status b cur = status \/
   checkGameOver status b cur = RedWins \/
   checkGameOver status b cur = BlackWins) /\
  (getAllValidMoves b cur <> [] -> getPieces b (opponentOf cur) <> [] ->
   checkGameOver status b cur = status) /\
  (checkGameOver status b cur <> status ->
   getAllValidMoves b cur = [] \/ getPieces b (opponentOf cur) = []) /\
  (getPieces b Red = [] -> checkGameOver status b cur = BlackWins) /\
  (getPieces b Red <> [] ->
   getPieces b Black = [] \/ (cur = Black /\ getAllValidMoves b Black = []) ->
   checkGameOver status b cur = RedWins) /\
  (getPieces b Black <> [] -> cur = Red -> getAllValidMoves b Red = [] ->
   checkGameOver status b cur = BlackWins).
Proof.
  unfold checkGameOver.
  pose proof (no_pieces_no_moves b Red) as HnR.
  pose proof (no_pieces_no_moves b Black) as HnB.
  destruct (getPieces b Red) as [|r rs] eqn:ER;
    destruct (getPieces b Black) as [|k ks] eqn:EB;
    destruct cur; simpl; rewrite ?ER, ?EB;
    destruct (getAllValidMoves b Red) as [|m ms] eqn:EmR;
    destruct (getAllValidMoves b Black) as [|n ns] eqn:EmB;
    try (specialize (HnR eq_refl)); try (specialize (HnB eq_refl));
    try discriminate;
    repeat split; intros; try done; try tauto; try (destruct_or?; destruct_and?; done);
    auto.
Qed.

Lemma checkGameOver_result_witness :
  checkGameOver Active newBoard Red = Active /\
  checkGameOver Active blocked Red = RedWins.
Proof.
  split.
  - apply (proj1 (proj2 (checkGameOver_result Active newBoard Red)));
      vm_compute; discriminate.
  - apply (proj1 (proj2 (proj2 (proj2 (proj2
             (checkGameOver_result Active blocked Red)))))).
    + vm_compute. discriminate.
    + left. reflexivity.
Defined.

(** ** Multi-jumps in the game (GameState.ts) *)

Lemma filter_all_captures (l : list Move) :
  Forall (fun m => moveType m = Capture) l ->
  filter (fun m => moveType m = Capture) l = l.
Proof.
  induction 1 as [|m l Hm Hl IH]; [done|].
  rewrite filter_cons_True by done. by rewrite IH.
Qed.

Lemma filter_no_captures (l : list Move) :
  Forall (fun m => moveType m = Step) l ->
  filter (fun m => moveType m = Capture) l = [].
Proof.
  induction 1 as [|m l Hm Hl IH]; [done|].
  rewrite filter_cons_False by congruence. done.
Qed.

(** The captures offered to a piece are the captures the validator
    generates for it. *)
Lemma captureOptions_eq (b : Board) (row col : Z) :
  captureOptions b row col =
    match getPieceAt b row col with
    | Some piece => getCaptureMoves b row col (player piece) (type piece)
    | None => []
    end.
Proof.
  unfold captureOptions, getValidMoves.
  destruct (getPieceAt b row col) as [piece|]; [|done].
  destruct (getCaptureMoves b row col (player piece) (type piece)) as [|c cs] eqn:Hc.
  - apply filter_no_captures, Forall_forall.
    by intros m (? & ? & _ & -> & _)%getRegularMoves_inv.
  - rewrite <- Hc. apply filter_all_captures, Forall_forall.
    by intros m (? & ? & ? & _ & -> & _)%getCaptureMoves_inv.
Qed.

(** [getCaptureChains] returns chains that are not empty, and none
    exactly when no capture is offered. *)
Lemma getCaptureChains_some (fuel : nat) (b : Board) (row col : Z) :
  (size (grid b) < fuel)%nat ->
  exists chains,
    getCaptureChains fuel b row col = Returns chains /\
    Forall (fun chain => chain <> []) chains /\
    (chains = [] <-> captureOptions b row col = []).
Proof.
  intros Hfuel. rewrite captureOptions_eq. unfold getCaptureChains.
  destruct (getPieceAt b row col) as [piece|] eqn:Hp; [|by exists []].
  assert (Hext : getCaptureMoves (clone b) row col (player piece) (type piece) =
                 getCaptureMoves b row col (player piece) (type piece))
    by (apply getCaptureMoves_ext; intros; apply getPieceAt_clone).
  destruct (findCaptureChains_spec fuel (clone b) row col (player piece) (type piece) [] [])
    as (out & Hout & Hall & Hnil).
  - apply clone_onBoard.
  - rewrite getPieceAt_clone, Hp. by destruct piece.
  - pose proof (clone_size b). lia.
  - exists out. split; [done|]. split.
    + eapply Forall_impl; [exact Hall|]. simpl. by intros chain (? & ? & ? & _).
    + split; [intros [_ H]%Hnil; by rewrite <- Hext|].
      intros Hnone. destruct fuel as [|fuel]; [lia|].
      rewrite findCaptureChains_unfold, Hext, Hnone in Hout. by injection Hout.
Qed.

(** X22: the multi-jump test of [executeMove].  With fuel above the
    number of pieces it returns, and it is true (the turn stays with
    the piece) exactly when the captures offered to the piece, which
    become its valid moves, are not empty. *)
Theorem moreCaptures_offered (fuel : nat) (b : Board) (row col : Z) :
  (size (grid b) < fuel)%nat ->
  exists more,
    moreCaptures fuel b row col = Returns more /\
    (more = true <-> captureOptions b row col <> []).
Proof.
  intros Hfuel. unfold moreCaptures.
  destruct (getCaptureChains_some fuel b row col Hfuel) as (chains & -> & Hall & Hnil).
  eexists. split; [done|].
  destruct chains as [|chain chains]; simpl.
  - split; [done|]. intros H. by destruct H, (proj1 Hnil).
  - apply Forall_cons in Hall as [Hne _].
    destruct chain; [done|]. simpl. split; [|done].
    intros _ H%Hnil. done.
Qed.

Lemma moreCaptures_offered_witness :
  exists more,
    moreCaptures 4 doubleJump 2 1 = Returns more /\
    (more = true <-> captureOptions doubleJump 2 1 <> []).
Proof. apply moreCaptures_offered. vm_compute. lia. Defined.

Lemma execute_offered (b : Board) (row col : Z) (m : Move) (others : list Move) :
  captureOptions b row col = m :: others ->
  exists piece nb,
    getPieceAt b row col = Some piece /\
    m ∈ getCaptureMoves b row col (player piece) (type piece) /\
    execute b row col m = (nb, Completed) /\
    getPieceAt nb (toRow m) (toCol m) = Some (promoted piece (toRow m)) /\
    (size (grid nb) < size (grid b))%nat /\
    (onBoard b -> onBoard nb).
Proof.
  rewrite captureOptions_eq.
  destruct (getPieceAt b row col) as [piece|] eqn:Hp; [|done].
  intros Hc.
  assert (Hm : m ∈ getCaptureMoves b row col (player piece) (type piece))
    by (rewrite Hc; left).
  destruct (execute_lookup b row col piece m Hp (or_introl Hm)) as [Hdone Hl].
  destruct (execute b row col m) as [nb sg] eqn:Hex. simpl in *. subst sg.
  exists piece, nb. split; [done|]. split; [done|]. split; [done|].
  split; [rewrite Hl; by rewrite decide_True|].
  destruct (execute_valid b row col piece m Hp (or_introl Hm)) as (Hto & g & Hex' & Hg).
  rewrite Hex in Hex'. injection Hex' as ->.
  apply getCaptureMoves_inv in Hm
    as (dr & dc & jumped & Hd%getDirections_unit & -> & _ & Hj & _ & Hland).
  simpl in *. subst g.
  apply getPieceAt_Some in Hp as [Hr Hp], Hj as [Hjr Hj].
  unfold getPieceAt in Hland. rewrite Hto in Hland. simpl in Hland.
  split.
  - rewrite map_size_insert_None.
    2:{ rewrite !lookup_delete_None. by right; right. }
    rewrite map_size_delete_Some.
    2:{ rewrite lookup_delete_ne; [eauto|]. intros [=]. lia. }
    assert (H1 : size (delete (row + dr, col + dc) (grid b)) <> 0%nat).
    { intros E%map_size_empty_inv.
      assert (H : delete (row + dr, col + dc) (grid b) !! (row, col) = Some piece).
      { rewrite lookup_delete_ne; [done|]. intros [=]. lia. }
      rewrite E, lookup_empty in H. done. }
    rewrite map_size_delete_Some in * by eauto. lia.
  - intros Hb r c. simpl. rewrite lookup_insert_is_Some', !lookup_delete_is_Some.
    intros [[= <- <-]|(_ & _ & H)]; [done|by apply Hb].
Qed.

Lemma greedyChain_captureChain (chain : list Move) :
  forall b row col,
    greedyChain b row col chain ->
    is_Some (getPieceAt b row col) ->
    captureChain b row col chain /\ chainEnds b row col chain.
Proof.
  induction chain as [|m chain IH]; intros b row col Hg [piece Hp].
  - simpl in *. split; [done|]. exists piece. split; [done|].
    rewrite captureOptions_eq, Hp in Hg. done.
  - destruct Hg as [[others Ho] Hg].
    destruct (execute_offered b row col m others Ho)
      as (p & nb & Hp' & Hm & Hex & Hland & _).
    rewrite Hex in Hg. simpl in Hg.
    destruct (IH nb _ _ Hg) as [Hc He]; [eauto|].
    split.
    + simpl. rewrite Hex. split; [eauto|done].
    + unfold chainEnds in *. simpl. by rewrite Hex.
Qed.

(** X23: the multi-jump loop of [makeAIMove].  With fuel above the
    number of pieces it returns.  The jumps it plays on the board are
    the chain that takes the first capture offered at each jump; the
    board it leaves is the board after that chain, on which the piece
    has no capture from where it stands; it pushes one record for each
    jump (never flagged as a promotion), and its final position is the
    last landing square, or the given one when there was no jump. *)
Theorem aiJumps_greedy (fuel : nat) (aiPlayer : Player) :
  forall (b : Board) (moveHistory : list MoveRecord) (pos finalPos : Z * Z),
    (size (grid b) < fuel)%nat ->
    exists chain,
      greedyChain b pos.1 pos.2 chain /\
      let '(b', row', col') := replay b pos.1 pos.2 chain in
      aiJumps fuel aiPlayer b moveHistory pos finalPos =
        Returns (b', moveHistory ++ jumpRecords aiPlayer pos chain,
                 match chain with [] => finalPos | _ :: _ => (row', col') end) /\
      captureOptions b' row' col' = [].
Proof.
  induction fuel as [|fuel IH]; intros b moveHistory pos finalPos Hsize; [lia|].
  destruct pos as [row col]. simpl.
  destruct (captureOptions b row col) as [|m others] eqn:Ho.
  - exists []. simpl. rewrite app_nil_r. done.
  - destruct (execute_offered b row col m others Ho)
      as (p & nb & Hp & Hm & Hex & Hland & Hlt & _).
    rewrite Hex.
    destruct (IH nb (moveHistory ++
                [mkMoveRecord aiPlayer (row, col) (toRow m, toCol m)
                   (Some (capturedRow m, capturedCol m)) false])
                (toRow m, toCol m) (toRow m, toCol m)) as (chain & Hg & Hrun);
      [lia|].
    exists (m :: chain). simpl in *. rewrite Hex. simpl.
    split; [eauto|].
    destruct (replay nb (toRow m) (toCol m) chain) as [[b' row'] col'] eqn:Hrep.
    destruct Hrun as [-> Hend]. rewrite <- app_assoc. simpl.
    split; [|done]. f_equal. f_equal.
    destruct chain; [|done]. simpl in Hrep. by injection Hrep as _ -> ->.
Qed.

Lemma aiJumps_greedy_witness :
  exists chain,
    greedyChain doubleJump (2, 1).1 (2, 1).2 chain /\
    let '(b', row', col') := replay doubleJump (2, 1).1 (2, 1).2 chain in
    aiJumps 4 Red doubleJump [] (2, 1) (2, 1) =
      Returns (b', [] ++ jumpRecords Red (2, 1) chain,
               match chain with [] => (2, 1) | _ :: _ => (row', col') end) /\
    captureOptions b' row' col' = [].
Proof. apply (aiJumps_greedy 4 Red doubleJump [] (2, 1) (2, 1)). vm_compute. lia. Defined.

(** The loop of [findCaptureChains] over captures of the piece returns
    and only appends. *)
Lemma chainLoop_appends (fuel : nat) (b : Board) (row col : Z) (who : Player)
    (t : PieceType) (cur : list Move) :
  onBoard b ->
  getPieceAt b row col = Some (mkPiece who t) ->
  (size (grid b) <= fuel)%nat ->
  forall caps all,
    (forall m, m ∈ caps -> m ∈ getCaptureMoves b row col who t) ->
    exists out,
      chainLoop (descendInto fuel b row col who t cur) caps all = Returns (all ++ out).
Proof.
  intros Hb Hp Hsize. induction caps as [|m caps IH]; intros all Hcaps.
  - exists []. by rewrite app_nil_r.
  - assert (Hm : m ∈ getCaptureMoves b row col who t) by (apply Hcaps; left).
    destruct (execute_capture b row col (mkPiece who t) m Hb Hp Hm)
      as (nb & Hex & Hnb & Hland & Hlt).
    simpl. unfold descendInto at 1. rewrite (clone_id b Hb), Hex, Hland.
    destruct (findCaptureChains_spec fuel nb (toRow m) (toCol m) who
                (type (promoted (mkPiece who t) (toRow m))) (cur ++ [m]) all Hnb)
      as (out1 & -> & _).
    { rewrite Hland. f_equal.
      pose proof (promoted_player (mkPiece who t) (toRow m)) as Hpl.
      destruct (promoted _ _); simpl in *. by subst. }
    { lia. }
    destruct (IH (all ++ out1)) as (out2 & ->).
    { intros m' Hm'. apply Hcaps. by right. }
    exists (out1 ++ out2). by rewrite app_assoc.
Qed.

Lemma findCaptureChains_first (fuel : nat) :
  forall (b : Board) (row col : Z) (who : Player) (t : PieceType)
         (cur chain : list Move) (all : list (list Move)),
    onBoard b ->
    getPieceAt b row col = Some (mkPiece who t) ->
    (size (grid b) < fuel)%nat ->
    greedyChain b row col chain ->
    cur ++ chain <> [] ->
    exists rest,
      findCaptureChains fuel b row col who t cur all =
        Returns (all ++ (cur ++ chain) :: rest).
Proof.
  induction fuel as [|fuel IH];
    intros b row col who t cur chain all Hb Hp Hsize Hg Hne; [lia|].
  rewrite findCaptureChains_unfold.
  pose proof (captureOptions_eq b row col) as Ho. rewrite Hp in Ho. simpl in Ho.
  destruct chain as [|m chain].
  - simpl in Hg. rewrite <- Ho, Hg. rewrite app_nil_r in *.
    exists []. by destruct cur.
  - destruct Hg as [[others Hoff] Hg]. rewrite <- Ho, Hoff.
    destruct (execute_offered b row col m others Hoff)
      as (p & nb & Hp' & Hm & Hex & Hland & Hlt & Hnb).
    assert (p = mkPiece who t) as -> by congruence. simpl in Hm.
    rewrite Hex in Hg. simpl in Hg.
    cbn [chainLoop]. unfold descendInto at 1. rewrite (clone_id b Hb), Hex, Hland.
    destruct (IH nb (toRow m) (toCol m) who
                (type (promoted (mkPiece who t) (toRow m))) (cur ++ [m]) chain all)
      as (rest1 & ->); [by apply Hnb| |lia|done|by destruct cur|].
    { rewrite Hland. f_equal.
      pose proof (promoted_player (mkPiece who t) (toRow m)) as Hpl.
      destruct (promoted _ _); simpl in *. by subst. }
    destruct (chainLoop_appends fuel b row col who t cur Hb Hp ltac:(lia) others
                (all ++ ((cur ++ [m]) ++ chain) :: rest1)) as (out2 & ->).
    { intros m' Hm'. rewrite <- Ho, Hoff. by right. }
    exists (rest1 ++ out2). rewrite <- !app_assoc. done.
Qed.

(** X24: the first chain of [getCaptureChains] is the chain that takes
    the first capture offered at every jump (the chain that the
    multi-jump loop of [makeAIMove] plays): with fuel above the number
    of pieces, the result is empty when that chain is empty and starts
    with it otherwise. *)
Theorem capture_chains_first (fuel : nat) (b : Board) (row col : Z)
    (chain : list Move) :
  (size (grid b) < fuel)%nat ->
  greedyChain (clone b) row col chain ->
  exists chains,
    getCaptureChains fuel b row col = Returns chains /\
    match chain with
    | [] => chains = []
    | _ :: _ => exists rest, chains = chain :: rest
    end.
Proof.
  intros Hfuel Hg.
  destruct chain as [|m chain].
  - destruct (getCaptureChains_some fuel b row col Hfuel) as (chains & -> & _ & Hnil).
    exists chains. split; [done|]. apply Hnil.
    simpl in Hg. rewrite captureOptions_eq in Hg |- *.
    rewrite getPieceAt_clone in Hg.
    destruct (getPieceAt b row col) as [piece|]; [|done].
    rewrite <- Hg. apply getCaptureMoves_ext. intros. by rewrite getPieceAt_clone.
  - unfold getCaptureChains.
    pose proof Hg as [[others Hoff] _].
    rewrite captureOptions_eq, getPieceAt_clone in Hoff.
    destruct (getPieceAt b row col) as [piece|] eqn:Hp; [|done].
    destruct (findCaptureChains_first fuel (clone b) row col (player piece) (type piece)
                [] (m :: chain) []) as (rest & ->); try done.
    + apply clone_onBoard.
    + rewrite getPieceAt_clone, Hp. by destruct piece.
    + pose proof (clone_size b). lia.
    + eauto.
Qed.

Lemma capture_chains_first_witness :
  exists chains,
    getCaptureChains 4 doubleJump 2 1 = Returns chains /\
    exists rest,
      chains = [mkMove 4 3 Capture (Some 3) (Some 2);
                mkMove 6 5 Capture (Some 5) (Some 4)] :: rest.
Proof.
  apply (capture_chains_first 4 doubleJump 2 1
           [mkMove 4 3 Capture (Some 3) (Some 2);
            mkMove 6 5 Capture (Some 5) (Some 4)]); [vm_compute; lia|].
  vm_compute. repeat split; eauto.
Defined.
